(** * Ralphy task orchestration: backlog sources, workspaces and the batch scheduler

    A shallow embedding of the TypeScript plugin under [.opencode/plugin/lib]
    (utils.ts, config.ts, prompt-builder.ts, task-sources/markdown.ts,
    task-sources/yaml.ts, task-sources/github.ts, git-manager.ts,
    parallel-executor.ts), followed by the properties of the specification
    that concern it and by further properties of the code.

    JavaScript strings are sequences of UTF-16 code units, modelled as lists of
    [N]; JavaScript numbers are modelled where the code produces them, as the
    integer-valued doubles and the two infinities.  Calls to the shell, to the
    file system and to the [gh] client are answered by an environment that the
    definitions take as an argument and are recorded in an event log. *)

From Stdlib Require Import List NArith ZArith Lia Bool String Ascii Sorted DecimalN
  Permutation.
Import ListNotations.

Set Implicit Arguments.

(* ================================================================== *)
(** * JavaScript strings and numbers *)
(* ================================================================== *)

Module JS.

Definition jsstring := list N.

(** A string literal of the source, as code units (ASCII literals only). *)
Definition js (s : string) : jsstring :=
  List.map N_of_ascii (list_ascii_of_string s).

Fixpoint eqb (a b : jsstring) : bool :=
  match a, b with
  | [], [] => true
  | x :: a', y :: b' => N.eqb x y && eqb a' b'
  | _, _ => false
  end.

(** [s.startsWith(p)] *)
Fixpoint startsWith (p s : jsstring) : bool :=
  match p, s with
  | [], _ => true
  | x :: p', y :: s' => N.eqb x y && startsWith p' s'
  | _ :: _, [] => false
  end.

(** [s.endsWith(p)] *)
Definition endsWith (p s : jsstring) : bool := startsWith (rev p) (rev s).

(** LineTerminator: LF, CR, LS, PS.  [.] does not match them, and with the
    [m] flag [^] matches after one and [$] before one. *)
Definition is_line_terminator (c : N) : bool :=
  (N.eqb c 10 || N.eqb c 13 || N.eqb c 8232 || N.eqb c 8233)%bool.

(** WhiteSpace and LineTerminator code units, as stripped by [trim] and
    skipped by [parseInt]. *)
Definition is_whitespace (c : N) : bool :=
  ((N.leb 9 c && N.leb c 13) || N.eqb c 32 || N.eqb c 160 || N.eqb c 5760
   || (N.leb 8192 c && N.leb c 8202) || N.eqb c 8232 || N.eqb c 8233
   || N.eqb c 8239 || N.eqb c 8287 || N.eqb c 12288 || N.eqb c 65279)%bool.

Fixpoint trimStart (s : jsstring) : jsstring :=
  match s with
  | c :: s' => if is_whitespace c then trimStart s' else s
  | [] => []
  end.

Definition trimEnd (s : jsstring) : jsstring := rev (trimStart (rev s)).

(** [s.trim()] *)
Definition trim (s : jsstring) : jsstring := trimEnd (trimStart s).

(** [s.indexOf(c)] for a one-unit needle; [None] stands for -1. *)
Fixpoint indexOf (c : N) (s : jsstring) : option nat :=
  match s with
  | [] => None
  | x :: s' => if N.eqb x c then Some 0
               else match indexOf c s' with Some i => Some (S i) | None => None end
  end.

(** [s.split(sep)] for a one-unit separator: never empty, [""] gives [[""]]. *)
Fixpoint split (sep : N) (s : jsstring) : list jsstring :=
  match s with
  | [] => [[]]
  | c :: s' =>
      if N.eqb c sep then [] :: split sep s'
      else match split sep s' with
           | l :: ls => (c :: l) :: ls
           | [] => [[c]]
           end
  end.

(** A string as a condition: the empty string is falsy. *)
Definition nonempty (s : jsstring) : bool :=
  match s with [] => false | _ :: _ => true end.

(** [s.slice(1, -1)] *)
Definition slice_1_m1 (s : jsstring) : jsstring := removelast (tl s).

(** [a.slice(i, j)] on arrays and strings, for [0 <= i <= j]. *)
Definition slice {A} (i j : nat) (l : list A) : list A := firstn (j - i) (skipn i l).

(** ** Numbers

    Every number the modelled code handles is the result of [parseInt] or an
    array index: an integer-valued double or an infinity ([NaN] and [-0] are
    removed by [|| 0] before they are stored). *)
Inductive number := Num (z : Z) | PosInf | NegInf.

Definition number_eqb (a b : number) : bool :=
  match a, b with
  | Num x, Num y => Z.eqb x y
  | PosInf, PosInf | NegInf, NegInf => true
  | _, _ => false
  end.

Definition number_ltb (a b : number) : bool :=
  match a, b with
  | NegInf, NegInf => false
  | NegInf, _ => true
  | Num _, NegInf => false
  | Num x, Num y => Z.ltb x y
  | Num _, PosInf => true
  | PosInf, _ => false
  end.

Definition number_lt (a b : number) : Prop := number_ltb a b = true.

(** Round a natural number to the nearest double (ties to even); [None] is
    the overflow to infinity.  Naturals below 2^53 are doubles. *)
Definition round_double (m : N) : option N :=
  if N.ltb m (2 ^ 53) then Some m
  else
    let e := (N.log2 m - 52)%N in
    let q := N.shiftr m e in
    let r := (m - N.shiftl q e)%N in
    let half := (2 ^ (e - 1))%N in
    let q' := if N.ltb r half then q
              else if N.ltb half r then N.succ q
              else if N.even q then q else N.succ q in
    let v := N.shiftl q' e in
    if N.ltb v (2 ^ 1024) then Some v else None.

Definition to_number (negative : bool) (m : N) : number :=
  match round_double m with
  | Some v => Num (if negative then Z.opp (Z.of_N v) else Z.of_N v)
  | None => if negative then NegInf else PosInf
  end.

Definition is_digit (c : N) : bool := (N.leb 48 c && N.leb c 57)%bool.

(** The maximal prefix of decimal digits, as a [Decimal.uint]. *)
Fixpoint read_digits (s : jsstring) : Decimal.uint :=
  match s with
  | [] => Decimal.Nil
  | c :: s' =>
      if is_digit c then
        let r := read_digits s' in
        match (c - 48)%N with
        | 0 => Decimal.D0 r | 1 => Decimal.D1 r | 2 => Decimal.D2 r
        | 3 => Decimal.D3 r | 4 => Decimal.D4 r | 5 => Decimal.D5 r
        | 6 => Decimal.D6 r | 7 => Decimal.D7 r | 8 => Decimal.D8 r
        | _ => Decimal.D9 r
        end%N
      else Decimal.Nil
  end.

(** [parseInt(s, 10)]; [None] is [NaN]. *)
Definition parseInt (s : jsstring) : option number :=
  let s1 := trimStart s in
  let '(negative, s2) :=
    match s1 with
    | c :: s' => if N.eqb c 45 then (true, s') else if N.eqb c 43 then (false, s') else (false, s1)
    | [] => (false, s1)
    end in
  match read_digits s2 with
  | Decimal.Nil => None
  | d => Some (to_number negative (N.of_uint d))
  end.

(** [x || 0] for a number [x]: [NaN] and zero are falsy. *)
Definition or_zero (x : option number) : number :=
  match x with Some n => n | None => Num 0 end.

Fixpoint uint_units (d : Decimal.uint) : jsstring :=
  match d with
  | Decimal.Nil => []
  | Decimal.D0 r => 48 :: uint_units r | Decimal.D1 r => 49 :: uint_units r
  | Decimal.D2 r => 50 :: uint_units r | Decimal.D3 r => 51 :: uint_units r
  | Decimal.D4 r => 52 :: uint_units r | Decimal.D5 r => 53 :: uint_units r
  | Decimal.D6 r => 54 :: uint_units r | Decimal.D7 r => 55 :: uint_units r
  | Decimal.D8 r => 56 :: uint_units r | Decimal.D9 r => 57 :: uint_units r
  end%N.

(** Decimal digits of a natural number. *)
Definition dec (n : N) : jsstring := uint_units (N.to_uint n).

(** The least [j] from the given one with [v < 10^(j+1)]. *)
Fixpoint top_exp (fuel j : nat) (v : N) : nat :=
  match fuel with
  | O => j
  | S f => if N.ltb v (10 ^ N.of_nat (S j)) then j else top_exp f (S j) v
  end.

(** Of the two multiples of [p] around [v], the one that reads back as the
    double [v]; the closer one when both do, the one with even quotient on a
    tie. *)
Definition pick (v p : N) : option N :=
  let lo := (v / p * p)%N in
  let hi := (lo + p)%N in
  let ok c := match round_double c with Some w => N.eqb w v | None => false end in
  match ok lo, ok hi with
  | true, true =>
      if N.ltb (v - lo) (hi - v) then Some lo
      else if N.ltb (hi - v) (v - lo) then Some hi
      else if N.even (v / p) then Some lo else Some hi
  | true, false => Some lo
  | false, true => Some hi
  | false, false => None
  end.

(** Number::toString step 5: the integer [s * 10^(n-k)] with the fewest
    significant digits [k] whose double is [v]. *)
Fixpoint shortest_from (v : N) (j : nat) : N :=
  match pick v (10 ^ N.of_nat j) with
  | Some c => c
  | None => match j with O => v | S j' => shortest_from v j' end
  end.

Definition shortest (v : N) : N :=
  shortest_from v (top_exp (S (N.to_nat (N.log2 v))) 0 v).

Fixpoint strip_zeros (rev_digits : jsstring) : jsstring :=
  match rev_digits with
  | c :: r => if N.eqb c 48 then strip_zeros r else rev_digits
  | [] => []
  end.

(** Number::toString for a positive integer-valued double. *)
Definition pos_toString (v : N) : jsstring :=
  let c := shortest v in
  if N.ltb c (10 ^ 21) then dec c
  else
    let ds := dec c in
    let sig := rev (strip_zeros (rev ds)) in
    let e := dec (N.of_nat (List.length ds - 1)) in
    match sig with
    | [d] => d :: js "e+" ++ e
    | d :: more => d :: 46%N :: more ++ js "e+" ++ e
    | [] => ds
    end.

(** [`${x}`] for a number [x]. *)
Definition numberToString (x : number) : jsstring :=
  match x with
  | Num Z0 => js "0"
  | Num (Zpos p) => pos_toString (Npos p)
  | Num (Zneg p) => 45%N :: pos_toString (Npos p)
  | PosInf => js "Infinity"
  | NegInf => js "-Infinity"
  end.

(** A number that is a double: every finite one is the rounding of itself. *)
Definition is_double (g : number) : Prop :=
  match g with
  | Num z => round_double (Z.abs_N z) = Some (Z.abs_N z)
  | _ => True
  end.

(** A finite number below 10^21 in magnitude: Number::toString writes such
    a number in plain decimal notation, and larger ones with an exponent. *)
Definition plain_decimal (g : number) : Prop :=
  exists z, g = Num z /\ (Z.abs z < 10 ^ 21)%Z.

(** A non-empty string without white space. *)
Definition visible (s : jsstring) : Prop :=
  s <> [] /\ Forall (fun c => is_whitespace c = false) s.

(** GetSubstitution for a pattern without capture groups: in the replacement
    text [$$] is a dollar, [$&] the match, [$`] the text before it and [$']
    the text after it; any other [$] stands for itself. *)
Fixpoint GetSubstitution (matched before after template : jsstring) : jsstring :=
  match template with
  | [] => []
  | c :: rest =>
      if N.eqb c 36 then
        match rest with
        | d :: rest' =>
            if N.eqb d 36 then 36%N :: GetSubstitution matched before after rest'
            else if N.eqb d 38 then matched ++ GetSubstitution matched before after rest'
            else if N.eqb d 96 then before ++ GetSubstitution matched before after rest'
            else if N.eqb d 39 then after ++ GetSubstitution matched before after rest'
            else c :: GetSubstitution matched before after rest
        | [] => [c]
        end
      else c :: GetSubstitution matched before after rest
  end.

(** The first position at a line start ([^] with the [m] flag) where [pat]
    occurs literally: the text before it and the text after the match. *)
Fixpoint find_at_line_start (pat : jsstring) (start : bool) (s : jsstring)
  : option (jsstring * jsstring) :=
  if (start && startsWith pat s)%bool then Some ([], skipn (List.length pat) s)
  else match s with
       | [] => None
       | c :: s' =>
           match find_at_line_start pat (is_line_terminator c) s' with
           | Some (b, a) => Some (c :: b, a)
           | None => None
           end
       end.

(** [s.replace(new RegExp("^" + escapeRegex(pat), "m"), template)] *)
Definition replace_first_at_line_start (pat template s : jsstring) : jsstring :=
  match find_at_line_start pat true s with
  | Some (b, a) => b ++ GetSubstitution pat b a template ++ a
  | None => s
  end.

(** The lines of a text: the first line, then each line terminator with the
    line that follows it. *)
Fixpoint split_lines (s : jsstring) : jsstring * list (N * jsstring) :=
  match s with
  | [] => ([], [])
  | c :: s' =>
      let '(l, r) := split_lines s' in
      if is_line_terminator c then ([], (c, l) :: r) else (c :: l, r)
  end.

Definition line_texts (s : jsstring) : list jsstring :=
  let '(l, r) := split_lines s in l :: List.map snd r.

(** The text of a first line and the terminated lines after it. *)
Definition join_rest (r : list (N * jsstring)) : jsstring :=
  flat_map (fun cl => fst cl :: snd cl) r.

Definition join_lines (d : jsstring * list (N * jsstring)) : jsstring :=
  fst d ++ join_rest (snd d).

Definition no_terminator (s : jsstring) : Prop :=
  forallb (fun c => negb (is_line_terminator c)) s = true.

(** Lines as [split_lines] produces them. *)
Definition lines_wf (d : jsstring * list (N * jsstring)) : Prop :=
  no_terminator (fst d)
  /\ Forall (fun cl => is_line_terminator (fst cl) = true /\ no_terminator (snd cl)) (snd d).

(** [find_at_line_start], line by line. *)
Fixpoint find_lines (pat l : jsstring) (r : list (N * jsstring))
  : option (jsstring * jsstring) :=
  if startsWith pat l then Some ([], skipn (List.length pat) l ++ join_rest r)
  else match r with
       | [] => None
       | (c, l1) :: r' =>
           match find_lines pat l1 r' with
           | Some (b, a) => Some (l ++ c :: b, a)
           | None => None
           end
       end.

(** The first line that begins with [pat], with [pat] replaced by [new]. *)
Fixpoint mark_lines (pat new l : jsstring) (r : list (N * jsstring))
  : option (jsstring * list (N * jsstring)) :=
  if startsWith pat l then Some (new ++ skipn (List.length pat) l, r)
  else match r with
       | [] => None
       | (c, l1) :: r' =>
           match mark_lines pat new l1 r' with
           | Some (l1', r'') => Some (l, (c, l1') :: r'')
           | None => None
           end
       end.

(** A replacement text without [$$], [$&], [$`] or [$']. *)
Fixpoint no_substitution (t : jsstring) : bool :=
  match t with
  | [] => true
  | c :: rest =>
      if N.eqb c 36 then
        match rest with
        | d :: _ =>
            (negb (N.eqb d 36 || N.eqb d 38 || N.eqb d 96 || N.eqb d 39)
             && no_substitution rest)%bool
        | [] => true
        end
      else no_substitution rest
  end.

(** The sign of [parseInt]'s argument and what follows it. *)
Definition strip_sign (s : jsstring) : bool * jsstring :=
  match s with
  | c :: s' => if N.eqb c 45 then (true, s') else if N.eqb c 43 then (false, s') else (false, s)
  | [] => (false, s)
  end.

Definition hex_value (c : N) : option N :=
  if is_digit c then Some (c - 48)%N
  else if (N.leb 97 c && N.leb c 102)%bool then Some (c - 87)%N
  else if (N.leb 65 c && N.leb c 70)%bool then Some (c - 55)%N
  else None.

(** The value of the maximal prefix of hexadecimal digits; [None] when
    there is none. *)
Fixpoint read_hex (acc : N) (seen : bool) (s : jsstring) : option N :=
  match s with
  | c :: s' =>
      match hex_value c with
      | Some d => read_hex (16 * acc + d) true s'
      | None => if seen then Some acc else None
      end
  | [] => if seen then Some acc else None
  end.

(** [parseInt(s)] without a radix: hexadecimal after [0x] or [0X], decimal
    otherwise; [None] is [NaN]. *)
Definition parseInt_auto (s : jsstring) : option number :=
  let '(negative, s2) := strip_sign (trimStart s) in
  match s2 with
  | 48%N :: x :: s3 =>
      if (N.eqb x 120 || N.eqb x 88)%bool then
        match read_hex 0 false s3 with
        | Some m => Some (to_number negative m)
        | None => None
        end
      else Some (to_number negative (N.of_uint (read_digits s2)))
  | _ =>
      match read_digits s2 with
      | Decimal.Nil => None
      | d => Some (to_number negative (N.of_uint d))
      end
  end.

(** [x || d] for a number [x]: [NaN] and zero are falsy. *)
Definition or_default (x : option number) (d : number) : number :=
  match x with
  | Some (Num Z0) | None => d
  | Some n => n
  end.

(** [s.split(/\s+/).filter(Boolean)]: the maximal runs of units that are
    not white space. *)
Fixpoint words (s : jsstring) : list jsstring :=
  match s with
  | [] => []
  | c :: s' =>
      if is_whitespace c then words s'
      else match s' with
           | d :: _ =>
               if is_whitespace d then [c] :: words s'
               else match words s' with
                    | w :: ws => (c :: w) :: ws
                    | [] => [[c]]
                    end
           | [] => [[c]]
           end
  end.

(** [s.split(sep)[0]] for a one-unit separator. *)
Fixpoint before_first (sep : N) (s : jsstring) : jsstring :=
  match s with
  | [] => []
  | c :: s' => if N.eqb c sep then [] else c :: before_first sep s'
  end.

End JS.

Import JS.

(* ================================================================== *)
(** * utils.ts *)
(* ================================================================== *)

Module Utils.

(** [text.toLowerCase()], one code unit at a time.  ASCII capitals are
    lowered; of the code units outside ASCII only U+212A (to [k]) and U+0130
    (to [i] and U+0307) lower to something that contains an ASCII unit, and
    the others are left as they are: [slugify] turns every unit outside
    [a-z0-9] into a hyphen in its next step. *)
Definition lower_unit (c : N) : jsstring :=
  if (N.leb 65 c && N.leb c 90)%bool then [(c + 32)%N]
  else if N.eqb c 8490 then [107%N]
  else if N.eqb c 304 then [105%N; 775%N]
  else [c].

Definition toLowerCase (s : jsstring) : jsstring := flat_map lower_unit s.

(** The class [[a-z0-9]]. *)
Definition is_slug_unit (c : N) : bool :=
  ((N.leb 97 c && N.leb c 122) || (N.leb 48 c && N.leb c 57))%bool.

(** A lowercase ASCII letter, a digit or a hyphen. *)
Definition slug_unit (c : N) : Prop :=
  (97 <= c <= 122)%N \/ (48 <= c <= 57)%N \/ c = 45%N.

(** [.replace(/[^a-z0-9]+/g, "-")]: every maximal run of other units becomes
    one hyphen; [in_run] tells that the run's hyphen is already written. *)
Fixpoint collapse_runs (in_run : bool) (s : jsstring) : jsstring :=
  match s with
  | [] => []
  | c :: s' =>
      if is_slug_unit c then c :: collapse_runs false s'
      else if in_run then collapse_runs true s'
      else 45%N :: collapse_runs true s'
  end.

(** [.replace(/^-|-$/g, "")]: a hyphen at index 0 goes, then a hyphen at the
    last index of what is left of the text. *)
Definition strip_leading (s : jsstring) : jsstring :=
  match s with
  | c :: s' => if N.eqb c 45 then s' else s
  | [] => []
  end.

Definition strip_trailing (s : jsstring) : jsstring :=
  match rev s with
  | c :: r => if N.eqb c 45 then rev r else s
  | [] => []
  end.

(** [slugify], over the lower-casing function. *)
Definition slugify_with (lower : jsstring -> jsstring) (text : jsstring) : jsstring :=
  firstn 50 (strip_trailing (strip_leading (collapse_runs false (lower text)))).

Definition slugify : jsstring -> jsstring := slugify_with toLowerCase.

(** No two hyphens next to each other. *)
Fixpoint no_double_hyphen (s : jsstring) : bool :=
  match s with
  | a :: (b :: _) as s' => (negb (N.eqb a 45 && N.eqb b 45) && no_double_hyphen s')%bool
  | _ => true
  end.

(** [truncate(text, length)] *)
Definition truncate (text : jsstring) (len : nat) : jsstring :=
  if Nat.leb (List.length text) len then text
  else
    (* [slice(0, len - 3)]: a negative end counts from the end of the text *)
    (if Nat.leb 3 len then firstn (len - 3) text
     else firstn (List.length text - (3 - len)) text) ++ js "...".

(** The class [[.*+?^${}()|[\]\\]] of [escapeRegex]. *)
Definition is_regex_special (c : N) : bool :=
  existsb (N.eqb c) [46; 42; 43; 63; 94; 36; 123; 125; 40; 41; 124; 91; 93; 92]%N.

(** [escapeRegex]: a backslash before every unit of the class. *)
Definition escapeRegex (text : jsstring) : jsstring :=
  flat_map (fun c => if is_regex_special c then [92%N; c] else [c]) text.

(** SyntaxCharacter of the pattern grammar: [^ $ \ . * + ? ( ) [ ] { } |]. *)
Definition is_syntax_character (c : N) : bool :=
  existsb (N.eqb c) [94; 36; 92; 46; 42; 43; 63; 40; 41; 91; 93; 123; 125; 124]%N.

(** How [RegExp] reads a pattern made of literal atoms only: a unit that is
    no syntax character stands for itself, and a backslash before a syntax
    character stands for that character.  The text the pattern matches;
    [None] for any other pattern. *)
Fixpoint literal_pattern (p : jsstring) : option jsstring :=
  match p with
  | [] => Some []
  | c :: p' =>
      if N.eqb c 92 then
        match p' with
        | d :: p'' =>
            if is_syntax_character d then option_map (cons d) (literal_pattern p'')
            else None
        | [] => None
        end
      else if is_syntax_character c then None
      else option_map (cons c) (literal_pattern p')
  end.

(** [formatDuration(ms)] for an integer number of milliseconds below 2^53
    in magnitude, where the floor of each quotient is exact; [%] has the
    sign of the dividend. *)
Definition formatDuration (ms : Z) : jsstring :=
  let seconds := (ms / 1000)%Z in
  let minutes := (seconds / 60)%Z in
  let remainingSeconds := Z.rem seconds 60 in
  if Z.ltb 0 minutes then
    numberToString (Num minutes) ++ js "m " ++ numberToString (Num remainingSeconds) ++ js "s"
  else numberToString (Num seconds) ++ js "s".

(** The backlog file as [Bun.file(path).text()] sees it: its text, or [None]
    when reading it fails. *)
Definition file := option jsstring.

(** [readFile]: a failed read is the empty text. *)
Definition readFile (f : file) : jsstring :=
  match f with Some c => c | None => [] end.

(** [writeFile] (the write itself is taken to succeed). *)
Definition writeFile (content : jsstring) : file := Some content.

End Utils.

(* ================================================================== *)
(** * task-sources/index.ts: the interface of a backlog source *)
(* ================================================================== *)

Record Task := mkTask {
  task_title : jsstring;
  task_completed : bool;
  task_parallelGroup : option number
}.

(** The part of the [TaskSource] interface the scheduler calls, over the
    state [S] of the backing store. *)
Class TaskSource (S : Type) := {
  getRemainingTasks : S -> list jsstring;
  markComplete : jsstring -> S -> S
}.

(* ================================================================== *)
(** * task-sources/markdown.ts *)
(* ================================================================== *)

Module Markdown.

Definition pending_marker : jsstring := Eval cbv in js "- [ ] ".
Definition done_marker : jsstring := Eval cbv in js "- [x] ".
Definition pending_box : jsstring := Eval cbv in js "- [ ]".
Definition done_box : jsstring := Eval cbv in js "- [x]".

(** A match of [/^<marker>.+$/gm] on a line, with the marker removed. *)
Definition title_after (marker line : jsstring) : list jsstring :=
  if (startsWith marker line && Nat.ltb (List.length marker) (List.length line))%bool
  then [skipn (List.length marker) line] else [].

Definition count_lines (box content : jsstring) : nat :=
  List.length (filter (startsWith box) (line_texts content)).

Definition getRemainingTasks (f : Utils.file) : list jsstring :=
  flat_map (title_after pending_marker) (line_texts (Utils.readFile f)).

Definition getAllTasks (f : Utils.file) : list Task :=
  let content := Utils.readFile f in
  List.map (fun t => mkTask t false None)
    (flat_map (title_after pending_marker) (line_texts content))
  ++ List.map (fun t => mkTask t true None)
    (flat_map (title_after done_marker) (line_texts content)).

Definition getNextTask (f : Utils.file) : option jsstring :=
  match getRemainingTasks f with t :: _ => Some t | [] => None end.

Definition countRemaining (f : Utils.file) : nat :=
  count_lines pending_box (Utils.readFile f).

Definition countCompleted (f : Utils.file) : nat :=
  count_lines done_box (Utils.readFile f).

(** [markComplete]: the pattern is the escaped task after the pending marker,
    so it matches that text literally, anchored at a line start only; the
    replacement text is not escaped. *)
Definition markComplete (task : jsstring) (f : Utils.file) : Utils.file :=
  Utils.writeFile
    (replace_first_at_line_start (pending_marker ++ task) (done_marker ++ task)
       (Utils.readFile f)).

#[export] Instance source : TaskSource Utils.file :=
  Build_TaskSource getRemainingTasks markComplete.

(** Sample checklists. *)
Definition three_pending_one_done : jsstring :=
  js "- [ ] one" ++ [10%N] ++ js "- [ ] two" ++ [10%N] ++ js "- [x] three" ++ [10%N]
  ++ js "- [ ] four".

(** The task "Add" after a pending task that begins with "Add". *)
Definition prefix_checklist : jsstring :=
  js "- [ ] Add tests" ++ [10%N] ++ js "- [ ] Add".

(** A task that ends with the replacement pattern for the text after the
    match, before a completed line. *)
Definition pattern_checklist : jsstring :=
  js "- [ ] a$'" ++ [10%N] ++ js "- [x] b".

(** The same task twice. *)
Definition twice_checklist : jsstring :=
  js "- [ ] A" ++ [10%N] ++ js "- [ ] A".

End Markdown.

(* ================================================================== *)
(** * task-sources/yaml.ts *)
(* ================================================================== *)

Module Yaml.

Record YamlTask := mkYamlTask {
  title : jsstring;
  completed : bool;
  parallel_group : option number
}.

Definition quote : N := 34%N.
Definition apostrophe : N := 39%N.
Definition LF : N := 10%N.
Definition colon : N := 58%N.

(** [parseValue]: trims, and drops one pair of enclosing quotes. *)
Definition parseValue (value : jsstring) : jsstring :=
  let v := trim value in
  if ((startsWith [quote] v && endsWith [quote] v)
      || (startsWith [apostrophe] v && endsWith [apostrophe] v))%bool
  then slice_1_m1 v else v.

(** The variables of the loop of [parseSimpleYaml]. *)
Record pstate := mkPstate {
  currentTask : option YamlTask;
  inTasks : bool;
  tasks : list YamlTask
}.

(** [if (currentTask && currentTask.title) result.tasks.push(currentTask)] *)
Definition push_current (st : pstate) : list YamlTask :=
  match currentTask st with
  | Some t => if nonempty (title t) then tasks st ++ [t] else tasks st
  | None => tasks st
  end.

(** The [switch (key)] of the property lines. *)
Definition set_property (t : YamlTask) (key value : jsstring) : YamlTask :=
  if eqb key (js "title") then mkYamlTask (parseValue value) (completed t) (parallel_group t)
  else if eqb key (js "completed") then
    mkYamlTask (title t) (eqb value (js "true")) (parallel_group t)
  else if eqb key (js "parallel_group") then
    mkYamlTask (title t) (completed t) (Some (or_zero (parseInt value)))
  else t.

(** One iteration of [for (const line of lines)]. *)
Definition step (st : pstate) (line : jsstring) : pstate :=
  let trimmed := trim line in
  if (negb (nonempty trimmed) || startsWith (js "#") trimmed)%bool then st
  else if eqb trimmed (js "tasks:") then mkPstate (currentTask st) true (tasks st)
  else if negb (inTasks st) then st
  else if startsWith (js "- ") trimmed then
    let restOfLine := trim (skipn 2 trimmed) in
    let t := if startsWith (js "title:") restOfLine
             then parseValue (skipn 6 restOfLine) else [] in
    mkPstate (Some (mkYamlTask t false None)) (inTasks st) (push_current st)
  else
    match currentTask st, indexOf colon trimmed with
    | Some t, Some colonIndex =>
        let key := trim (firstn colonIndex trimmed) in
        let value := trim (skipn (S colonIndex) trimmed) in
        mkPstate (Some (set_property t key value)) (inTasks st) (tasks st)
    | _, _ => st
    end.

Definition parseSimpleYaml (content : jsstring) : list YamlTask :=
  push_current (fold_left step (split LF content) (mkPstate None false [])).

Definition render (t : YamlTask) : jsstring :=
  js "  - title: " ++ [quote] ++ title t ++ [quote; LF]
  ++ js "    completed: " ++ (if completed t then js "true" else js "false") ++ [LF]
  ++ match parallel_group t with
     | Some g => js "    parallel_group: " ++ numberToString g ++ [LF]
     | None => []
     end.

Definition stringifyYaml (data : list YamlTask) : jsstring :=
  js "tasks:" ++ [LF] ++ flat_map render data.

(** [parseFile]: an unreadable or empty file is the empty task list. *)
Definition parseFile (f : Utils.file) : list YamlTask :=
  match Utils.readFile f with
  | [] => []
  | content => parseSimpleYaml content
  end.

Definition getRemainingTasks (f : Utils.file) : list jsstring :=
  List.map title (filter (fun t => negb (completed t)) (parseFile f)).

Definition getAllTasks (f : Utils.file) : list Task :=
  List.map (fun t => mkTask (title t) (completed t) (parallel_group t)) (parseFile f).

Definition getNextTask (f : Utils.file) : option jsstring :=
  match getRemainingTasks f with t :: _ => Some t | [] => None end.

Definition countRemaining (f : Utils.file) : nat :=
  List.length (filter (fun t => negb (completed t)) (parseFile f)).

Definition countCompleted (f : Utils.file) : nat :=
  List.length (filter completed (parseFile f)).

(** [data.tasks.find(t => t.title === task)] and the assignment to the task
    found. *)
Fixpoint complete_first (task : jsstring) (data : list YamlTask) : list YamlTask :=
  match data with
  | [] => []
  | t :: rest =>
      if eqb (title t) task then mkYamlTask (title t) true (parallel_group t) :: rest
      else t :: complete_first task rest
  end.

Definition markComplete (task : jsstring) (f : Utils.file) : Utils.file :=
  Utils.writeFile (stringifyYaml (complete_first task (parseFile f))).

(** [t.parallel_group ?? 0] *)
Definition group_of (t : YamlTask) : number :=
  match parallel_group t with Some g => g | None => Num 0 end.

Definition getTasksByGroup (group : number) (f : Utils.file) : list jsstring :=
  List.map title
    (filter (fun t => (negb (completed t) && number_eqb (group_of t) group)%bool)
       (parseFile f)).

(** [Set.prototype.add]: a set keeps its elements in insertion order. *)
Definition set_add (g : number) (s : list number) : list number :=
  if existsb (number_eqb g) s then s else s ++ [g].

(** The comparator [(a, b) => a - b], as the sign of its result; the
    difference of equal infinities is [NaN], which [sort] reads as 0. *)
Definition compare_sub (a b : number) : comparison :=
  match a, b with
  | Num x, Num y => Z.compare x y
  | PosInf, PosInf | NegInf, NegInf => Eq
  | PosInf, _ | _, NegInf => Gt
  | NegInf, _ | _, PosInf => Lt
  end.

Fixpoint insert_sorted (x : number) (l : list number) : list number :=
  match l with
  | [] => [x]
  | y :: l' =>
      match compare_sub x y with
      | Gt => y :: insert_sorted x l'
      | _ => x :: l
      end
  end.

(** [Array.prototype.sort] with that comparator, as a stable insertion
    sort. *)
Fixpoint sort_numbers (l : list number) : list number :=
  match l with
  | [] => []
  | x :: l' => insert_sorted x (sort_numbers l')
  end.

(** The body of the loop of [getParallelGroups]. *)
Definition collect (groups : list number) (t : YamlTask) : list number :=
  if completed t then groups else set_add (group_of t) groups.

Definition getParallelGroups (f : Utils.file) : list number :=
  sort_numbers (fold_left collect (parseFile f) []).

#[export] Instance source : TaskSource Utils.file :=
  Build_TaskSource getRemainingTasks markComplete.

(** What [parseSimpleYaml] guarantees of a task: a title that is not empty
    and holds no line feed, and a group that is a double. *)
Definition task_ok (t : YamlTask) : Prop :=
  title t <> [] /\ ~ In LF (title t)
  /\ forall g, parallel_group t = Some g -> is_double g.

(** A task whose group, if any, is written in plain decimal notation. *)
Definition task_plain (t : YamlTask) : Prop :=
  forall g, parallel_group t = Some g -> plain_decimal g.

Definition current_ok (st : pstate) : Prop :=
  forall t, currentTask st = Some t ->
            ~ In LF (title t) /\ forall g, parallel_group t = Some g -> is_double g.

Definition state_ok (st : pstate) : Prop := Forall task_ok (tasks st) /\ current_ok st.

(** A structured backlog whose only task has group 10^21. *)
Definition large_group : jsstring :=
  js "tasks:" ++ [LF]
  ++ js "  - title: A" ++ [LF]
  ++ js "    parallel_group: 1000000000000000000000" ++ [LF].

End Yaml.

(* ================================================================== *)
(** * task-sources/github.ts *)
(* ================================================================== *)

(** What a call may do: return a value or throw. *)
Inductive result (A : Type) := Returned (a : A) | Thrown.
Arguments Thrown {A}.

Module Github.

(** [Bun.spawn(["gh", ...args])] and the read of its standard output: the
    process cannot be started (no [gh] on the path) and [Bun.spawn] throws,
    or it runs and writes [stdout], whatever its exit code. *)
Inductive spawned := SpawnFails | Exited (stdout : jsstring).

Section Source.

(** The [gh] client and the tracker behind it. *)
Variable gh : list jsstring -> spawned.

(** [JSON.parse(output)] followed by the loop over the issues: the titles
    ["<number>:<title>"] produced, and whether the block ended without
    throwing. *)
Variable issue_titles : jsstring -> list jsstring * bool.

(** [JSON.parse(output).length]: [None] when it throws, [Some None] when
    the parsed value has no [length] (an object or a number), which the code
    returns as it is ([undefined]). *)
Variable issue_count : jsstring -> option (option nat).

Variable repo label : jsstring.

(** [runGhCommand]: no handler around [Bun.spawn]. *)
Definition runGhCommand (args : list jsstring) : result jsstring :=
  match gh args with
  | SpawnFails => Thrown
  | Exited stdout => Returned (trim stdout)
  end.

Definition list_args (state fields : string) : list jsstring :=
  [js "issue"; js "list"; js "--repo"; repo; js "--state"; js state; js "--json"; js fields]
  ++ match label with [] => [] | _ => [js "--label"; label] end.

Definition getRemainingTasks : result (list jsstring) :=
  match runGhCommand (list_args "open" "number,title") with
  | Thrown => Thrown
  | Returned [] => Returned []
  | Returned output =>
      match issue_titles output with
      | (titles, true) => Returned titles
      | (_, false) => Returned []
      end
  end.

(** The tasks pushed from one listing. *)
Definition listed (state : string) (done : bool) : result (list Task) :=
  match runGhCommand (list_args state "number,title") with
  | Thrown => Thrown
  | Returned [] => Returned []
  | Returned output =>
      Returned (List.map (fun t => mkTask t done None) (fst (issue_titles output)))
  end.

Definition getAllTasks : result (list Task) :=
  match listed "open" false with
  | Thrown => Thrown
  | Returned open =>
      match listed "closed" true with
      | Thrown => Thrown
      | Returned closed => Returned (open ++ closed)
      end
  end.

Definition countRemaining : result nat :=
  match getRemainingTasks with
  | Thrown => Thrown
  | Returned ts => Returned (List.length ts)
  end.

(** [countCompleted]; [None] is [undefined]. *)
Definition countCompleted : result (option nat) :=
  match runGhCommand (list_args "closed" "number") with
  | Thrown => Thrown
  | Returned [] => Returned (Some 0)
  | Returned output =>
      match issue_count output with
      | Some n => Returned n
      | None => Returned (Some 0)
      end
  end.

(** [markComplete]: the arguments of the [gh] commands it runs, and how it
    ends; a task without an issue number runs none. *)
Definition markComplete (task : jsstring) : list (list jsstring) * result unit :=
  match before_first 58%N task with
  | [] => ([], Returned tt)
  | issueNum =>
      let args := [js "issue"; js "close"; issueNum; js "--repo"; repo] in
      ([args], match runGhCommand args with
               | Thrown => Thrown
               | Returned _ => Returned tt
               end)
  end.

End Source.

End Github.

(* ================================================================== *)
(** * git-manager.ts *)
(* ================================================================== *)

Module Git.

(** The shell commands the plugin issues. *)
Inductive cmd :=
| GitRevParseHead
| GitPush (branch : jsstring)
| GhPrCreate (base head prTitle body : jsstring) (draft : bool)
| GitWorktreePrune
| GitBranchForceDelete (branch : jsstring)
| GitBranchCreate (branch base : jsstring)
| RmRf (dir : jsstring)
| GitWorktreeAdd (dir branch : jsstring)
| GitStatusPorcelain (dir : jsstring)
| GitWorktreeRemove (dir : jsstring)
| GitCheckout (branch : jsstring)
| GitMerge (branch : jsstring)
| GitBranchDelete (branch : jsstring)
| GitDiffConflicted
| GitMergeAbort
| Mkdir (dir : jsstring)
| Cp (src dst : jsstring)
| Touch (path : jsstring).

(** What the console shows, by kind of line. *)
Inductive message :=
| NoTasksToRun
| FoundTasks (count : nat)
| RunningAgents (maxParallel : nat)
| ProcessingGroup (group : number) (size : nat)
| BatchSpawning (batchNum size : nat)
| AgentStarts (agentNum : nat) (task : jsstring)
| WouldExecute (agentNum : nat) (dir : jsstring)
| AgentResultLine (label : nat) (task : jsstring) (ok : bool)
| ReachedMaxIterations
| PreservingDirtyWorktree (dir : jsstring)
| FailedToCreateWorktree
| FailedToCreatePr
| CreatedPr (url : jsstring)
| WorktreeBasePreserved
| BranchCreated (branch : jsstring)
| Merging (branch : jsstring)
| Merged
| Conflict
| WouldResolve (files : list jsstring)
| Unresolved (branch : jsstring)
| AllMerged.

(** The observable history of a run: shell commands, the calls the claims
    speak about, and the console. *)
Inductive event :=
| Shell (c : cmd)
| Dispatch (task : jsstring) (agentNum : nat)
| MergeBranchCall (branch : jsstring)
| MergeBranchResult (branch : jsstring) (ok : bool)
| ConflictedFilesCall
| AbortMergeCall
| Console (m : message).

(** A command throws or completes with its output text. *)
Inductive outcome := Fails | Ok (text : jsstring).

(** The shell and the repository behind it: the outcome of a command, given
    everything that happened before. *)
Definition shell := list event -> cmd -> outcome.

(** Computations that extend the history. *)
Definition M (A : Type) : Type := list event -> A * list event.

Definition ret {A} (a : A) : M A := fun h => (a, h).

Definition bind {A B} (m : M A) (k : A -> M B) : M B :=
  fun h => let '(a, h') := m h in k a h'.

Definition emit (e : event) : M unit := fun h => (tt, h ++ [e]).

Definition sh (env : shell) (c : cmd) : M outcome :=
  fun h => (env h c, h ++ [Shell c]).

(** The events a computation adds to the history [h]. *)
Definition issued {A} (m : M A) (h : list event) : list event :=
  skipn (List.length h) (snd (m h)).

Declare Scope git_scope.
Delimit Scope git_scope with git.
Notation "x <- m ;; k" := (bind m (fun x => k))
  (at level 61, m at next level, right associativity) : git_scope.
Notation "m ;;; k" := (bind m (fun _ => k))
  (at level 61, right associativity) : git_scope.
Local Open Scope git_scope.

Record Worktree := mkWorktree { dir : jsstring; branch : jsstring }.

Section Manager.

Variable env : shell.

(** [getCurrentBranch] *)
Definition getCurrentBranch : M jsstring :=
  r <- sh env GitRevParseHead ;;
  ret match r with
      | Ok text => match trim text with [] => js "main" | b => b end
      | Fails => js "main"
      end.

(** [createPullRequest]: the URL, or [None] for [null]. *)
Definition createPullRequest (branchName prTitle body baseBranch : jsstring)
    (draft : bool) : M (option jsstring) :=
  r <- sh env (GitPush branchName) ;;
  match r with
  | Fails => emit (Console FailedToCreatePr) ;;; ret None
  | Ok _ =>
      r' <- sh env (GhPrCreate baseBranch branchName prTitle body draft) ;;
      match r' with
      | Fails => emit (Console FailedToCreatePr) ;;; ret None
      | Ok text => ret (Some (trim text))
      end
  end.

Definition branchName (task : jsstring) (agentNum : number) : jsstring :=
  js "ralphy/agent-" ++ numberToString agentNum ++ js "-" ++ Utils.slugify task.

Definition worktreeDir (worktreeBase : jsstring) (agentNum : number) : jsstring :=
  worktreeBase ++ js "/agent-" ++ numberToString agentNum.

(** [createWorktree]: [None] for [null]. *)
Definition createWorktree (task : jsstring) (agentNum : number)
    (worktreeBase baseBranch : jsstring) : M (option Worktree) :=
  let b := branchName task agentNum in
  let d := worktreeDir worktreeBase agentNum in
  r1 <- sh env GitWorktreePrune ;;
  match r1 with
  | Fails => emit (Console FailedToCreateWorktree) ;;; ret None
  | Ok _ =>
      sh env (GitBranchForceDelete b) ;;;
      r2 <- sh env (GitBranchCreate b baseBranch) ;;
      match r2 with
      | Fails => emit (Console FailedToCreateWorktree) ;;; ret None
      | Ok _ =>
          sh env (RmRf d) ;;;
          r3 <- sh env (GitWorktreeAdd d b) ;;
          match r3 with
          | Fails => emit (Console FailedToCreateWorktree) ;;; ret None
          | Ok _ => ret (Some (mkWorktree d b))
          end
      end
  end.

(** [cleanupWorktree] *)
Definition cleanupWorktree (d : jsstring) : M unit :=
  r <- sh env (GitStatusPorcelain d) ;;
  match r with
  | Fails => ret tt
  | Ok status =>
      match trim status with
      | _ :: _ => emit (Console (PreservingDirtyWorktree d))
      | [] => sh env (GitWorktreeRemove d) ;;; ret tt
      end
  end.

(** [mergeBranch] *)
Definition mergeBranch (b baseBranch : jsstring) : M bool :=
  emit (MergeBranchCall b) ;;;
  ok <- (r1 <- sh env (GitCheckout baseBranch) ;;
         match r1 with
         | Fails => ret false
         | Ok _ =>
             r2 <- sh env (GitMerge b) ;;
             match r2 with
             | Fails => ret false
             | Ok _ =>
                 r3 <- sh env (GitBranchDelete b) ;;
                 ret match r3 with Fails => false | Ok _ => true end
             end
         end) ;;
  emit (MergeBranchResult b ok) ;;;
  ret ok.

(** [getConflictedFiles]: [output.trim().split("\n").filter(Boolean)] *)
Definition getConflictedFiles : M (list jsstring) :=
  emit ConflictedFilesCall ;;;
  r <- sh env GitDiffConflicted ;;
  ret match r with
      | Fails => []
      | Ok output => filter nonempty (split 10%N (trim output))
      end.

(** [abortMerge] *)
Definition abortMerge : M unit :=
  emit AbortMergeCall ;;;
  sh env GitMergeAbort ;;;
  ret tt.

End Manager.

End Git.

(* ================================================================== *)
(** * parallel-executor.ts *)
(* ================================================================== *)

Module Executor.

Import Git.
Local Open Scope git_scope.

(** The fields of [RalphyConfig] the executor reads.  [maxParallel] is the
    step of the batch loop; with 0 the loop of the source does not advance
    and never ends. *)
Record Config := mkConfig {
  maxParallel : nat;
  maxIterations : nat;
  createPr : bool;
  draftPr : bool;
  baseBranch : jsstring;
  prdFile : jsstring
}.

Record AgentResult := mkAgentResult {
  task : jsstring;
  success : bool;
  branch : jsstring;
  error : option jsstring
}.

(** The grouping operations of [YamlTaskSource], present when
    [config.prdSource === "yaml"]. *)
Record Grouping (Store : Type) := mkGrouping {
  getParallelGroups : Store -> list number;
  getTasksByGroup : number -> Store -> list jsstring
}.

Section Scheduler.

Context {Store : Type} {TS : TaskSource Store}.

Variable env : shell.
Variable directory worktreeBase : jsstring.

(** The backing store of the task source, the history, [this.results], and
    the branch list of the tracker. *)
Record State := mkState {
  store : Store;
  history : list event;
  results : list AgentResult;
  completedBranches : list jsstring
}.

(** Events that neither announce a batch nor dispatch a slot. *)
Definition is_quiet (e : event) : bool :=
  match e with
  | Dispatch _ _ | Console (BatchSpawning _ _) => false
  | _ => true
  end.

(** [st'] continues [st] with quiet events and the same results. *)
Definition quiet_step (st st' : State) : Prop :=
  exists evs, history st' = history st ++ evs
              /\ forallb is_quiet evs = true
              /\ results st' = results st.

Definition lift {A} (m : M A) (st : State) : A * State :=
  let '(a, h) := m (history st) in
  (a, mkState (store st) h (results st) (completedBranches st)).

Definition say (m : message) (st : State) : State :=
  snd (lift (emit (Console m)) st).

(** The best-effort copy of the backlog and progress files in [runAgent]:
    one [try] block, so a failed copy skips the [touch]. *)
Definition copyFiles (config : Config) (w : Worktree) : M unit :=
  r <- sh env (Cp (directory ++ js "/" ++ prdFile config) (dir w ++ js "/")) ;;
  match r with
  | Fails => ret tt
  | Ok _ => sh env (Touch (dir w ++ js "/progress.txt")) ;;; ret tt
  end.

(** [if (this.config.createPr && result.success)] in [runAgent] *)
Definition requestPr (config : Config) (t : jsstring) (num : number) (w : Worktree)
    (st : State) : State :=
  if createPr config then
    let '(url, st) :=
      lift (createPullRequest env (Git.branch w) t
              (js "Automated implementation by Ralphy (Agent "
               ++ numberToString num ++ js ")")
              (baseBranch config) (draftPr config)) st in
    match url with
    | Some (c :: u) => say (CreatedPr (c :: u)) st
    | _ => st
    end
  else st.

(** [taskSource.markComplete(task)] and [tracker.addBranch(branch)] *)
Definition recordSuccess (t : jsstring) (w : Worktree) (st : State) : State :=
  mkState (markComplete t (store st)) (history st) (results st)
    (completedBranches st ++ [Git.branch w]).

(** [runAgent]; the agent itself is a stub in the source and always
    succeeds once its worktree exists. *)
Definition runAgent (config : Config) (t : jsstring) (agentNum : nat) (st : State)
  : AgentResult * State :=
  let num := Num (Z.of_nat agentNum) in
  let st := snd (lift (emit (Dispatch t agentNum)) st) in
  let st := say (AgentStarts agentNum t) st in
  let '(wt, st) := lift (createWorktree env t num worktreeBase (baseBranch config)) st in
  match wt with
  | None => (mkAgentResult t false [] (Some (js "Failed to create worktree")), st)
  | Some w =>
      let st := snd (lift (copyFiles config w) st) in
      let st := say (WouldExecute agentNum (dir w)) st in
      let st := requestPr config t num w st in
      let st := recordSuccess t w st in
      let st := snd (lift (cleanupWorktree env (dir w)) st) in
      (mkAgentResult t true (Git.branch w) None, st)
  end.

(** The agents of a batch, in slot order.  [batch.map] starts every agent,
    and so fixes every slot number, before any of them continues; here the
    agents run one after the other, which leaves out the interleaving of
    their shell commands and of their backlog writes under [Promise.all]:
    the order of the dispatches and of the results and the branches recorded
    are those of the code, the backlog after a batch is that of agents that
    do not overwrite each other's [markComplete]. *)
Fixpoint run_agents (config : Config) (agents : list (jsstring * nat)) (st : State)
  : list AgentResult * State :=
  match agents with
  | [] => ([], st)
  | (t, n) :: rest =>
      let '(r, st) := runAgent config t n st in
      let '(rs, st) := run_agents config rest st in
      (r :: rs, st)
  end.

(** The lines under "Batch n Results": the label is the index of the result
    in [this.results], plus one. *)
Fixpoint show_results (label : nat) (rs : list AgentResult) (st : State) : State :=
  match rs with
  | [] => st
  | r :: rest => show_results (S label) rest (say (AgentResultLine label (task r) (success r)) st)
  end.

(** The loop of [runBatches], from index [i]; [None] when the fuel does not
    reach the end of the loop. *)
Fixpoint runBatches_loop (config : Config) (fuel : nat) (tasks : list jsstring)
    (i batchNum : nat) (st : State) : option State :=
  if Nat.ltb i (List.length tasks) then
    match fuel with
    | O => None
    | S fuel' =>
        let batch := slice i (i + maxParallel config) tasks in
        let st := say (BatchSpawning (S batchNum) (List.length batch)) st in
        let '(batchResults, st) :=
          run_agents config (combine batch (seq (i + 1) (List.length batch))) st in
        let before := List.length (results st) in
        let st := mkState (store st) (history st) (results st ++ batchResults)
                    (completedBranches st) in
        let st := show_results (S before) batchResults st in
        if (Nat.ltb 0 (maxIterations config)
            && Nat.leb (maxIterations config) (List.length (results st)))%bool
        then Some (say ReachedMaxIterations st)
        else runBatches_loop config fuel' tasks (i + maxParallel config) (S batchNum) st
    end
  else Some st.

(** [runBatches]: a loop that advances needs at most one round per task. *)
Definition runBatches (config : Config) (tasks : list jsstring) (st : State) : option State :=
  runBatches_loop config (List.length tasks) tasks 0 0 st.

(** [runWithGroups] *)
Fixpoint run_groups (config : Config) (g : Grouping Store) (groups : list number) (st : State)
  : option State :=
  match groups with
  | [] => Some st
  | group :: rest =>
      match getTasksByGroup g group (store st) with
      | [] => run_groups config g rest st
      | tasks =>
          match runBatches config tasks
                  (say (ProcessingGroup group (List.length tasks)) st) with
          | Some st' => run_groups config g rest st'
          | None => None
          end
      end
  end.

Definition runWithGroups (config : Config) (g : Grouping Store) (st : State) : option State :=
  run_groups config g (getParallelGroups g (store st)) st.

(** The first loop of the merge branch of [handleCompletedBranches]: the
    branches whose merge failed. *)
Fixpoint merge_all (config : Config) (branches : list jsstring) : M (list jsstring) :=
  match branches with
  | [] => ret []
  | b :: rest =>
      emit (Console (Merging b)) ;;;
      ok <- mergeBranch env b (baseBranch config) ;;
      (if ok : bool then emit (Console Merged) else emit (Console Conflict)) ;;;
      failed <- merge_all config rest ;;
      ret (if ok then failed else b :: failed)
  end.

(** The loop over [failedMerges]. *)
Fixpoint resolve_all (failedMerges : list jsstring) : M unit :=
  match failedMerges with
  | [] => ret tt
  | _ :: rest =>
      conflicts <- getConflictedFiles env ;;
      match conflicts with
      | [] => ret tt
      | _ :: _ => emit (Console (WouldResolve conflicts))
      end ;;;
      abortMerge env ;;;
      resolve_all rest
  end.

Fixpoint say_all (ms : list message) : M unit :=
  match ms with
  | [] => ret tt
  | m :: rest => emit (Console m) ;;; say_all rest
  end.

Definition successfulBranches (rs : list AgentResult) : list jsstring :=
  List.map branch (filter (fun r => (success r && nonempty (branch r))%bool) rs).

(** [handleCompletedBranches] *)
Definition handleCompletedBranches (config : Config) (rs : list AgentResult) : M unit :=
  match successfulBranches rs with
  | [] => ret tt
  | branches =>
      if createPr config then say_all (List.map BranchCreated branches)
      else
        failedMerges <- merge_all config branches ;;
        match failedMerges with
        | [] => emit (Console AllMerged)
        | _ :: _ =>
            resolve_all failedMerges ;;;
            say_all (List.map Unresolved failedMerges)
        end
  end.

(** [run]: [None] when the batch loop does not end, [Thrown] when creating
    the worktree base directory fails (that command has no handler). *)
Definition run (config : Config) (grouping : option (Grouping Store)) (st : State)
  : option (result State) :=
  match getRemainingTasks (store st) with
  | [] => Some (Returned (say NoTasksToRun st))
  | allTasks =>
      let st := say (FoundTasks (List.length allTasks)) st in
      let st := say (RunningAgents (maxParallel config)) st in
      let '(config, st) :=
        match baseBranch config with
        | [] =>
            let '(b, st) := lift (getCurrentBranch env) st in
            (mkConfig (maxParallel config) (maxIterations config) (createPr config)
               (draftPr config) b (prdFile config), st)
        | _ => (config, st)
        end in
      let '(made, st) := lift (sh env (Mkdir worktreeBase)) st in
      match made with
      | Fails => Some Thrown
      | Ok _ =>
          match match grouping with
                | Some g => runWithGroups config g st
                | None => runBatches config allTasks st
                end with
          | None => None
          | Some st =>
              let cleanup :=
                r <- sh env (RmRf worktreeBase) ;;
                match r with
                | Fails => emit (Console WorktreeBasePreserved)
                | Ok _ => ret tt
                end in
              let st := snd (lift cleanup st) in
              Some (Returned (snd (lift (handleCompletedBranches config (results st)) st)))
          end
      end
  end.

End Scheduler.

Definition yamlGrouping : Grouping Utils.file :=
  mkGrouping Yaml.getParallelGroups Yaml.getTasksByGroup.

(** ** What the log of a run shows *)

(** The slots dispatched, in order: the arguments of the calls of
    [runAgent]. *)
Fixpoint dispatched (h : list event) : list (jsstring * nat) :=
  match h with
  | [] => []
  | Dispatch t n :: h' => (t, n) :: dispatched h'
  | _ :: h' => dispatched h'
  end.

(** The sizes of the batches announced, in order. *)
Fixpoint batch_sizes (h : list event) : list nat :=
  match h with
  | [] => []
  | Console (BatchSpawning _ size) :: h' => size :: batch_sizes h'
  | _ :: h' => batch_sizes h'
  end.

(** The branches handed to [git branch] by [createWorktree], in order. *)
Fixpoint branches_created (h : list event) : list jsstring :=
  match h with
  | [] => []
  | Shell (GitBranchCreate b _) :: h' => b :: branches_created h'
  | _ :: h' => branches_created h'
  end.

(** The batches of a log: each "Batch n" announcement opens one, and the
    slots dispatched after it belong to it.  The first component holds the
    slots dispatched before any announcement. *)
Fixpoint batches_aux (h : list event) : list (jsstring * nat) * list (list (jsstring * nat)) :=
  match h with
  | [] => ([], [])
  | Dispatch t n :: h' => let '(c, bs) := batches_aux h' in ((t, n) :: c, bs)
  | Console (BatchSpawning _ _) :: h' => let '(c, bs) := batches_aux h' in ([], c :: bs)
  | _ :: h' => batches_aux h'
  end.


(** A computation that only adds quiet events to the history. *)
Definition quietly {A} (m : M A) : Prop :=
  forall h, exists evs, snd (m h) = h ++ evs /\ forallb is_quiet evs = true.


(** ** Sample runs *)

(** A shell on which every command succeeds with no output. *)
Definition calm : shell := fun _ _ => Ok [].

(** A shell on which every merge conflicts and every other command succeeds
    with no output. *)
Definition conflicting : shell :=
  fun _ c => match c with GitMerge _ => Fails | _ => Ok [] end.

(** A shell on which every worktree has an uncommitted change and every
    other command succeeds with no output. *)
Definition dirty : shell :=
  fun _ c => match c with GitStatusPorcelain _ => Ok (js " M README.md") | _ => Ok [] end.

Definition sample_config : Config :=
  mkConfig 2 0 false false (js "main") (js "PRD.md").

Definition fresh {Store : Type} (s : Store) : @State Store := mkState s [] [] [].

(** Two slots and a cap of three results. *)
Definition capped_config : Config :=
  mkConfig 2 3 false false (js "main") (js "PRD.md").

(** A structured backlog with one task in group 1 and one in group 2, whose
    titles differ in case only. *)
Definition two_groups : jsstring :=
  js "tasks:" ++ [10%N]
  ++ js "  - title: Fix bug" ++ [10%N]
  ++ js "    parallel_group: 1" ++ [10%N]
  ++ js "  - title: fix bug" ++ [10%N]
  ++ js "    parallel_group: 2" ++ [10%N].

(** The result of the agent of slot [k]: a failure, or a success on the
    branch of that slot. *)
Definition of_slot (k : nat) (r : AgentResult) : Prop :=
  success r = false \/ exists t, branch r = Git.branchName t (Num (Z.of_nat k)).

(** ** Trace properties of the reconciliation step *)

(** A branch whose merge failed is not handed to [mergeBranch] again. *)
Definition never_remerged (tr : list event) : Prop :=
  forall b pre post,
    tr = pre ++ MergeBranchResult b false :: post -> ~ In (MergeBranchCall b) post.

Fixpoint merge_calls (tr : list event) : list jsstring :=
  match tr with
  | [] => []
  | MergeBranchCall b :: tr' => b :: merge_calls tr'
  | _ :: tr' => merge_calls tr'
  end.

Fixpoint merge_failures (tr : list event) : list jsstring :=
  match tr with
  | [] => []
  | MergeBranchResult b false :: tr' => b :: merge_failures tr'
  | _ :: tr' => merge_failures tr'
  end.

(** The branches of the "could not be resolved" report. *)
Fixpoint unresolved (tr : list event) : list jsstring :=
  match tr with
  | [] => []
  | Console (Unresolved b) :: tr' => b :: unresolved tr'
  | _ :: tr' => unresolved tr'
  end.

(** The calls of [getConflictedFiles] and [abortMerge], in order. *)
Fixpoint resolution (tr : list event) : list event :=
  match tr with
  | [] => []
  | ConflictedFilesCall :: tr' => ConflictedFilesCall :: resolution tr'
  | AbortMergeCall :: tr' => AbortMergeCall :: resolution tr'
  | _ :: tr' => resolution tr'
  end.

(** The four projections of a trace. *)
Definition summary (tr : list event)
  : list jsstring * list jsstring * list jsstring * list event :=
  (merge_calls tr, merge_failures tr, unresolved tr, resolution tr).

(** The first failed merge of a trace: the events before it, the branch,
    and the events after it. *)
Fixpoint first_failure (tr : list event)
  : option (list event * jsstring * list event) :=
  match tr with
  | [] => None
  | MergeBranchResult b false :: tr' => Some ([], b, tr')
  | e :: tr' =>
      match first_failure tr' with
      | Some (pre, b, post) => Some (e :: pre, b, post)
      | None => None
      end
  end.

Definition is_merge_call (b : jsstring) (e : event) : bool :=
  match e with MergeBranchCall b' => JS.eqb b b' | _ => false end.

(** ** What the log shows of groups and base branches *)

(** The parallel groups announced on the console, in order. *)
Fixpoint announced (h : list event) : list number :=
  match h with
  | [] => []
  | Console (ProcessingGroup g _) :: h' => g :: announced h'
  | _ :: h' => announced h'
  end.

(** The base branches of the branches created, in order. *)
Fixpoint bases (h : list event) : list jsstring :=
  match h with
  | [] => []
  | Shell (GitBranchCreate _ base) :: h' => base :: bases h'
  | _ :: h' => bases h'
  end.

(** The worktree directories that were preserved, in order. *)
Fixpoint preserved (h : list event) : list jsstring :=
  match h with
  | [] => []
  | Console (PreservingDirtyWorktree d) :: h' => d :: preserved h'
  | _ :: h' => preserved h'
  end.

(** An event that announces no group, creates no branch from a base other
    than [base] and preserves no worktree but those that [under] accepts. *)
Definition plain (base : jsstring) (under : jsstring -> bool) (e : event) : bool :=
  match e with
  | Console (ProcessingGroup _ _) => false
  | Console (PreservingDirtyWorktree d) => under d
  | Shell (GitBranchCreate _ b) => JS.eqb b base
  | _ => true
  end.

(** A computation that only adds plain events to the history. *)
Definition plainly {A} (base : jsstring) (under : jsstring -> bool) (m : M A) : Prop :=
  forall h, exists evs, snd (m h) = h ++ evs /\ forallb (plain base under) evs = true.

(** The directories of the agents below a worktree base. *)
Definition agent_dirs (worktreeBase : jsstring) (d : jsstring) : bool :=
  startsWith (worktreeBase ++ js "/agent-") d.

End Executor.

(* ================================================================== *)
(** * git-manager.ts: a branch per task *)
(* ================================================================== *)

Module TaskBranch.

(** The commands of [createTaskBranch] and [returnToBaseBranch]. *)
Inductive cmd :=
| GitStashPush
| GitCheckout (branch : jsstring)
| GitPullOrigin (branch : jsstring)
| GitCheckoutNew (branch : jsstring)
| GitStashPop.

(** A command issued, or the [console.error] of [createTaskBranch]. *)
Inductive event := Run (c : cmd) | FailedToCreateTaskBranch.

Definition shell := list event -> cmd -> Git.outcome.

Definition M (A : Type) : Type := list event -> A * list event.

Definition ret {A} (a : A) : M A := fun h => (a, h).

Definition bind {A B} (m : M A) (k : A -> M B) : M B :=
  fun h => let '(a, h') := m h in k a h'.

Definition emit (e : event) : M unit := fun h => (tt, h ++ [e]).

Definition run (env : shell) (c : cmd) : M Git.outcome :=
  fun h => (env h c, h ++ [Run c]).

(** The events a computation adds to the history [h]. *)
Definition issued {A} (m : M A) (h : list event) : list event :=
  skipn (List.length h) (snd (m h)).

Declare Scope branch_scope.
Delimit Scope branch_scope with branch.
Notation "x <- m ;; k" := (bind m (fun x => k))
  (at level 61, m at next level, right associativity) : branch_scope.
Notation "m ;;; k" := (bind m (fun _ => k))
  (at level 61, right associativity) : branch_scope.
Local Open Scope branch_scope.

Section Manager.

Variable env : shell.

(** The [catch] of [createTaskBranch]. *)
Definition failed : M jsstring := emit FailedToCreateTaskBranch ;;; ret [].

(** [createTaskBranch]: the branch, or the empty string. *)
Definition createTaskBranch (task baseBranch : jsstring) : M jsstring :=
  let branchName := js "ralphy/" ++ Utils.slugify task in
  r1 <- run env GitStashPush ;;
  match r1 with
  | Git.Fails => failed
  | Git.Ok _ =>
      r2 <- run env (GitCheckout baseBranch) ;;
      match r2 with
      | Git.Fails => failed
      | Git.Ok _ =>
          r3 <- run env (GitPullOrigin baseBranch) ;;
          match r3 with
          | Git.Fails => failed
          | Git.Ok _ =>
              r4 <- run env (GitCheckoutNew branchName) ;;
              on_branch <- match r4 with
                           | Git.Ok _ => ret true
                           | Git.Fails =>
                               r5 <- run env (GitCheckout branchName) ;;
                               ret match r5 with Git.Ok _ => true | Git.Fails => false end
                           end ;;
              if on_branch : bool then run env GitStashPop ;;; ret branchName
              else failed
          end
      end
  end.

(** [returnToBaseBranch] *)
Definition returnToBaseBranch (baseBranch : jsstring) : M unit :=
  match baseBranch with
  | [] => ret tt
  | _ => run env (GitCheckout baseBranch) ;;; ret tt
  end.

End Manager.

End TaskBranch.

(* ================================================================== *)
(** * config.ts *)
(* ================================================================== *)

Module RalphyConfig.

(** The properties of a [RalphyConfig] object. *)
Inductive key :=
| skipTests | skipLint | maxIterations | maxRetries | retryDelay | dryRun
| parallel | maxParallel | branchPerTask | baseBranch | createPr | draftPr
| prdSource | prdFile | githubRepo | githubLabel | verbose.

Inductive source := markdown | yaml | github.

Inductive value :=
| Bool (b : bool)
| Number (n : number)
| Str (s : jsstring)
| Source (s : source).

Definition key_eq_dec (a b : key) : {a = b} + {a <> b}.
Proof. decide equality. Defined.

(** A [Partial<RalphyConfig>]: the properties that are present. *)
Definition Partial := key -> option value.

(** A [RalphyConfig]. *)
Definition Full := key -> value.

Definition empty : Partial := fun _ => None.

(** [config.k = v] *)
Definition set (k : key) (v : value) (config : Partial) : Partial :=
  fun k' => if key_eq_dec k k' then Some v else config k'.

Definition defaultConfig : Full :=
  fun k =>
    match k with
    | skipTests | skipLint | dryRun | parallel | branchPerTask | createPr | draftPr
    | verbose => Bool false
    | maxIterations => Number (Num 0)
    | maxRetries => Number (Num 3)
    | retryDelay => Number (Num 5)
    | maxParallel => Number (Num 3)
    | baseBranch | githubRepo | githubLabel => Str []
    | prdSource => Source markdown
    | prdFile => Str (js "PRD.md")
    end.

(** [Object.assign(config, partial)] *)
Definition assign (config : Full) (partial : Partial) : Full :=
  fun k => match partial k with Some v => v | None => config k end.

(** [s || d] for a string. *)
Definition str_or (s d : jsstring) : jsstring :=
  match s with [] => d | _ => s end.

(** The loop of [parseArgs] from the argument at hand; a flag that takes a
    value reads the next argument with [parts[++i]], which is [undefined]
    after the last one. *)
Fixpoint parse_parts (parts : list jsstring) (config : Partial) : Partial :=
  match parts with
  | [] => config
  | arg :: rest =>
      if (eqb arg (js "--no-tests") || eqb arg (js "--skip-tests"))%bool then
        parse_parts rest (set skipTests (Bool true) config)
      else if (eqb arg (js "--no-lint") || eqb arg (js "--skip-lint"))%bool then
        parse_parts rest (set skipLint (Bool true) config)
      else if eqb arg (js "--fast") then
        parse_parts rest (set skipLint (Bool true) (set skipTests (Bool true) config))
      else if eqb arg (js "--dry-run") then
        parse_parts rest (set dryRun (Bool true) config)
      else if eqb arg (js "--max-iterations") then
        match rest with
        | v :: rest' =>
            parse_parts rest'
              (set maxIterations (Number (or_default (parseInt_auto v) (Num 0))) config)
        | [] => set maxIterations (Number (Num 0)) config
        end
      else if eqb arg (js "--max-retries") then
        match rest with
        | v :: rest' =>
            parse_parts rest'
              (set maxRetries (Number (or_default (parseInt_auto v) (Num 3))) config)
        | [] => set maxRetries (Number (Num 3)) config
        end
      else if eqb arg (js "--retry-delay") then
        match rest with
        | v :: rest' =>
            parse_parts rest'
              (set retryDelay (Number (or_default (parseInt_auto v) (Num 5))) config)
        | [] => set retryDelay (Number (Num 5)) config
        end
      else if eqb arg (js "--parallel") then
        parse_parts rest (set parallel (Bool true) config)
      else if eqb arg (js "--max-parallel") then
        match rest with
        | v :: rest' =>
            parse_parts rest'
              (set maxParallel (Number (or_default (parseInt_auto v) (Num 3))) config)
        | [] => set maxParallel (Number (Num 3)) config
        end
      else if eqb arg (js "--branch-per-task") then
        parse_parts rest (set branchPerTask (Bool true) config)
      else if eqb arg (js "--base-branch") then
        match rest with
        | v :: rest' => parse_parts rest' (set baseBranch (Str (str_or v [])) config)
        | [] => set baseBranch (Str []) config
        end
      else if eqb arg (js "--create-pr") then
        parse_parts rest (set createPr (Bool true) config)
      else if eqb arg (js "--draft-pr") then
        parse_parts rest (set draftPr (Bool true) config)
      else if eqb arg (js "--prd") then
        match rest with
        | v :: rest' =>
            parse_parts rest'
              (set prdFile (Str (str_or v (js "PRD.md")))
                 (set prdSource (Source markdown) config))
        | [] => set prdFile (Str (js "PRD.md")) (set prdSource (Source markdown) config)
        end
      else if eqb arg (js "--yaml") then
        match rest with
        | v :: rest' =>
            parse_parts rest'
              (set prdFile (Str (str_or v (js "tasks.yaml")))
                 (set prdSource (Source yaml) config))
        | [] => set prdFile (Str (js "tasks.yaml")) (set prdSource (Source yaml) config)
        end
      else if eqb arg (js "--github") then
        match rest with
        | v :: rest' =>
            parse_parts rest'
              (set githubRepo (Str (str_or v [])) (set prdSource (Source github) config))
        | [] => set githubRepo (Str []) (set prdSource (Source github) config)
        end
      else if eqb arg (js "--github-label") then
        match rest with
        | v :: rest' => parse_parts rest' (set githubLabel (Str (str_or v [])) config)
        | [] => set githubLabel (Str []) config
        end
      else if (eqb arg (js "-v") || eqb arg (js "--verbose"))%bool then
        parse_parts rest (set verbose (Bool true) config)
      else parse_parts rest config
  end.

(** [parseArgs] *)
Definition parseArgs (args : jsstring) : Partial := parse_parts (words args) empty.

(** The properties that hold a boolean. *)
Definition is_flag (k : key) : bool :=
  match k with
  | skipTests | skipLint | dryRun | parallel | branchPerTask | createPr | draftPr
  | verbose => true
  | _ => false
  end.

(** What [parseArgs] may store under a key: [true] under a flag, a number
    other than zero under the counts with a default other than zero, a
    file name that is not empty. *)
Definition ok_entry (k : key) (v : value) : Prop :=
  match k with
  | skipTests | skipLint | dryRun | parallel | branchPerTask | createPr | draftPr
  | verbose => v = Bool true
  | maxRetries | retryDelay | maxParallel => exists n, v = Number n /\ n <> Num 0
  | maxIterations => exists n, v = Number n
  | prdFile => exists f, v = Str f /\ f <> []
  | baseBranch | githubRepo | githubLabel => exists t, v = Str t
  | prdSource => exists src, v = Source src
  end.

(** A file-backed source comes with its file. *)
Definition sourced (config : Partial) : Prop :=
  config prdSource = Some (Source markdown) \/ config prdSource = Some (Source yaml) ->
  config prdFile <> None.

Definition well_formed (config : Partial) : Prop :=
  (forall k v, config k = Some v -> ok_entry k v) /\ sourced config.

End RalphyConfig.

(* ================================================================== *)
(** * prompt-builder.ts *)
(* ================================================================== *)

Module PromptBuilder.

(** The fields of [RalphyConfig] that [buildPrompt] reads. *)
Record Options := mkOptions {
  prdSource : RalphyConfig.source;
  prdFile : jsstring;
  skipTests : bool;
  skipLint : bool
}.

(** [parts.push(`${step}. ...`); step++] *)
Definition push_step (text : jsstring) (acc : list jsstring * nat) : list jsstring * nat :=
  (fst acc ++ [numberToString (Num (Z.of_nat (snd acc))) ++ js ". " ++ text], S (snd acc)).

Definition push (text : jsstring) (acc : list jsstring * nat) : list jsstring * nat :=
  (fst acc ++ [text], snd acc).

(** The [parts] of [buildPrompt] before they are joined. *)
Definition buildPrompt_parts (task : jsstring) (config : Options) : list jsstring :=
  let acc : list jsstring * nat :=
    (match prdSource config with
     | RalphyConfig.markdown | RalphyConfig.yaml =>
         [js "Read @" ++ prdFile config ++ js " and @progress.txt for context."]
     | RalphyConfig.github =>
         [js "Task from GitHub Issue: " ++ task; js "Read @progress.txt for context."]
     end, 1) in
  let acc := push [] acc in
  let acc := push (js "**Current Task:** " ++ task) acc in
  let acc := push [] acc in
  let acc := push_step (js "Implement this task completely and correctly.") acc in
  let acc :=
    if skipTests config then acc
    else push_step (js "Run tests and ensure they pass before proceeding.")
           (push_step (js "Write tests for the feature.") acc) in
  let acc :=
    if skipLint config then acc
    else push_step (js "Run linting and ensure it passes before proceeding.") acc in
  let acc :=
    match prdSource config with
    | RalphyConfig.markdown =>
        push_step (js "Update " ++ prdFile config
                   ++ js " to mark the task as complete (change '- [ ]' to '- [x]').") acc
    | RalphyConfig.yaml =>
        push_step (js "Update " ++ prdFile config
                   ++ js " to mark the task as completed (set completed: true).") acc
    | RalphyConfig.github =>
        push_step (js "The task will be marked complete automatically. Just note the completion in progress.txt.") acc
    end in
  let acc := push_step (js "Append your progress to progress.txt.") acc in
  let acc := push_step (js "Commit your changes with a descriptive message.") acc in
  let acc := push [] acc in
  let acc := push (js "**Important:**") acc in
  let acc := push (js "- ONLY work on this single task.") acc in
  let acc := if skipTests config then acc
             else push (js "- Do NOT proceed if tests fail.") acc in
  let acc := if skipLint config then acc
             else push (js "- Do NOT proceed if linting fails.") acc in
  let acc := push [] acc in
  let acc :=
    push (js "When finished with this task, continue to the next incomplete task.") acc in
  let acc :=
    push (js "If ALL tasks in the PRD are complete, output: <promise>COMPLETE</promise>")
      acc in
  fst acc.

(** [parts.join(sep)] for a one-unit separator. *)
Fixpoint join (sep : N) (parts : list jsstring) : jsstring :=
  match parts with
  | [] => []
  | [part] => part
  | part :: rest => part ++ sep :: join sep rest
  end.

(** [buildPrompt] *)
Definition buildPrompt (task : jsstring) (config : Options) : jsstring :=
  join 10%N (buildPrompt_parts task config).

(** The number of a line that begins with decimal digits and [". "]. *)
Definition step_label (line : jsstring) : option N :=
  match read_digits line with
  | Decimal.Nil => None
  | d =>
      if startsWith (js ". ") (skipn (List.length (uint_units d)) line)
      then Some (N.of_uint d) else None
  end.

(** The numbers of the numbered lines of a text, in order. *)
Definition step_numbers (text : jsstring) : list N :=
  flat_map (fun line => match step_label line with Some n => [n] | None => [] end)
    (split 10%N text).

End PromptBuilder.

(* ================================================================== *)
(** * Properties *)
(* ================================================================== *)

(** ** Strings *)

Section StringFacts.

Lemma eqb_eq (a b : jsstring) : JS.eqb a b = true <-> a = b.
Proof.
  revert b; induction a as [|x a IH]; intros [|y b]; simpl; split; try easy.
  - rewrite andb_true_iff, N.eqb_eq, IH. now intros [-> ->].
  - intros [= -> ->]. rewrite N.eqb_refl. now apply IH.
Qed.

Lemma eqb_refl (a : jsstring) : JS.eqb a a = true.
Proof. now apply eqb_eq. Qed.

Lemma eqb_neq (a b : jsstring) : JS.eqb a b = false <-> a <> b.
Proof.
  rewrite <- eqb_eq. destruct (JS.eqb a b); split; congruence.
Qed.

Lemma startsWith_app (p s : jsstring) : startsWith p (p ++ s) = true.
Proof. induction p; simpl; auto. now rewrite N.eqb_refl. Qed.

Lemma startsWith_iff (p s : jsstring) :
  startsWith p s = true <-> exists r, s = p ++ r.
Proof.
  revert s; induction p as [|x p IH]; intros s; simpl.
  - split; eauto.
  - destruct s as [|y s]; [split; [easy | now intros [r [=]]]|].
    rewrite andb_true_iff, N.eqb_eq, IH. split.
    + intros [-> [r ->]]. now exists r.
    + intros [r [= -> ->]]. eauto.
Qed.

Lemma trimStart_keeps_visible (s : jsstring) :
  (exists c, In c s /\ is_whitespace c = false) ->
  exists c, In c (trimStart s) /\ is_whitespace c = false.
Proof.
  induction s as [|x s IH]; intros [c [Hin Hc]]; [easy|].
  simpl. destruct (is_whitespace x) eqn:Hx.
  - apply IH. destruct Hin as [->|Hin]; [congruence | eauto].
  - exists c. auto.
Qed.

Lemma trim_visible (s : jsstring) :
  (exists c, In c s /\ is_whitespace c = false) -> trim s <> [].
Proof.
  intros H. apply trimStart_keeps_visible in H.
  unfold trim, trimEnd.
  destruct H as [c [Hin Hc]].
  assert (Hr : exists c, In c (rev (trimStart s)) /\ is_whitespace c = false)
    by (exists c; split; [now rewrite <- in_rev | auto]).
  apply trimStart_keeps_visible in Hr. destruct Hr as [c' [Hin' _]].
  intros E. apply (f_equal (@rev N)) in E. rewrite rev_involutive in E. simpl in E.
  rewrite E in Hin'. easy.
Qed.

End StringFacts.

(** ** utils.ts: the shape of a slug *)

Section Slug.

Import Utils.

Lemma is_slug_unit_spec (c : N) : is_slug_unit c = true -> slug_unit c /\ c <> 45%N.
Proof.
  unfold is_slug_unit, slug_unit.
  rewrite orb_true_iff, !andb_true_iff, !N.leb_le. lia.
Qed.

Lemma collapse_runs_units (b : bool) (s : jsstring) :
  Forall slug_unit (collapse_runs b s).
Proof.
  revert b; induction s as [|c s IH]; intros b; simpl; [constructor|].
  destruct (is_slug_unit c) eqn:Hc.
  - constructor; [now apply is_slug_unit_spec | apply IH].
  - destruct b; [apply IH|]. constructor; [unfold slug_unit; auto | apply IH].
Qed.

Lemma collapse_runs_in_run_head (s : jsstring) :
  hd_error (collapse_runs true s) <> Some 45%N.
Proof.
  induction s as [|c s IH]; simpl; [easy|].
  destruct (is_slug_unit c) eqn:Hc; [|exact IH].
  simpl. intros [= ->]. now apply is_slug_unit_spec in Hc.
Qed.

Lemma strip_leading_head (s : jsstring) :
  hd_error (strip_leading (collapse_runs false s)) <> Some 45%N.
Proof.
  destruct s as [|c s]; simpl; [easy|].
  destruct (is_slug_unit c) eqn:Hc; simpl.
  - destruct (N.eqb_spec c 45) as [->|Hn]; [now apply is_slug_unit_spec in Hc|].
    simpl. congruence.
  - apply collapse_runs_in_run_head.
Qed.

Lemma strip_trailing_head (s : jsstring) :
  hd_error s <> Some 45%N -> hd_error (strip_trailing s) <> Some 45%N.
Proof.
  unfold strip_trailing. intros H.
  destruct (rev s) as [|c r] eqn:E; [easy|].
  destruct (N.eqb c 45); [|exact H].
  apply (f_equal (@rev N)) in E. rewrite rev_involutive in E. simpl in E.
  subst s. destruct (rev r); [easy | exact H].
Qed.

Lemma strip_trailing_units (s : jsstring) :
  Forall slug_unit s -> Forall slug_unit (strip_trailing s).
Proof.
  unfold strip_trailing. intros H.
  destruct (rev s) as [|c r] eqn:E; [constructor|].
  destruct (N.eqb c 45); [|exact H].
  apply (f_equal (@rev N)) in E. rewrite rev_involutive in E. simpl in E.
  subst s. apply Forall_app in H. tauto.
Qed.

Lemma strip_leading_units (s : jsstring) :
  Forall slug_unit s -> Forall slug_unit (strip_leading s).
Proof.
  destruct s as [|c s]; simpl; [auto|]. intros H.
  destruct (N.eqb c 45); [now inversion H | exact H].
Qed.

Lemma Forall_firstn {A} (P : A -> Prop) (n : nat) (l : list A) :
  Forall P l -> Forall P (firstn n l).
Proof.
  revert n; induction l as [|x l IH]; intros [|n] H; simpl; auto.
  inversion H; subst. constructor; auto.
Qed.

Lemma firstn_head {A} (n : nat) (l : list A) (x : A) :
  hd_error l <> Some x -> hd_error (firstn n l) <> Some x.
Proof. destruct n, l; simpl; auto; easy. Qed.

(** Whatever the lower-casing does, a slug has at most 50 units, all of
    them in [a-z0-9-], and does not begin with a hyphen. *)
Lemma slugify_with_shape (lower : jsstring -> jsstring) (text : jsstring) :
  List.length (slugify_with lower text) <= 50
  /\ Forall slug_unit (slugify_with lower text)
  /\ hd_error (slugify_with lower text) <> Some 45%N.
Proof.
  unfold slugify_with. repeat split.
  - apply firstn_le_length.
  - apply Forall_firstn, strip_trailing_units, strip_leading_units, collapse_runs_units.
  - apply firstn_head, strip_trailing_head, strip_leading_head.
Qed.

End Slug.

(** ** git-manager.ts *)

Section GitFacts.

Import Git.

Lemma issued_app {A} (m : M A) (h evs : list event) (a : A) :
  m h = (a, h ++ evs) -> issued m h = evs.
Proof.
  unfold issued. intros ->. simpl.
  rewrite skipn_app, skipn_all, Nat.sub_diag. reflexivity.
Qed.

Lemma createWorktree_branch
    (env : shell) (task : jsstring) (n : number) (worktreeBase baseBranch : jsstring)
    (h h' : list event) (w : Worktree) :
  createWorktree env task n worktreeBase baseBranch h = (Some w, h') ->
  branch w = branchName task n.
Proof.
  unfold createWorktree, bind, sh, emit, ret.
  destruct (env h GitWorktreePrune); [easy|].
  destruct (env _ (GitBranchCreate _ _)); [easy|].
  destruct (env _ (GitWorktreeAdd _ _)); [easy|].
  intros [= <- _]. reflexivity.
Qed.

(** C9: the branch of a created worktree is "ralphy/agent-" + n + "-" +
    slugify(task), and the slug has at most 50 units, all of them lowercase
    ASCII letters, digits or hyphens, and does not begin with a hyphen. *)
Theorem createWorktree_branch_name
    (env : shell) (task : jsstring) (n : number) (worktreeBase baseBranch : jsstring)
    (h h' : list event) (w : Worktree)
    (Hcreated : createWorktree env task n worktreeBase baseBranch h = (Some w, h')) :
  branch w = js "ralphy/agent-" ++ numberToString n ++ js "-" ++ Utils.slugify task
  /\ List.length (Utils.slugify task) <= 50
  /\ Forall Utils.slug_unit (Utils.slugify task)
  /\ hd_error (Utils.slugify task) <> Some 45%N.
Proof.
  split; [|apply slugify_with_shape].
  exact (createWorktree_branch _ _ _ _ _ _ Hcreated).
Qed.

Lemma createWorktree_branch_name_witness :
  exists w h',
    createWorktree (fun _ _ => Ok []) (js "Fix the login bug!") (Num 12)
      (js "/tmp/ralphy-1") (js "main") [] = (Some w, h')
    /\ branch w = js "ralphy/agent-12-fix-the-login-bug".
Proof.
  eexists. eexists. split; [reflexivity|].
  exact (proj1 (createWorktree_branch_name (fun _ _ => Ok []) (js "Fix the login bug!")
                  (Num 12) (js "/tmp/ralphy-1") (js "main") [] eq_refl)).
Defined.

(** C7, as the code has it: [cleanupWorktree] issues no worktree-remove
    command when the status query reports changes (its output has a visible
    character), and a worktree-remove command is issued only for the
    directory asked for, after a status query that succeeded with blank
    output (nothing is left of it after [trim]). *)
Theorem cleanupWorktree_preserves_dirty
    (env : shell) (d : jsstring) (h : list event) (status : jsstring)
    (Hstatus : env h (GitStatusPorcelain d) = Ok status)
    (Hdirty : exists c, In c status /\ is_whitespace c = false) :
  (forall x, ~ In (Shell (GitWorktreeRemove x)) (issued (cleanupWorktree env d) h))
  /\ (forall (env' : shell) (d' x : jsstring) (h0 : list event),
        In (Shell (GitWorktreeRemove x)) (issued (cleanupWorktree env' d') h0) ->
        x = d' /\ exists s, env' h0 (GitStatusPorcelain d') = Ok s /\ trim s = []).
Proof.
  split.
  - intros x. apply trim_visible in Hdirty.
    rewrite (issued_app (cleanupWorktree env d) h [Shell (GitStatusPorcelain d); Console (PreservingDirtyWorktree d)] (a := tt)).
    + simpl. intros [H|[H|[]]]; discriminate.
    + unfold cleanupWorktree, bind, sh, emit, ret. rewrite Hstatus.
      destruct (trim status); [congruence|]. now rewrite <- app_assoc.
  - intros env' d' x h0.
    destruct (env' h0 (GitStatusPorcelain d')) as [|s] eqn:E.
    + rewrite (issued_app (cleanupWorktree env' d') h0 [Shell (GitStatusPorcelain d')] (a := tt)).
      * simpl. intros [H|[]]; discriminate.
      * unfold cleanupWorktree, bind, sh, emit, ret. now rewrite E.
    + destruct (trim s) as [|c r] eqn:T.
      * rewrite (issued_app (cleanupWorktree env' d') h0 [Shell (GitStatusPorcelain d'); Shell (GitWorktreeRemove d')] (a := tt)).
        -- simpl. intros [H|[H|[]]]; [discriminate|]. injection H as ->. eauto.
        -- unfold cleanupWorktree, bind, sh, emit, ret. rewrite E, T.
           now rewrite <- app_assoc.
      * rewrite (issued_app (cleanupWorktree env' d') h0 [Shell (GitStatusPorcelain d');
                            Console (PreservingDirtyWorktree d')] (a := tt)).
        -- simpl. intros [H|[H|[]]]; discriminate.
        -- unfold cleanupWorktree, bind, sh, emit, ret. rewrite E, T.
           now rewrite <- app_assoc.
Qed.

Lemma cleanupWorktree_preserves_dirty_witness :
  (exists c, In c (js " M src/app.ts") /\ is_whitespace c = false)
  /\ forall x,
       ~ In (Shell (GitWorktreeRemove x))
           (issued (cleanupWorktree (fun _ _ => Ok (js " M src/app.ts"))
                      (js "/tmp/ralphy-1/agent-1")) []).
Proof.
  assert (Hdirty : exists c, In c (js " M src/app.ts") /\ is_whitespace c = false)
    by (exists 77%N; split; [simpl; auto | reflexivity]).
  split; [exact Hdirty|].
  exact (proj1 (cleanupWorktree_preserves_dirty (fun _ _ => Ok (js " M src/app.ts"))
                  (js "/tmp/ralphy-1/agent-1") [] (status := js " M src/app.ts")
                  eq_refl Hdirty)).
Defined.

(** A status output can be non-empty and the worktree removed all the same:
    the code tests [status.trim()], so on an output of a space and a line
    feed [cleanupWorktree] issues the worktree-remove command and reports
    nothing as preserved. *)
Lemma blank_status_is_removed :
  let status := [32%N; 10%N] in
  let tr := issued (cleanupWorktree (fun _ _ => Ok status) (js "/tmp/ralphy-1/agent-1")) [] in
  status <> []
  /\ In (Shell (GitWorktreeRemove (js "/tmp/ralphy-1/agent-1"))) tr
  /\ ~ In (Console (PreservingDirtyWorktree (js "/tmp/ralphy-1/agent-1"))) tr.
Proof.
  cbv zeta. split; [discriminate|]. split.
  - vm_compute. auto.
  - vm_compute. intros [H|[H|[]]]; discriminate.
Qed.

End GitFacts.

(** ** task-sources/yaml.ts: parallel groups *)

Section Groups.

Import Yaml.

Lemma number_eqb_eq (a b : number) : number_eqb a b = true <-> a = b.
Proof.
  destruct a, b; simpl; try (split; [discriminate | congruence]); try tauto.
  rewrite Z.eqb_eq. split; congruence.
Qed.

Lemma number_lt_irrefl (a : number) : ~ number_lt a a.
Proof. destruct a; unfold number_lt; simpl; try discriminate. rewrite Z.ltb_irrefl. discriminate. Qed.

Lemma number_lt_trans (a b c : number) : number_lt a b -> number_lt b c -> number_lt a c.
Proof.
  unfold number_lt. destruct a, b, c; simpl; try congruence.
  rewrite !Z.ltb_lt. lia.
Qed.

Lemma compare_sub_gt (x y : number) : compare_sub x y = Gt -> number_lt y x.
Proof.
  unfold number_lt. destruct x, y; simpl; try congruence.
  rewrite Z.compare_gt_iff, Z.ltb_lt. lia.
Qed.

Lemma compare_sub_not_gt (x y : number) :
  compare_sub x y <> Gt -> x <> y -> number_lt x y.
Proof.
  unfold number_lt. destruct x, y; simpl; try congruence.
  intros H Hn. rewrite Z.ltb_lt. destruct (Z.compare_spec z z0); try congruence; lia.
Qed.

Lemma insert_sorted_In (x z : number) (l : list number) :
  In z (insert_sorted x l) <-> z = x \/ In z l.
Proof.
  induction l as [|y l IH]; simpl; [intuition|].
  destruct (compare_sub x y); simpl; rewrite ?IH; intuition.
Qed.

Lemma insert_sorted_sorted (x : number) (l : list number) :
  StronglySorted number_lt l -> ~ In x l -> StronglySorted number_lt (insert_sorted x l).
Proof.
  induction l as [|y l IH]; simpl; intros Hs Hn.
  - constructor; constructor.
  - inversion Hs as [|? ? Hs' Hall]; subst.
    assert (Hxy : x <> y) by intuition.
    assert (Hlow : compare_sub x y <> Gt ->
                   StronglySorted number_lt (x :: y :: l)).
    { intros Hc. pose proof (compare_sub_not_gt Hc Hxy) as Hlt.
      constructor; [exact Hs|]. constructor; [exact Hlt|].
      eapply Forall_impl; [|exact Hall]. intros z. now apply number_lt_trans. }
    destruct (compare_sub x y) eqn:Hc; try (apply Hlow; congruence).
    constructor; [apply IH; intuition|].
    apply Forall_forall. intros z Hz. apply insert_sorted_In in Hz.
    destruct Hz as [->|Hz]; [now apply compare_sub_gt|].
    rewrite Forall_forall in Hall. auto.
Qed.

Lemma sort_numbers_In (z : number) (l : list number) :
  In z (sort_numbers l) <-> In z l.
Proof.
  induction l as [|x l IH]; simpl; [tauto|].
  rewrite insert_sorted_In, IH. intuition.
Qed.

Lemma sort_numbers_sorted (l : list number) :
  NoDup l -> StronglySorted number_lt (sort_numbers l).
Proof.
  induction 1 as [|x l Hn Hd IH]; simpl; [constructor|].
  apply insert_sorted_sorted; [exact IH|]. now rewrite sort_numbers_In.
Qed.

Lemma strictly_sorted_NoDup (l : list number) :
  StronglySorted number_lt l -> NoDup l.
Proof.
  induction 1 as [|x l Hs IH Hall]; constructor; [|exact IH].
  intros Hin. rewrite Forall_forall in Hall. exact (number_lt_irrefl (Hall _ Hin)).
Qed.

Lemma set_add_In (g z : number) (s : list number) :
  In z (set_add g s) <-> z = g \/ In z s.
Proof.
  unfold set_add. destruct (existsb (number_eqb g) s) eqn:E.
  - apply existsb_exists in E. destruct E as [y [Hy Hg]].
    apply number_eqb_eq in Hg. subst y. intuition (subst; auto).
  - rewrite in_app_iff. simpl. intuition.
Qed.

Lemma set_add_NoDup (g : number) (s : list number) : NoDup s -> NoDup (set_add g s).
Proof.
  unfold set_add. intros H. destruct (existsb (number_eqb g) s) eqn:E; [exact H|].
  apply NoDup_app; [exact H | repeat constructor; easy |].
  intros z Hz [->|[]].
  assert (existsb (number_eqb z) s = true); [|congruence].
  apply existsb_exists. exists z. split; [exact Hz | now apply number_eqb_eq].
Qed.

Lemma collect_groups (data : list YamlTask) (acc : list number) :
  NoDup acc ->
  NoDup (fold_left collect data acc)
  /\ forall g, In g (fold_left collect data acc) <->
               In g acc \/ exists t, In t data /\ completed t = false /\ group_of t = g.
Proof.
  revert acc; induction data as [|t data IH]; intros acc Hd; simpl.
  - split; [exact Hd|]. intros g. split; [auto | intros [H|[t [[] _]]]; exact H].
  - assert (Hd' : NoDup (collect acc t))
      by (unfold collect; destruct (completed t); [exact Hd | now apply set_add_NoDup]).
    destruct (IH _ Hd') as [Hn Hin]. split; [exact Hn|].
    intros g. rewrite Hin. unfold collect.
    destruct (completed t) eqn:Hc.
    + split.
      * intros [H|[u [Hu Hg]]]; [auto | right; exists u; tauto].
      * intros [H|[u [[<-|Hu] [Hcu Hg]]]]; [auto | congruence | right; eauto].
    + rewrite set_add_In. split.
      * intros [[->|H]|[u [Hu Hg]]]; [right; exists t; auto | auto | right; exists u; tauto].
      * intros [H|[u [[<-|Hu] [Hcu Hg]]]]; [auto | auto | right; eauto].
Qed.

(** C6: [getParallelGroups] returns the group ids in strictly ascending
    order, without duplicates, and a group id is returned exactly when some
    incomplete task has it (a task without [parallel_group] has group 0); a
    group whose tasks are all completed is not returned. *)
Theorem getParallelGroups_ascending (f : Utils.file) :
  StronglySorted number_lt (getParallelGroups f)
  /\ NoDup (getParallelGroups f)
  /\ forall g, In g (getParallelGroups f) <->
               exists t, In t (parseFile f) /\ completed t = false /\ group_of t = g.
Proof.
  unfold getParallelGroups.
  destruct (collect_groups (parseFile f) (NoDup_nil _)) as [Hn Hin].
  assert (Hs := sort_numbers_sorted Hn).
  split; [exact Hs|]. split; [now apply strictly_sorted_NoDup|].
  intros g. rewrite sort_numbers_In, Hin. simpl. tauto.
Qed.

End Groups.

(** ** parallel-executor.ts: batches *)

Section ListFacts.

Lemma seq_sorted (a n : nat) : StronglySorted lt (seq a n).
Proof.
  revert a; induction n as [|n IH]; intros a; simpl; constructor; [apply IH|].
  apply Forall_forall. intros k Hk. apply in_seq in Hk. lia.
Qed.

Lemma sorted_app (l1 l2 : list nat) :
  StronglySorted lt l1 -> StronglySorted lt l2 ->
  (forall x y, In x l1 -> In y l2 -> x < y) -> StronglySorted lt (l1 ++ l2).
Proof.
  intros H1 H2 H. induction H1 as [|a l Hl IH Ha]; simpl; [exact H2|].
  constructor.
  - apply IH. intros x y Hx. apply H. now right.
  - apply Forall_app. split; [exact Ha|].
    apply Forall_forall. intros y Hy. apply H; [now left | exact Hy].
Qed.


Lemma map_snd_combine {A B} (l : list A) (l' : list B) :
  List.length l = List.length l' -> List.map snd (combine l l') = l'.
Proof.
  revert l'; induction l as [|x l IH]; intros [|y l'] H; simpl in *; try easy.
  f_equal. apply IH. lia.
Qed.


End ListFacts.

Section Rounds.

Import Executor.

Variable n : nat.
Variable tasks : list jsstring.
Hypothesis n_pos : 1 <= n.

Let M := List.length tasks.





End Rounds.

Section QuietSteps.

Import Git Executor.

Lemma quietly_ret {A} (a : A) : quietly (ret a).
Proof. intros h. exists []. now rewrite app_nil_r. Qed.

Lemma quietly_emit (e : event) : is_quiet e = true -> quietly (emit e).
Proof. intros He h. exists [e]. simpl. now rewrite He. Qed.

Lemma quietly_sh (env : shell) (c : cmd) : quietly (sh env c).
Proof. intros h. exists [Shell c]. auto. Qed.

Lemma quietly_bind {A B} (m : M A) (k : A -> M B) :
  quietly m -> (forall a, quietly (k a)) -> quietly (bind m k).
Proof.
  intros Hm Hk h. unfold bind. destruct (Hm h) as [e1 [E1 Q1]].
  destruct (m h) as [a h1]. simpl in E1. subst h1.
  destruct (Hk a (h ++ e1)) as [e2 [E2 Q2]].
  exists (e1 ++ e2). rewrite E2, app_assoc, forallb_app, Q1, Q2. auto.
Qed.

Ltac quiet :=
  repeat first
    [ apply quietly_ret
    | apply quietly_sh
    | apply quietly_emit; reflexivity
    | apply quietly_bind; [|intros ?]
    | match goal with
      | |- quietly (match ?x with _ => _ end) => destruct x
      | |- quietly (if ?x then _ else _) => destruct x
      end ].

Lemma createWorktree_quiet env t num base b : quietly (createWorktree env t num base b).
Proof. unfold createWorktree. quiet. Qed.

Lemma cleanupWorktree_quiet env d : quietly (cleanupWorktree env d).
Proof. unfold cleanupWorktree. quiet. Qed.

Lemma createPullRequest_quiet env b t body base draft :
  quietly (createPullRequest env b t body base draft).
Proof. unfold createPullRequest. quiet. Qed.

Lemma batches_aux_quiet (evs tail : list event) :
  forallb is_quiet evs = true -> batches_aux (evs ++ tail) = batches_aux tail.
Proof.
  induction evs as [|e evs IH]; simpl; [auto|].
  rewrite andb_true_iff. intros [He Hq]. specialize (IH Hq).
  destruct e as [| | | | | |m]; simpl in *; try discriminate; auto.
  destruct m; simpl in *; try discriminate; auto.
Qed.

Lemma dispatched_app (e1 e2 : list event) :
  dispatched (e1 ++ e2) = dispatched e1 ++ dispatched e2.
Proof.
  induction e1 as [|e e1 IH]; simpl; [auto|]. destruct e; simpl; now rewrite ?IH.
Qed.

Lemma dispatched_quiet (evs : list event) :
  forallb is_quiet evs = true -> dispatched evs = [].
Proof.
  induction evs as [|e evs IH]; simpl; [auto|].
  rewrite andb_true_iff. intros [He Hq]. destruct e; simpl in *; try discriminate; auto.
Qed.

Context {Store : Type} {TS : TaskSource Store}.
Variable env : shell.
Variable directory worktreeBase : jsstring.

Local Abbreviation State := (@Executor.State Store).

Lemma quiet_step_refl (st : State) : quiet_step st st.
Proof. exists []. now rewrite app_nil_r. Qed.

Lemma quiet_step_trans (a b c : State) :
  quiet_step a b -> quiet_step b c -> quiet_step a c.
Proof.
  intros [e1 [H1 [Q1 R1]]] [e2 [H2 [Q2 R2]]]. exists (e1 ++ e2).
  rewrite H2, H1, app_assoc, forallb_app, Q1, Q2. split; [auto|]. split; [auto | congruence].
Qed.

Lemma lift_quiet_step {A} (m : M A) (st : State) :
  quietly m -> quiet_step st (snd (lift m st)).
Proof.
  intros Hm. unfold lift. destruct (Hm (history st)) as [evs [E Q]].
  destruct (m (history st)) as [a h]. simpl in *. exists evs. auto.
Qed.

Lemma say_quiet_step (m : message) (st : State) :
  is_quiet (Console m) = true -> quiet_step st (say m st).
Proof. intros H. apply lift_quiet_step, quietly_emit, H. Qed.

Lemma show_results_quiet_step (rs : list AgentResult) (label : nat) (st : State) :
  quiet_step st (show_results label rs st).
Proof.
  revert label st; induction rs as [|r rs IH]; intros label st; simpl.
  - apply quiet_step_refl.
  - eapply quiet_step_trans; [|apply IH]. now apply say_quiet_step.
Qed.

Lemma requestPr_quiet_step config t num w (st : State) :
  quiet_step st (requestPr env config t num w st).
Proof.
  unfold requestPr. destruct (createPr config); [|apply quiet_step_refl].
  match goal with |- context [lift ?m st] =>
    pose proof (lift_quiet_step st (m := m) ltac:(apply createPullRequest_quiet)) as H
  end.
  destruct (lift _ st) as [[[|c u]|] st']; simpl in H; auto.
  eapply quiet_step_trans; [exact H|]. now apply say_quiet_step.
Qed.

Lemma recordSuccess_quiet_step t w (st : State) : quiet_step st (recordSuccess t w st).
Proof. exists []. simpl. now rewrite app_nil_r. Qed.

Lemma copyFiles_quiet config w : quietly (copyFiles env directory config w).
Proof. unfold copyFiles. quiet. Qed.

Lemma runAgent_step (config : Config) (t : jsstring) (k : nat) (st : State) :
  exists evs,
    history (snd (runAgent env directory worktreeBase config t k st))
    = history st ++ Dispatch t k :: evs
    /\ forallb is_quiet evs = true
    /\ results (snd (runAgent env directory worktreeBase config t k st)) = results st.
Proof.
  set (st1 := snd (lift (emit (Dispatch t k)) st)).
  assert (H1 : history st1 = history st ++ [Dispatch t k] /\ results st1 = results st)
    by (split; reflexivity).
  assert (Hq : quiet_step st1 (snd (runAgent env directory worktreeBase config t k st))).
  { unfold runAgent. fold st1.
    set (st2 := say (AgentStarts k t) st1).
    assert (H2 : quiet_step st1 st2) by now apply say_quiet_step.
    pose proof (lift_quiet_step st2
                  (createWorktree_quiet env t (Num (Z.of_nat k)) worktreeBase
                     (baseBranch config))) as H3.
    destruct (lift (createWorktree env t (Num (Z.of_nat k)) worktreeBase (baseBranch config)) st2)
      as [wt st3]. simpl in H3.
    assert (H13 : quiet_step st1 st3) by (eapply quiet_step_trans; eauto).
    destruct wt as [w|]; [|exact H13]. simpl.
    eapply quiet_step_trans; [|apply lift_quiet_step, cleanupWorktree_quiet].
    eapply quiet_step_trans; [|apply recordSuccess_quiet_step].
    eapply quiet_step_trans; [|apply requestPr_quiet_step].
    eapply quiet_step_trans; [|now apply say_quiet_step].
    eapply quiet_step_trans; [exact H13|].
    apply lift_quiet_step, copyFiles_quiet. }
  destruct H1 as [Hh Hr]. destruct Hq as [evs [E [Q R]]].
  exists evs. rewrite E, Hh, <- app_assoc. simpl. split; [auto|]. split; [auto | congruence].
Qed.

Lemma run_agents_step (config : Config) (agents : list (jsstring * nat)) (st : State) :
  exists evs,
    history (snd (run_agents env directory worktreeBase config agents st)) = history st ++ evs
    /\ results (snd (run_agents env directory worktreeBase config agents st)) = results st
    /\ List.length (fst (run_agents env directory worktreeBase config agents st))
       = List.length agents
    /\ forall tail,
         batches_aux (evs ++ tail)
         = (agents ++ fst (batches_aux tail), snd (batches_aux tail))
         /\ dispatched (evs ++ tail) = agents ++ dispatched tail.
Proof.
  revert st; induction agents as [|[t k] agents IH]; intros st; simpl.
  - exists []. rewrite app_nil_r. do 3 (split; [reflexivity|]).
    intros tail. simpl. split; [now destruct (batches_aux tail) | reflexivity].
  - destruct (runAgent_step config t k st) as [e1 [E1 [Q1 R1]]].
    destruct (runAgent env directory worktreeBase config t k st) as [r st1]. simpl in *.
    destruct (IH st1) as [e2 [E2 [R2 [L2 B2]]]].
    destruct (run_agents env directory worktreeBase config agents st1) as [rs st2]. simpl in *.
    exists (Dispatch t k :: e1 ++ e2).
    rewrite E2, E1, <- app_assoc. simpl.
    split; [reflexivity|]. split; [congruence|]. split; [congruence|].
    intros tail. simpl. split.
    + rewrite <- app_assoc, batches_aux_quiet by exact Q1.
      destruct (B2 tail) as [-> _]. reflexivity.
    + rewrite <- app_assoc, dispatched_app, dispatched_quiet by exact Q1.
      destruct (B2 tail) as [_ ->]. reflexivity.
Qed.



End QuietSteps.

Section SampleRuns.

Import Git Executor.


(** The example of the specification: [maxParallel = 2] and five tasks give
    batches of sizes 2, 2 and 1. *)
Example five_tasks_two_slots :
  exists st,
    run (TS := Markdown.source) calm (js "/repo") (js "/tmp/ralphy-1") sample_config None
      (fresh (Some (js "- [ ] a" ++ [10%N] ++ js "- [ ] b" ++ [10%N] ++ js "- [ ] c"
                    ++ [10%N] ++ js "- [ ] d" ++ [10%N] ++ js "- [ ] e")))
    = Some (Returned st)
    /\ batch_sizes (history st) = [2; 2; 1].
Proof. eexists. split; vm_compute; reflexivity. Qed.

(** C2, on the code: a grouped run starts its slot numbers again at 1 in
    every group.  On the backlog [two_groups] both tasks are dispatched with
    slot number 1 and [createWorktree] is asked twice for the branch
    ["ralphy/agent-1-fix-bug"]. *)
Theorem grouped_run_reuses_slot_numbers :
  exists st,
    run (TS := Yaml.source) calm (js "/repo") (js "/tmp/ralphy-1") sample_config
      (Some yamlGrouping) (fresh (Some two_groups)) = Some (Returned st)
    /\ dispatched (history st) = [(js "Fix bug", 1); (js "fix bug", 1)]
    /\ branches_created (history st)
       = [js "ralphy/agent-1-fix-bug"; js "ralphy/agent-1-fix-bug"]
    /\ ~ NoDup (branches_created (history st)).
Proof.
  eexists. split; [vm_compute; reflexivity|].
  split; [vm_compute; reflexivity|]. split; [vm_compute; reflexivity|].
  vm_compute. intros H. inversion H as [|? ? Hn _]; subst. apply Hn. left. reflexivity.
Qed.

End SampleRuns.

(** ** task-sources: failures of the backing store *)

Section StoreFailures.

(** An unreadable checklist is an empty backlog. *)
Lemma markdown_unreadable :
  Markdown.getRemainingTasks None = [] /\ Markdown.getAllTasks None = []
  /\ Markdown.countRemaining None = 0 /\ Markdown.countCompleted None = 0.
Proof. repeat split. Qed.

(** An unreadable structured document is an empty backlog. *)
Lemma yaml_unreadable :
  Yaml.getRemainingTasks None = [] /\ Yaml.getAllTasks None = []
  /\ Yaml.countRemaining None = 0 /\ Yaml.countCompleted None = 0.
Proof. repeat split. Qed.

(** A [gh] command that was started and wrote nothing, or wrote something
    that does not decode, is an empty backlog. *)
Lemma github_failed_command gh issue_titles issue_count repo label :
  (forall args, exists out,
      gh args = Github.Exited out
      /\ (trim out = [] \/ (snd (issue_titles (trim out)) = false
                           /\ fst (issue_titles (trim out)) = []
                           /\ issue_count (trim out) = None))) ->
  Github.getRemainingTasks gh issue_titles repo label = Returned []
  /\ Github.getAllTasks gh issue_titles repo label = Returned []
  /\ Github.countRemaining gh issue_titles repo label = Returned 0
  /\ Github.countCompleted gh issue_count repo label = Returned (Some 0).
Proof.
  intros H.
  assert (R : Github.getRemainingTasks gh issue_titles repo label = Returned []).
  { unfold Github.getRemainingTasks, Github.runGhCommand.
    destruct (H (Github.list_args repo label "open" "number,title")) as [out [-> Hout]].
    destruct Hout as [->|[Hs _]]; [reflexivity|].
    destruct (trim out); [reflexivity|].
    destruct (issue_titles _) as [ts []]; simpl in Hs; [discriminate | reflexivity]. }
  assert (L : forall state done,
             Github.listed gh issue_titles repo label state done = Returned []).
  { intros state done. unfold Github.listed, Github.runGhCommand.
    destruct (H (Github.list_args repo label state "number,title")) as [out [-> Hout]].
    destruct Hout as [->|[_ [Hf _]]]; [reflexivity|].
    destruct (trim out); [reflexivity|]. now rewrite Hf. }
  split; [exact R|]. split; [|split].
  - unfold Github.getAllTasks. now rewrite !L.
  - unfold Github.countRemaining. now rewrite R.
  - unfold Github.countCompleted, Github.runGhCommand.
    destruct (H (Github.list_args repo label "closed" "number")) as [out [-> Hout]].
    destruct Hout as [->|[_ [_ Hc]]]; [reflexivity|].
    destruct (trim out); [reflexivity|]. now rewrite Hc.
Qed.

(** C8, on the code: when the [gh] client cannot be started, [Bun.spawn]
    throws inside [runGhCommand], which has no handler, and the error leaves
    [getRemainingTasks], [getAllTasks], [countRemaining] and
    [countCompleted] of the remote-issue source. *)
Theorem github_spawn_failure_propagates issue_titles issue_count repo label :
  let gh := fun _ : list jsstring => Github.SpawnFails in
  Github.getRemainingTasks gh issue_titles repo label = Thrown
  /\ Github.getAllTasks gh issue_titles repo label = Thrown
  /\ Github.countRemaining gh issue_titles repo label = Thrown
  /\ Github.countCompleted gh issue_count repo label = Thrown.
Proof. repeat split. Qed.

End StoreFailures.


(** ** parallel-executor.ts: reconciliation *)

Section Reconciliation.

Import Git Executor.

Lemma summary_app (e1 e2 : list event) :
  summary (e1 ++ e2)
  = (merge_calls e1 ++ merge_calls e2, merge_failures e1 ++ merge_failures e2,
     unresolved e1 ++ unresolved e2, resolution e1 ++ resolution e2).
Proof.
  unfold summary. induction e1 as [|e e1 IH]; simpl; [reflexivity|].
  injection IH as I1 I2 I3 I4.
  destruct e as [| | |b [|]| | |[]]; simpl; congruence.
Qed.

Lemma merge_calls_app (e1 e2 : list event) :
  merge_calls (e1 ++ e2) = merge_calls e1 ++ merge_calls e2.
Proof. exact (f_equal (fun x => fst (fst (fst x))) (summary_app e1 e2)). Qed.

Lemma merge_failures_app (e1 e2 : list event) :
  merge_failures (e1 ++ e2) = merge_failures e1 ++ merge_failures e2.
Proof. exact (f_equal (fun x => snd (fst (fst x))) (summary_app e1 e2)). Qed.

Lemma unresolved_app (e1 e2 : list event) :
  unresolved (e1 ++ e2) = unresolved e1 ++ unresolved e2.
Proof. exact (f_equal (fun x => snd (fst x)) (summary_app e1 e2)). Qed.

Lemma resolution_app (e1 e2 : list event) :
  resolution (e1 ++ e2) = resolution e1 ++ resolution e2.
Proof. exact (f_equal snd (summary_app e1 e2)). Qed.

Lemma merge_calls_In (b : jsstring) (tr : list event) :
  In (MergeBranchCall b) tr <-> In b (merge_calls tr).
Proof.
  induction tr as [|e tr IH]; simpl; [tauto|].
  destruct e; simpl; rewrite <- ?IH; intuition (try discriminate; try congruence).
Qed.

Lemma merge_failures_In (b : jsstring) (tr : list event) :
  In (MergeBranchResult b false) tr <-> In b (merge_failures tr).
Proof.
  induction tr as [|e tr IH]; simpl; [tauto|].
  destruct e as [| | |b' [|]| | |]; simpl; rewrite <- ?IH;
    intuition (try discriminate; try congruence).
Qed.

Lemma never_remerged_app (e1 e2 : list event) :
  never_remerged e1 -> never_remerged e2 ->
  (forall b, In b (merge_failures e1) -> ~ In b (merge_calls e2)) ->
  never_remerged (e1 ++ e2).
Proof.
  intros H1 H2 Hx b pre post E.
  apply app_eq_app in E. destruct E as [l [[E1 E2]|[E1 E2]]].
  - destruct l as [|x l].
    + rewrite app_nil_r in E1. simpl in E2. subst. now apply (H2 b []).
    + injection E2 as Ex Ep. subst x post e1. rewrite in_app_iff. intros [Hin|Hin].
      * exact (H1 b pre l eq_refl Hin).
      * apply (Hx b); [|now apply merge_calls_In].
        apply merge_failures_In. rewrite in_app_iff. right. left. reflexivity.
  - subst pre. now apply (H2 b l post).
Qed.

Lemma never_remerged_no_calls (tr : list event) : merge_calls tr = [] -> never_remerged tr.
Proof.
  intros H b pre post -> Hin.
  assert (Hc : In (MergeBranchCall b) (pre ++ MergeBranchResult b false :: post))
    by (rewrite in_app_iff; right; right; exact Hin).
  apply merge_calls_In in Hc. now rewrite H in Hc.
Qed.

Lemma never_remerged_no_failures (tr : list event) :
  merge_failures tr = [] -> never_remerged tr.
Proof.
  intros H b pre post -> _.
  assert (Hc : In (MergeBranchResult b false) (pre ++ MergeBranchResult b false :: post))
    by (rewrite in_app_iff; right; left; reflexivity).
  apply merge_failures_In in Hc. now rewrite H in Hc.
Qed.

Variable env : shell.

Ltac run_m :=
  unfold bind, sh, emit, ret; simpl;
  repeat match goal with |- context [env ?h ?c] => destruct (env h c) end;
  repeat eexists; rewrite <- ?app_assoc; simpl; reflexivity.

Lemma mergeBranch_trace (b base : jsstring) (h : list event) :
  exists ok evs,
    mergeBranch env b base h = (ok, h ++ MergeBranchCall b :: evs)
    /\ summary evs = ([], if ok then [] else [b], [], []).
Proof. unfold mergeBranch. run_m. Qed.

Lemma getConflictedFiles_trace (h : list event) :
  exists evs,
    snd (getConflictedFiles env h) = h ++ evs
    /\ summary evs = ([], [], [], [ConflictedFilesCall]).
Proof. unfold getConflictedFiles. run_m. Qed.

Lemma abortMerge_trace (h : list event) :
  exists evs,
    snd (abortMerge env h) = h ++ evs /\ summary evs = ([], [], [], [AbortMergeCall]).
Proof. unfold abortMerge. run_m. Qed.

Lemma say_all_trace (ms : list message) (h : list event) :
  say_all ms h = (tt, h ++ List.map Console ms).
Proof.
  revert h; induction ms as [|m ms IH]; intros h; simpl.
  - unfold ret. now rewrite app_nil_r.
  - unfold bind, emit. rewrite IH, <- app_assoc. reflexivity.
Qed.

Lemma unresolved_report (bs : list jsstring) :
  let evs := List.map Console (List.map Unresolved bs) in
  merge_calls evs = [] /\ merge_failures evs = [] /\ unresolved evs = bs
  /\ resolution evs = [].
Proof.
  induction bs as [|b bs [C [F [U R]]]]; simpl; [auto|].
  simpl in U. rewrite U. auto.
Qed.

Lemma created_report (bs : list jsstring) :
  let evs := List.map Console (List.map BranchCreated bs) in
  merge_calls evs = [] /\ merge_failures evs = [] /\ unresolved evs = []
  /\ resolution evs = [].
Proof. induction bs as [|b bs IH]; simpl; auto. Qed.

Lemma merge_all_trace (config : Config) (bs : list jsstring) (h : list event) :
  exists failed evs,
    merge_all env config bs h = (failed, h ++ evs)
    /\ summary evs = (bs, failed, [], [])
    /\ incl failed bs
    /\ (NoDup bs -> never_remerged evs).
Proof.
  revert h; induction bs as [|b bs IH]; intros h; simpl.
  - exists [], []. unfold ret. simpl. rewrite app_nil_r.
    split; [reflexivity|]. split; [reflexivity|]. split; [easy|].
    intros _. now apply never_remerged_no_calls.
  - unfold bind, emit.
    destruct (mergeBranch_trace b (baseBranch config) (h ++ [Console (Merging b)]))
      as [ok [e1 [E1 S1]]].
    rewrite E1.
    set (e2 := if ok then Console Merged else Console Conflict).
    assert (E2 : forall k,
               (if ok then (fun k => (tt, k ++ [Console Merged]))
                else (fun k => (tt, k ++ [Console Conflict]))) k = (tt, k ++ [e2]))
      by (intros k; unfold e2; now destruct ok).
    rewrite E2. clear E2.
    destruct (IH (((h ++ [Console (Merging b)]) ++ MergeBranchCall b :: e1) ++ [e2]))
      as [failed [e3 [E3 [S3 [I3 N3]]]]].
    rewrite E3. unfold ret.
    exists (if ok then failed else b :: failed),
           (Console (Merging b) :: MergeBranchCall b :: e1 ++ e2 :: e3).
    split; [rewrite <- !app_assoc; simpl; rewrite <- ?app_assoc; reflexivity|].
    unfold summary in S1, S3.
    injection S1 as C1 F1 U1 R1. injection S3 as C3 F3 U3 R3.
    assert (S2 : merge_calls [e2] = [] /\ merge_failures [e2] = []
                 /\ unresolved [e2] = [] /\ resolution [e2] = [])
      by (unfold e2; now destruct ok).
    destruct S2 as [C2 [F2 [U2 R2]]].
    assert (C12 : merge_calls (e1 ++ [e2]) = [])
      by now rewrite merge_calls_app, C1, C2.
    assert (F12 : merge_failures (e1 ++ [e2]) = if ok then [] else [b])
      by now rewrite merge_failures_app, F1, F2, app_nil_r.
    replace (e1 ++ e2 :: e3) with ((e1 ++ [e2]) ++ e3) by now rewrite <- app_assoc.
    assert (Ct : merge_calls ((e1 ++ [e2]) ++ e3) = bs)
      by now rewrite merge_calls_app, C12, C3.
    assert (Ft : merge_failures ((e1 ++ [e2]) ++ e3) = (if ok then [] else [b]) ++ failed)
      by now rewrite merge_failures_app, F12, F3.
    assert (Ut : unresolved ((e1 ++ [e2]) ++ e3) = [])
      by now rewrite !unresolved_app, U1, U2, U3.
    assert (Rt : resolution ((e1 ++ [e2]) ++ e3) = [])
      by now rewrite !resolution_app, R1, R2, R3.
    split; [|split].
    + unfold summary. simpl. rewrite Ct, Ft, Ut, Rt. now destruct ok.
    + destruct ok; [now apply incl_tl | now apply incl_cons; [left | apply incl_tl]].
    + intros Hd. inversion Hd as [|? ? Hnin Hd']; subst.
      change (Console (Merging b) :: MergeBranchCall b :: (e1 ++ [e2]) ++ e3)
        with ([Console (Merging b); MergeBranchCall b] ++ ((e1 ++ [e2]) ++ e3)).
      apply never_remerged_app; [now apply never_remerged_no_failures | | easy].
      apply never_remerged_app; [now apply never_remerged_no_calls | now apply N3 |].
      intros x Hx Hc. rewrite F12 in Hx.
      destruct ok; [easy|]. destruct Hx as [<-|[]]. now apply Hnin.
Qed.

Lemma resolve_all_trace (failed : list jsstring) (h : list event) :
  exists evs,
    resolve_all env failed h = (tt, h ++ evs)
    /\ merge_calls evs = [] /\ merge_failures evs = [] /\ unresolved evs = []
    /\ resolution evs
       = flat_map (fun _ => [ConflictedFilesCall; AbortMergeCall]) failed.
Proof.
  revert h; induction failed as [|b failed IH]; intros h; simpl.
  - exists []. unfold ret. now rewrite app_nil_r.
  - unfold bind, getConflictedFiles, abortMerge, bind, emit, sh, ret. simpl.
    match goal with |- context [match ?fs with [] => _ | _ :: _ => _ end ?k] =>
      destruct fs as [|f1 fs1] end.
    + match goal with |- context [resolve_all env failed ?k] =>
        destruct (IH k) as [e [E [C [F [U R]]]]]; rewrite E end.
      eexists. split; [rewrite <- !app_assoc; simpl; reflexivity|]. simpl.
      rewrite C, F, U, R. auto.
    + match goal with |- context [resolve_all env failed ?k] =>
        destruct (IH k) as [e [E [C [F [U R]]]]]; rewrite E end.
      eexists. split; [rewrite <- !app_assoc; simpl; reflexivity|]. simpl.
      rewrite C, F, U, R. auto.
Qed.

(** Reconciliation over distinct branch names: the report of unresolved
    branches lists exactly the branches whose merge failed; when the
    successful branches of the run have pairwise distinct names, a branch
    whose merge failed is never handed to [mergeBranch] again; and for every
    failed merge there is one call of [getConflictedFiles] followed by one
    call of [abortMerge], whatever the shell answers. *)
Theorem handleCompletedBranches_never_remerges
    (config : Config) (rs : list AgentResult) (h : list event)
    (Hdistinct : NoDup (successfulBranches rs)) :
  let tr := issued (handleCompletedBranches env config rs) h in
  unresolved tr = merge_failures tr
  /\ never_remerged tr
  /\ resolution tr
     = flat_map (fun _ => [ConflictedFilesCall; AbortMergeCall]) (merge_failures tr).
Proof.
  cbv zeta. unfold handleCompletedBranches.
  destruct (successfulBranches rs) as [|b bs] eqn:Eb.
  - rewrite (issued_app (ret tt) h [] (a := tt)) by (unfold ret; now rewrite app_nil_r).
    split; [reflexivity|]. split; [now apply never_remerged_no_calls | reflexivity].
  - destruct (createPr config).
    + rewrite (issued_app _ h _ (say_all_trace _ h)).
      destruct (created_report (b :: bs)) as [C [F [U R]]]. rewrite F, U, R.
      split; [reflexivity|]. split; [now apply never_remerged_no_calls | reflexivity].
    + destruct (merge_all_trace config (b :: bs) h) as [failed [e1 [E1 [S1 [I1 N1]]]]].
      unfold summary in S1. injection S1 as C1 F1 U1 R1.
      specialize (N1 Hdistinct).
      destruct failed as [|x failed].
      * rewrite (issued_app _ h (e1 ++ [Console AllMerged]) (a := tt))
          by (unfold bind, emit; rewrite E1; now rewrite app_assoc).
        rewrite unresolved_app, merge_failures_app, resolution_app, U1, F1, R1.
        split; [reflexivity|]. split; [|reflexivity].
        apply never_remerged_app; [exact N1 | now apply never_remerged_no_calls|].
        intros y Hy. now rewrite F1 in Hy.
      * destruct (resolve_all_trace (x :: failed) (h ++ e1)) as [e2 [E2 [C2 [F2 [U2 R2]]]]].
        destruct (unresolved_report (x :: failed)) as [C3 [F3 [U3 R3]]].
        set (report := List.map Console (List.map Unresolved (x :: failed))) in *.
        rewrite (issued_app _ h (e1 ++ e2 ++ report) (a := tt)).
        -- rewrite !unresolved_app, !merge_failures_app, !resolution_app.
           rewrite U1, U2, U3, F1, F2, F3, R1, R2, R3, !app_nil_r.
           split; [reflexivity|]. split; [|reflexivity].
           apply never_remerged_app; [exact N1 | |].
           ++ apply never_remerged_no_calls. now rewrite merge_calls_app, C2, C3.
           ++ intros y _. now rewrite merge_calls_app, C2, C3.
        -- unfold bind. rewrite E1, E2, say_all_trace, <- !app_assoc. reflexivity.
Qed.

End Reconciliation.

Section ReconciliationSamples.

Import Git Executor.

Lemma first_failure_split (tr pre post : list event) (b : jsstring) :
  first_failure tr = Some (pre, b, post) -> tr = pre ++ MergeBranchResult b false :: post.
Proof.
  revert pre; induction tr as [|e tr IH]; intros pre; simpl; [discriminate|].
  assert (Hrec : match first_failure tr with
                 | Some (pre0, b0, post0) => Some (e :: pre0, b0, post0)
                 | None => None
                 end = Some (pre, b, post) ->
                 e :: tr = pre ++ MergeBranchResult b false :: post).
  { destruct (first_failure tr) as [[[p b0] q]|]; [|discriminate].
    intros [= <- <- <-]. simpl. f_equal. now apply IH. }
  destruct e as [| | |b' [|]| | |]; try exact Hrec.
  intros [= <- <- <-]. reflexivity.
Qed.

Lemma remerged_after_failure (tr : list event) :
  match first_failure tr with
  | Some (_, b, post) => existsb (is_merge_call b) post
  | None => false
  end = true ->
  ~ never_remerged tr.
Proof.
  destruct (first_failure tr) as [[[pre b] post]|] eqn:E; [|discriminate].
  intros Hex Hn. apply first_failure_split in E.
  apply existsb_exists in Hex. destruct Hex as [e [Hin He]].
  destruct e; simpl in He; try discriminate. apply eqb_eq in He. subst.
  exact (Hn _ _ _ eq_refl Hin).
Qed.

(** C4: a branch whose merge failed is handed to [mergeBranch] again in the
    same run.  On the backlog [two_groups], with a shell on which merges
    conflict, the grouped run produces the branch ["ralphy/agent-1-fix-bug"]
    twice (both groups start at slot 1); its first merge fails, [mergeBranch]
    is called on it a second time, and the branch is reported as unresolved
    twice. *)
Theorem failed_branch_merged_again :
  exists st,
    run (TS := Yaml.source) conflicting (js "/repo") (js "/tmp/ralphy-1") sample_config
      (Some yamlGrouping) (fresh (Some two_groups)) = Some (Returned st)
    /\ ~ never_remerged (history st)
    /\ merge_calls (history st)
       = [js "ralphy/agent-1-fix-bug"; js "ralphy/agent-1-fix-bug"]
    /\ merge_failures (history st)
       = [js "ralphy/agent-1-fix-bug"; js "ralphy/agent-1-fix-bug"]
    /\ unresolved (history st)
       = [js "ralphy/agent-1-fix-bug"; js "ralphy/agent-1-fix-bug"].
Proof.
  eexists. split; [vm_compute; reflexivity|].
  split; [apply remerged_after_failure; vm_compute; reflexivity|].
  repeat split; vm_compute; reflexivity.
Qed.

Lemma handleCompletedBranches_never_remerges_witness :
  let rs := [mkAgentResult (js "a") true (js "ralphy/agent-1-a") None;
             mkAgentResult (js "b") true (js "ralphy/agent-2-b") None] in
  let tr := issued (handleCompletedBranches conflicting sample_config rs) [] in
  unresolved tr = merge_failures tr
  /\ never_remerged tr
  /\ resolution tr
     = flat_map (fun _ => [ConflictedFilesCall; AbortMergeCall]) (merge_failures tr).
Proof.
  refine (@handleCompletedBranches_never_remerges conflicting sample_config _ [] _).
  vm_compute. repeat constructor; simpl; intuition discriminate.
Defined.

End ReconciliationSamples.

(** ** Lines of a text *)

Section Lines.

Lemma join_split (s : jsstring) : join_lines (split_lines s) = s.
Proof.
  induction s as [|c s IH]; simpl; [reflexivity|].
  destruct (split_lines s) as [l r]. unfold join_lines in *. simpl in *.
  destruct (is_line_terminator c); simpl; now rewrite IH.
Qed.

Lemma split_lines_wf (s : jsstring) : lines_wf (split_lines s).
Proof.
  induction s as [|c s IH]; simpl; [split; [reflexivity | constructor]|].
  destruct (split_lines s) as [l r]. destruct IH as [Hl Hr]. simpl in *.
  destruct (is_line_terminator c) eqn:Hc; split; simpl; auto.
  - reflexivity.
  - unfold no_terminator. simpl. now rewrite Hc.
Qed.

Lemma split_join (d : jsstring * list (N * jsstring)) :
  lines_wf d -> split_lines (join_lines d) = d.
Proof.
  destruct d as [l r]. unfold lines_wf, join_lines. simpl. intros [Hl Hr].
  revert l Hl; induction Hr as [|[c l1] r [Hc Hl1] Hr IH]; intros l Hl.
  - simpl. rewrite app_nil_r.
    induction l as [|x l IHl]; simpl; [reflexivity|].
    unfold no_terminator in Hl. simpl in Hl. apply andb_true_iff in Hl. destruct Hl as [Hx Hl].
    rewrite (IHl Hl). apply negb_true_iff in Hx. now rewrite Hx.
  - simpl in *. induction l as [|x l IHl]; simpl.
    + rewrite (IH l1 Hl1). now rewrite Hc.
    + unfold no_terminator in Hl. simpl in Hl. apply andb_true_iff in Hl.
      destruct Hl as [Hx Hl]. rewrite (IHl Hl). apply negb_true_iff in Hx. now rewrite Hx.
Qed.

Lemma line_texts_join (d : jsstring * list (N * jsstring)) :
  lines_wf d -> line_texts (join_lines d) = fst d :: List.map snd (snd d).
Proof. intros H. unfold line_texts. rewrite (split_join H). now destruct d. Qed.

Lemma no_terminator_app (a b : jsstring) :
  no_terminator (a ++ b) <-> no_terminator a /\ no_terminator b.
Proof. unfold no_terminator. rewrite forallb_app, andb_true_iff. tauto. Qed.

Lemma no_terminator_skipn (n : nat) (s : jsstring) :
  no_terminator s -> no_terminator (skipn n s).
Proof.
  intros H. rewrite <- (firstn_skipn n s) in H. now apply no_terminator_app in H.
Qed.

(** A pattern without line terminators sees only the line it starts on. *)
Lemma startsWith_line (pat l : jsstring) (r : list (N * jsstring)) :
  no_terminator pat ->
  Forall (fun cl => is_line_terminator (fst cl) = true /\ no_terminator (snd cl)) r ->
  startsWith pat (l ++ join_rest r) = startsWith pat l.
Proof.
  intros Hp Hr. revert l; induction pat as [|p pat IH]; intros l; [reflexivity|].
  unfold no_terminator in Hp. simpl in Hp. apply andb_true_iff in Hp. destruct Hp as [Hp1 Hp].
  destruct l as [|y l]; simpl.
  - destruct r as [|[c l1] r]; simpl; [reflexivity|].
    inversion Hr as [|? ? [Hc _] _]; subst. simpl in Hc.
    destruct (N.eqb_spec p c) as [->|]; [|reflexivity].
    rewrite Hc in Hp1. discriminate.
  - now rewrite (IH Hp l).
Qed.

Lemma startsWith_length (pat s : jsstring) :
  startsWith pat s = true -> List.length pat <= List.length s.
Proof. intros H. apply startsWith_iff in H. destruct H as [r ->]. rewrite length_app. lia. Qed.

Lemma find_skip (pat l rest : jsstring) :
  no_terminator l ->
  find_at_line_start pat false (l ++ rest)
  = match find_at_line_start pat false rest with
    | Some (b, a) => Some (l ++ b, a)
    | None => None
    end.
Proof.
  intros Hl. induction l as [|x l IH]; simpl.
  - destruct rest; simpl; [reflexivity|].
    now destruct (find_at_line_start pat (is_line_terminator n) rest) as [[b a]|].
  - unfold no_terminator in Hl. simpl in Hl. apply andb_true_iff in Hl.
    destruct Hl as [Hx Hl]. apply negb_true_iff in Hx. rewrite Hx, (IH Hl).
    now destruct (find_at_line_start pat false rest) as [[b a]|].
Qed.

Lemma find_not_here (pat s : jsstring) :
  startsWith pat s = false ->
  find_at_line_start pat true s = find_at_line_start pat false s.
Proof. intros H. destruct s; simpl; now rewrite H. Qed.

Lemma find_as_lines (pat : jsstring) (d : jsstring * list (N * jsstring)) :
  no_terminator pat -> pat <> [] -> lines_wf d ->
  find_at_line_start pat true (join_lines d) = find_lines pat (fst d) (snd d).
Proof.
  intros Hp Hne. destruct d as [l r]. unfold lines_wf, join_lines. simpl. intros [Hl Hr].
  revert l Hl; induction Hr as [|[c l1] r [Hc Hl1] Hr IH]; intros l Hl.
  - simpl. rewrite app_nil_r.
    destruct (startsWith pat l) eqn:Hs.
    + destruct l; simpl; rewrite Hs; simpl; now rewrite ?app_nil_r.
    + rewrite (find_not_here _ _ Hs).
      rewrite <- (app_nil_r l) at 1. rewrite (find_skip pat [] Hl). simpl.
      destruct pat; [congruence | reflexivity].
  - simpl in *.
    assert (Hsl : startsWith pat (l ++ c :: l1 ++ join_rest r) = startsWith pat l)
      by (apply (startsWith_line l (r := (c, l1) :: r) Hp); constructor; auto).
    destruct (startsWith pat l) eqn:Hs.
    + assert (Hlen := startsWith_length _ _ Hs).
      destruct (l ++ c :: l1 ++ join_rest r) eqn:E; simpl; rewrite Hsl; simpl;
        rewrite <- E, skipn_app; replace (List.length pat - List.length l) with 0 by lia;
        reflexivity.
    + rewrite (find_not_here _ _ Hsl), (find_skip pat _ Hl). simpl.
      destruct pat as [|p pat]; [congruence|]. simpl. rewrite Hc.
      rewrite (IH l1 Hl1). now destruct (find_lines (p :: pat) l1 r) as [[b a]|].
Qed.

Lemma mark_as_lines (pat new : jsstring) (l : jsstring) (r : list (N * jsstring)) :
  match find_lines pat l r with
  | Some (b, a) => b ++ new ++ a
  | None => join_lines (l, r)
  end
  = join_lines match mark_lines pat new l r with Some d => d | None => (l, r) end.
Proof.
  revert l; induction r as [|[c l1] r IH]; intros l; simpl.
  - destruct (startsWith pat l); unfold join_lines; simpl; now rewrite <- ?app_assoc.
  - destruct (startsWith pat l); unfold join_lines; simpl; [now rewrite <- app_assoc|].
    specialize (IH l1). unfold join_lines in IH.
    destruct (find_lines pat l1 r) as [[b a]|], (mark_lines pat new l1 r) as [[l1' r']|];
      simpl in *; rewrite <- ?app_assoc; simpl; now rewrite ?IH.
Qed.

Lemma GetSubstitution_plain (m b a t : jsstring) :
  no_substitution t = true -> GetSubstitution m b a t = t.
Proof.
  induction t as [|c t IH]; simpl; [reflexivity|].
  destruct (N.eqb c 36).
  - destruct t as [|d t']; [reflexivity|].
    rewrite andb_true_iff, negb_true_iff, !orb_false_iff.
    intros [[[[-> ->] ->] ->] Hn]. now rewrite (IH Hn).
  - intros Hn. now rewrite (IH Hn).
Qed.

End Lines.

(** ** task-sources/markdown.ts *)

Section Checklist.

Import Markdown.

Local Abbreviation pend := (title_after pending_marker).
Local Abbreviation done_count := (fun ls => List.length (filter (startsWith done_box) ls)).

Lemma startsWith_same_prefix (p a b : jsstring) :
  startsWith (p ++ a) (p ++ b) = startsWith a b.
Proof. induction p; simpl; [reflexivity|]. now rewrite N.eqb_refl. Qed.

Lemma startsWith_refl (a : jsstring) : startsWith a a = true.
Proof. rewrite <- (app_nil_r a) at 2. apply startsWith_app. Qed.

Lemma pend_match (t l : jsstring) :
  t <> [] -> startsWith (pending_marker ++ t) l = true ->
  exists rest, l = pending_marker ++ t ++ rest /\ pend l = [t ++ rest].
Proof.
  intros Ht H. apply startsWith_iff in H. destruct H as [rest ->].
  exists rest. rewrite <- app_assoc. split; [reflexivity|].
  destruct t; [congruence | reflexivity].
Qed.

Lemma pend_no_match (t l : jsstring) :
  startsWith (pending_marker ++ t) l = false ->
  pend l = [] \/ exists u, pend l = [u] /\ startsWith t u = false.
Proof.
  intros H. unfold title_after.
  destruct (startsWith pending_marker l) eqn:Hm; [|now left].
  apply startsWith_iff in Hm. destruct Hm as [u ->].
  rewrite startsWith_same_prefix in H.
  destruct (Nat.ltb _ _); [|now left]. right. exists u. auto.
Qed.

Lemma pend_units (l u : jsstring) :
  In u (pend l) -> u <> [] /\ (no_terminator l -> no_terminator u).
Proof.
  unfold title_after.
  destruct (startsWith pending_marker l && _)%bool eqn:H; [|easy].
  intros [<-|[]]. apply andb_true_iff in H. destruct H as [_ H].
  apply Nat.ltb_lt in H. split.
  - intros E. apply (f_equal (@List.length N)) in E. rewrite length_skipn in E.
    simpl in E, H. lia.
  - apply no_terminator_skipn.
Qed.

Lemma mark_here (t l : jsstring) (others before after : list jsstring) :
  t <> [] -> startsWith (pending_marker ++ t) l = true ->
  pend l ++ others = before ++ t :: after ->
  (forall u, In u before -> startsWith t u = false) ->
  l = pending_marker ++ t /\ before = [] /\ others = after.
Proof.
  intros Ht Hs Hsplit Hbefore.
  destruct (pend_match l Ht Hs) as [rest [-> Hp]]. rewrite Hp in Hsplit.
  destruct before as [|u before].
  - injection Hsplit as Ht' Hafter.
    assert (rest = []).
    { apply (f_equal (@List.length N)) in Ht'. rewrite length_app in Ht'.
      destruct rest; [reflexivity | simpl in Ht'; lia]. }
    subst rest. now rewrite app_nil_r.
  - injection Hsplit as Hu _. exfalso.
    assert (Hf := Hbefore u (or_introl eq_refl)).
    rewrite <- Hu, startsWith_app in Hf. discriminate.
Qed.

Lemma marked_line (t : jsstring) :
  done_marker ++ skipn (List.length (pending_marker ++ t)) (pending_marker ++ t)
  = done_marker.
Proof. now rewrite skipn_all, app_nil_r. Qed.

Lemma mark_lines_titles (t : jsstring) (r : list (N * jsstring)) :
  t <> [] ->
  forall (l : jsstring) (before after : list jsstring),
    flat_map pend (l :: List.map snd r) = before ++ t :: after ->
    (forall u, In u before -> startsWith t u = false) ->
    exists l' r',
      mark_lines (pending_marker ++ t) (done_marker ++ t) l r = Some (l', r')
      /\ flat_map pend (l' :: List.map snd r') = before ++ after
      /\ done_count (l' :: List.map snd r') = S (done_count (l :: List.map snd r))
      /\ (lines_wf (l, r) -> no_terminator t -> lines_wf (l', r')).
Proof.
  intros Ht.
  assert (Hhere : forall l r before after,
             startsWith (pending_marker ++ t) l = true ->
             flat_map pend (l :: List.map snd r) = before ++ t :: after ->
             (forall u, In u before -> startsWith t u = false) ->
             flat_map pend ((done_marker ++ t) :: List.map snd r) = before ++ after
             /\ done_count ((done_marker ++ t) :: List.map snd r)
                = S (done_count (l :: List.map snd r))
             /\ (lines_wf (l, r) -> no_terminator t -> lines_wf (done_marker ++ t, r))
             /\ (done_marker ++ t) ++ skipn (List.length (pending_marker ++ t)) l
                = done_marker ++ t).
  { intros l r0 before after Hs Hsplit Hbefore. cbn [flat_map] in Hsplit.
    destruct (mark_here l _ before after Ht Hs Hsplit Hbefore) as [-> [-> Ho]].
    split; [exact Ho|]. split; [reflexivity|]. split.
    - unfold lines_wf. simpl. intros [_ Hr] Hnt. split; [|exact Hr].
      apply (no_terminator_app done_marker t). split; [reflexivity | exact Hnt].
    - now rewrite skipn_all, app_nil_r. }
  induction r as [|[c l1] r IH]; intros l before after Hsplit Hbefore;
    cbn [mark_lines]; destruct (startsWith (pending_marker ++ t) l) eqn:Hs.
  - destruct (Hhere l [] before after Hs Hsplit Hbefore) as [H1 [H2 [H3 H4]]].
    rewrite H4. eauto 10.
  - exfalso. cbn [flat_map List.map] in Hsplit. rewrite app_nil_r in Hsplit.
    destruct (pend_no_match t l Hs) as [Hp|[u [Hp Hu]]]; rewrite Hp in Hsplit.
    + now destruct before.
    + destruct before as [|u' [|]]; try discriminate.
      injection Hsplit as -> _. rewrite startsWith_refl in Hu. discriminate.
  - destruct (Hhere l ((c, l1) :: r) before after Hs Hsplit Hbefore) as [H1 [H2 [H3 H4]]].
    rewrite H4. eauto 10.
  - cbn [flat_map List.map] in Hsplit. cbn [snd] in Hsplit.
    assert (Hrest : exists before',
               flat_map pend (l1 :: List.map snd r) = before' ++ t :: after
               /\ before = pend l ++ before'
               /\ (forall u, In u before' -> startsWith t u = false)).
    { destruct (pend_no_match t l Hs) as [Hp|[u [Hp Hu]]]; rewrite Hp in *.
      - exists before. auto.
      - destruct before as [|u' before'].
        + injection Hsplit as -> _. rewrite startsWith_refl in Hu. discriminate.
        + injection Hsplit as -> Hsplit. exists before'. split; [exact Hsplit|].
          split; [reflexivity|]. intros x Hx. apply Hbefore. now right. }
    destruct Hrest as [before' [Hsplit' [-> Hbefore']]].
    destruct (IH l1 before' after Hsplit' Hbefore') as [l1' [r' [Hm [Ht' [Hc Hwf]]]]].
    rewrite Hm. exists l, ((c, l1') :: r'). split; [reflexivity|].
    cbn [flat_map List.map snd]. cbn [flat_map List.map] in Ht'. rewrite Ht'.
    split; [now rewrite app_assoc|]. split.
    + set (A := l1' :: List.map snd r') in *. set (B := l1 :: List.map snd r) in *.
      cbn [filter]. destruct (startsWith done_box l); cbn [List.length]; now rewrite Hc.
    + unfold lines_wf. simpl. intros [Hl Hr] Hnt. inversion Hr as [|? ? Hc1 Hr']; subst.
      destruct (Hwf (conj (proj2 Hc1) Hr') Hnt) as [Hl1' Hr''].
      split; [exact Hl|]. constructor; [split; [exact (proj1 Hc1) | exact Hl1'] | exact Hr''].
Qed.

(** C3, as the code has it: when the task [t] occurs once among the pending
    titles, no pending title before it begins with [t], and [t] holds none of
    the replacement patterns [$$], [$&], [$`], [$'], then after
    [markComplete(t)] the pending titles are the former ones without [t] (so
    [getRemainingTasks] does not contain [t]) and [countCompleted] is greater
    by exactly one. *)
Theorem markComplete_removes_task
    (f : Utils.file) (t : jsstring) (before after : list jsstring)
    (Hsplit : getRemainingTasks f = before ++ t :: after)
    (Hbefore : forall u, In u before -> startsWith t u = false)
    (Hafter : ~ In t after)
    (Hplain : no_substitution t = true) :
  getRemainingTasks (markComplete t f) = before ++ after
  /\ ~ In t (getRemainingTasks (markComplete t f))
  /\ countCompleted (markComplete t f) = S (countCompleted f).
Proof.
  unfold getRemainingTasks, countCompleted, count_lines, markComplete, Utils.writeFile in *.
  cbn [Utils.readFile]. set (content := Utils.readFile f) in *.
  pose proof (split_lines_wf content) as Hwf.
  pose proof (join_split content) as Hjoin.
  unfold line_texts in Hsplit at 1.
  unfold line_texts at 4.
  destruct (split_lines content) as [l r].
  assert (Hin : In t (flat_map pend (l :: List.map snd r)))
    by (rewrite Hsplit, in_app_iff; right; left; reflexivity).
  apply in_flat_map in Hin. destruct Hin as [line [Hline Htitle]].
  apply pend_units in Htitle. destruct Htitle as [Ht Hnt].
  assert (Hnt' : no_terminator t).
  { apply Hnt. destruct Hwf as [Hl Hr]. destruct Hline as [<-|Hline]; [exact Hl|].
    apply in_map_iff in Hline. destruct Hline as [[c x] [<- Hx]].
    rewrite Forall_forall in Hr. exact (proj2 (Hr _ Hx)). }
  destruct (mark_lines_titles r Ht l before after Hsplit Hbefore)
    as [l' [r' [Hm [Ht' [Hc Hwf']]]]].
  specialize (Hwf' Hwf Hnt').
  assert (Hrep : replace_first_at_line_start (pending_marker ++ t) (done_marker ++ t) content
                 = join_lines (l', r')).
  { unfold replace_first_at_line_start. rewrite <- Hjoin.
    rewrite find_as_lines; [| | discriminate | exact Hwf].
    - cbn [fst snd].
      pose proof (mark_as_lines (pending_marker ++ t) (done_marker ++ t) l r) as Hma.
      rewrite Hm in Hma. rewrite <- Hma.
      destruct (find_lines (pending_marker ++ t) l r) as [[b a]|]; [|reflexivity].
      f_equal. f_equal. cbn [app done_marker GetSubstitution N.eqb Pos.eqb].
      now rewrite GetSubstitution_plain.
    - apply (no_terminator_app pending_marker t). split; [reflexivity | exact Hnt']. }
  rewrite Hrep, (line_texts_join Hwf'). cbn [fst snd].
  split; [exact Ht'|]. split.
  - rewrite Ht', in_app_iff. intros [Hb|Ha]; [|exact (Hafter Ha)].
    specialize (Hbefore t Hb). rewrite startsWith_refl in Hbefore. discriminate.
  - exact Hc.
Qed.

End Checklist.

(** ** Numbers: rounding, printing and reading back *)

Section Numbers.

Local Open Scope N_scope.

Lemma log2_window (m : N) :
  2 ^ 53 <= m ->
  let e := N.log2 m - 52 in
  1 <= e /\ 2 ^ 52 * 2 ^ e <= m < 2 ^ 53 * 2 ^ e.
Proof.
  intros Hm e.
  assert (H0 : 0 < m) by lia.
  assert (Hl : 53 <= N.log2 m) by (apply N.log2_le_pow2; [exact H0 | exact Hm]).
  destruct (N.log2_spec m H0) as [Hlo Hhi].
  assert (E : N.log2 m = 52 + e) by (unfold e; lia).
  rewrite E in Hlo. rewrite E, <- N.add_succ_l in Hhi.
  rewrite N.pow_add_r in Hlo, Hhi. change (N.succ 52) with 53 in Hhi.
  unfold e. split; [lia | split; assumption].
Qed.

Lemma round_double_idem (m v : N) : round_double m = Some v -> round_double v = Some v.
Proof.
  unfold round_double at 1.
  destruct (N.ltb_spec m (2 ^ 53)) as [Hs|Hb].
  - intros [= <-]. unfold round_double. destruct (N.ltb_spec m (2 ^ 53)); [reflexivity | lia].
  - destruct (log2_window Hb) as [He [Hlo Hhi]].
    set (e := N.log2 m - 52) in *.
    rewrite N.shiftr_div_pow2.
    set (q := m / 2 ^ e).
    set (P := 2 ^ e) in *.
    assert (HP : 2 <= P).
    { unfold P. replace e with (1 + (e - 1)) by lia. rewrite N.pow_add_r.
      assert (0 < 2 ^ (e - 1)) by (apply N.neq_0_lt_0, N.pow_nonzero; lia). lia. }
    assert (Hq : 2 ^ 52 <= q < 2 ^ 53).
    { unfold q. split.
      - apply N.div_le_lower_bound; lia.
      - apply N.Div0.div_lt_upper_bound. lia. }
    match goal with |- context [N.shiftl ?x e] => set (q' := x) end.
    assert (Hq' : 2 ^ 52 <= q' <= 2 ^ 53).
    { unfold q'. repeat match goal with |- context [if ?c then _ else _] => destruct c end; lia. }
    rewrite N.shiftl_mul_pow2. fold P.
    destruct (N.ltb_spec (q' * P) (2 ^ 1024)) as [Hv|]; [|discriminate].
    intros [= <-].
    unfold round_double.
    destruct (N.ltb_spec (q' * P) (2 ^ 53)) as [Hsmall|_]; [nia|].
    assert (Hcase : q' < 2 ^ 53 \/ q' = 2 ^ 53) by lia.
    destruct Hcase as [Hlt|Heq].
    + assert (El : N.log2 (q' * P) = 52 + e).
      { apply N.log2_unique; [lia|]. rewrite <- N.add_succ_l, !N.pow_add_r.
        change (N.succ 52) with 53. fold P. nia. }
      rewrite El. replace (52 + e - 52) with e by lia.
      rewrite N.shiftr_div_pow2. fold P. rewrite N.div_mul by lia.
      rewrite !N.shiftl_mul_pow2. fold P. rewrite N.sub_diag.
      assert (Hh : 0 < 2 ^ (e - 1)) by (apply N.neq_0_lt_0, N.pow_nonzero; lia).
      destruct (N.ltb_spec 0 (2 ^ (e - 1))); [|lia].
      destruct (N.ltb_spec (q' * P) (2 ^ 1024)); [reflexivity | lia].
    + assert (El : N.log2 (q' * P) = 53 + e).
      { apply N.log2_unique; [lia|]. rewrite <- N.add_succ_l, !N.pow_add_r.
        change (N.succ 53) with 54. fold P. nia. }
      rewrite El. replace (53 + e - 52) with (1 + e) by lia.
      rewrite N.shiftr_div_pow2, N.pow_add_r. fold P.
      assert (Ed : q' * P / (2 ^ 1 * P) = 2 ^ 52).
      { rewrite Heq. replace (2 ^ 53 * P) with (2 ^ 52 * (2 ^ 1 * P)) by lia.
        apply N.div_mul. lia. }
      rewrite Ed. rewrite !N.shiftl_mul_pow2, !N.pow_add_r. fold P.
      assert (E2 : 2 ^ 52 * (2 ^ 1 * P) = q' * P) by lia.
      rewrite !E2, N.sub_diag.
      assert (Hh : 0 < 2 ^ (1 + e - 1)) by (apply N.neq_0_lt_0, N.pow_nonzero; lia).
      destruct (N.ltb_spec 0 (2 ^ (1 + e - 1))); [|lia].
      rewrite !E2.
      destruct (N.ltb_spec (q' * P) (2 ^ 1024)); [reflexivity | lia].
Qed.

Lemma pick_sound (v p c : N) : pick v p = Some c -> round_double c = Some v.
Proof.
  unfold pick.
  set (lo := v / p * p). set (hi := lo + p).
  destruct (round_double lo) as [w1|] eqn:E1; destruct (round_double hi) as [w2|] eqn:E2;
    try destruct (N.eqb_spec w1 v); try destruct (N.eqb_spec w2 v);
    repeat match goal with |- context [if ?b then _ else _] => destruct b end;
    intros [= <-]; congruence.
Qed.

Lemma shortest_from_sound (v : N) (j : nat) :
  round_double v = Some v -> round_double (shortest_from v j) = Some v.
Proof.
  intros Hv. induction j as [|j IH]; cbn [shortest_from].
  - destruct (pick v (10 ^ N.of_nat 0)) eqn:E; [now apply pick_sound in E | exact Hv].
  - destruct (pick v (10 ^ N.of_nat (S j))) eqn:E; [now apply pick_sound in E | exact IH].
Qed.

Lemma shortest_sound (v : N) : round_double v = Some v -> round_double (shortest v) = Some v.
Proof. apply shortest_from_sound. Qed.

Lemma top_exp_bound (fuel j : nat) (v : N) :
  (j <= 20)%nat -> v < 10 ^ 21 -> (top_exp fuel j v <= 20)%nat.
Proof.
  revert j; induction fuel as [|fuel IH]; intros j Hj Hv; cbn [top_exp]; [exact Hj|].
  destruct (N.ltb_spec v (10 ^ N.of_nat (S j))) as [|Hge]; [exact Hj|].
  apply IH; [|exact Hv].
  destruct (Nat.eq_dec j 20) as [->|]; [|lia].
  change (10 ^ N.of_nat 21) with (10 ^ 21) in Hge. lia.
Qed.

Lemma pick_bound (v c : N) (j : nat) :
  (j <= 20)%nat -> v < 10 ^ 21 -> pick v (10 ^ N.of_nat j) = Some c -> c < 10 ^ 21.
Proof.
  intros Hj Hv Hp.
  assert (Hr := pick_sound _ _ Hp).
  set (p := 10 ^ N.of_nat j) in *.
  assert (Hp0 : 0 < p) by (apply N.neq_0_lt_0, N.pow_nonzero; lia).
  assert (Hsplit : 10 ^ 21 = p * 10 ^ (21 - N.of_nat j)).
  { unfold p. rewrite <- N.pow_add_r. f_equal. lia. }
  assert (Hlo : v / p * p <= v) by (rewrite N.mul_comm; apply N.Div0.mul_div_le).
  assert (Hhi : v / p * p + p <= 10 ^ 21).
  { assert (v / p < 10 ^ (21 - N.of_nat j))
      by (apply N.Div0.div_lt_upper_bound; now rewrite <- Hsplit).
    rewrite Hsplit. nia. }
  assert (Hc : c = v / p * p \/ c = v / p * p + p).
  { revert Hp. unfold pick.
    repeat match goal with |- context [if ?b then _ else _] => destruct b end;
      intros [= <-]; auto. }
  destruct Hc as [-> | ->]; [lia|].
  destruct (N.eq_dec (v / p * p + p) (10 ^ 21)) as [E|]; [|lia].
  rewrite E in Hr. vm_compute in Hr. injection Hr as <-. vm_compute in Hv. discriminate.
Qed.

Lemma shortest_from_bound (v : N) (j : nat) :
  (j <= 20)%nat -> v < 10 ^ 21 -> shortest_from v j < 10 ^ 21.
Proof.
  intros Hj Hv. induction j as [|j IH]; cbn [shortest_from].
  - destruct (pick v (10 ^ N.of_nat 0)) eqn:E; [now apply (@pick_bound v n 0) | exact Hv].
  - destruct (pick v (10 ^ N.of_nat (S j))) eqn:E; [now apply (@pick_bound v n (S j))|].
    apply IH. lia.
Qed.

Lemma shortest_bound (v : N) : v < 10 ^ 21 -> shortest v < 10 ^ 21.
Proof. intros Hv. apply shortest_from_bound; [apply top_exp_bound; [lia | exact Hv] | exact Hv]. Qed.

Lemma read_digits_units (u : Decimal.uint) : read_digits (uint_units u) = u.
Proof. induction u; simpl; now rewrite ?IHu. Qed.

Lemma to_uint_nonnil (n : N) : N.to_uint n <> Decimal.Nil.
Proof.
  intros E. pose proof (DecimalN.Unsigned.of_to n) as H. rewrite E in H. simpl in H.
  subst n. discriminate.
Qed.

Lemma uint_units_digits (u : Decimal.uint) : Forall (fun c => 48 <= c <= 57) (uint_units u).
Proof. induction u; simpl; constructor; auto; lia. Qed.

Lemma digit_visible (x : N) : 48 <= x <= 57 -> is_whitespace x = false.
Proof.
  intros Hx. unfold is_whitespace.
  replace (N.leb x 13) with false by (symmetry; apply N.leb_gt; lia).
  replace (N.leb 8192 x) with false by (symmetry; apply N.leb_gt; lia).
  repeat match goal with
         | |- context [N.eqb x ?b] =>
             replace (N.eqb x b) with false by (symmetry; apply N.eqb_neq; lia)
         end.
  now rewrite !andb_false_r.
Qed.

Lemma parseInt_dec (neg : bool) (c : N) :
  parseInt ((if neg then [45] else []) ++ dec c) = Some (to_number neg c).
Proof.
  unfold parseInt, dec.
  pose proof (to_uint_nonnil c) as Hn. pose proof (uint_units_digits (N.to_uint c)) as Hd.
  pose proof (read_digits_units (N.to_uint c)) as Hr.
  destruct neg.
  - change (trimStart ([45] ++ uint_units (N.to_uint c)))
      with (45 :: uint_units (N.to_uint c)).
    cbn -[to_number N.of_uint read_digits uint_units N.to_uint].
    rewrite Hr.
    destruct (N.to_uint c) eqn:E; [congruence|..];
      (rewrite <- E, DecimalN.Unsigned.of_to; reflexivity).
  - cbn [app]. destruct (uint_units (N.to_uint c)) as [|x s] eqn:Eu.
    + destruct (N.to_uint c); simpl in Eu; congruence.
    + inversion Hd as [|? ? Hx _]; subst.
      cbn [trimStart]. rewrite (digit_visible Hx).
      destruct (N.eqb_spec x 45); [lia|]. destruct (N.eqb_spec x 43); [lia|].
      cbn -[to_number N.of_uint read_digits uint_units N.to_uint].
      rewrite Hr.
      destruct (N.to_uint c) eqn:E; [congruence|..];
        (rewrite <- E, DecimalN.Unsigned.of_to; reflexivity).
Qed.

Lemma to_number_double (neg : bool) (m : N) : is_double (to_number neg m).
Proof.
  unfold to_number. destruct (round_double m) as [v|] eqn:E; [|now destruct neg].
  apply round_double_idem in E. simpl.
  destruct neg; [rewrite Zabs2N.inj_opp|]; now rewrite Zabs2N.id.
Qed.

Lemma parsed_double (s : jsstring) : is_double (or_zero (parseInt s)).
Proof.
  unfold parseInt.
  destruct (match trimStart s with
            | [] => (false, trimStart s)
            | c :: s' => if c =? 45 then (true, s') else if c =? 43 then (false, s')
                         else (false, trimStart s)
            end) as [neg s2].
  destruct (read_digits s2); simpl; try apply to_number_double. reflexivity.
Qed.

Lemma dec_visible (c : N) : visible (dec c).
Proof.
  unfold dec. split.
  - pose proof (to_uint_nonnil c). destruct (N.to_uint c); simpl; congruence.
  - eapply Forall_impl; [|apply uint_units_digits]. intros x. apply digit_visible.
Qed.

Lemma number_round_trip (g : number) :
  is_double g -> plain_decimal g ->
  or_zero (parseInt (numberToString g)) = g /\ visible (numberToString g).
Proof.
  intros Hd [z [-> Hz]]. simpl in Hd. destruct z as [|p|p]; simpl in Hd.
  - split; [reflexivity|]. split; [discriminate | repeat constructor].
  - assert (Hv : N.pos p < 10 ^ 21) by lia.
    cbn [numberToString]. unfold pos_toString.
    destruct (N.ltb_spec (shortest (N.pos p)) (10 ^ 21)) as [_|Hge];
      [|pose proof (shortest_bound Hv); lia].
    split; [|apply dec_visible].
    pose proof (parseInt_dec false (shortest (N.pos p))) as Hp. cbn [app] in Hp.
    rewrite Hp. unfold to_number. rewrite (shortest_sound Hd). reflexivity.
  - assert (Hv : N.pos p < 10 ^ 21) by lia.
    cbn [numberToString]. unfold pos_toString.
    destruct (N.ltb_spec (shortest (N.pos p)) (10 ^ 21)) as [_|Hge];
      [|pose proof (shortest_bound Hv); lia].
    split.
    + pose proof (parseInt_dec true (shortest (N.pos p))) as Hp. cbn [app] in Hp.
      rewrite Hp. unfold to_number. rewrite (shortest_sound Hd). reflexivity.
    + destruct (dec_visible (shortest (N.pos p))) as [_ Hf]. split; [discriminate|].
      constructor; [reflexivity | exact Hf].
Qed.

Lemma round_double_large (m v : N) : 2 ^ 53 <= m -> round_double m = Some v -> 2 ^ 53 <= v.
Proof.
  intros Hb. unfold round_double.
  destruct (N.ltb_spec m (2 ^ 53)) as [|_]; [lia|].
  destruct (log2_window Hb) as [He [Hlo Hhi]].
  set (e := N.log2 m - 52) in *.
  rewrite N.shiftr_div_pow2.
  set (P := 2 ^ e) in *.
  assert (HP : 2 <= P).
  { unfold P. replace e with (1 + (e - 1)) by lia. rewrite N.pow_add_r.
    assert (0 < 2 ^ (e - 1)) by (apply N.neq_0_lt_0, N.pow_nonzero; lia). lia. }
  assert (Hq : 2 ^ 52 <= m / P) by (apply N.div_le_lower_bound; lia).
  match goal with |- context [N.shiftl ?x e] => set (q' := x) end.
  assert (Hq' : 2 ^ 52 <= q').
  { unfold q'. repeat match goal with |- context [if ?c then _ else _] => destruct c end; lia. }
  rewrite N.shiftl_mul_pow2. fold P.
  destruct (N.ltb_spec (q' * P) (2 ^ 1024)); [|discriminate].
  intros [= <-]. nia.
Qed.

Lemma pick_small (v p c : N) : v < 2 ^ 53 -> pick v p = Some c -> c = v.
Proof.
  intros Hv Hp. apply pick_sound in Hp.
  destruct (N.lt_ge_cases c (2 ^ 53)) as [Hc|Hc].
  - unfold round_double in Hp. destruct (N.ltb_spec c (2 ^ 53)); [congruence | lia].
  - pose proof (round_double_large Hc Hp). lia.
Qed.

Lemma shortest_from_small (v : N) (j : nat) : v < 2 ^ 53 -> shortest_from v j = v.
Proof.
  intros Hv. induction j as [|j IH]; cbn [shortest_from].
  - destruct (pick v (10 ^ N.of_nat 0)) eqn:E; [now apply pick_small in E | reflexivity].
  - destruct (pick v (10 ^ N.of_nat (S j))) eqn:E; [now apply pick_small in E | exact IH].
Qed.

(** A slot number is written with its decimal digits. *)
Lemma slot_toString (n : nat) :
  N.of_nat n < 2 ^ 53 -> numberToString (Num (Z.of_nat n)) = dec (N.of_nat n).
Proof.
  intros Hn. destruct n as [|n]; [reflexivity|].
  assert (E : Z.of_nat (S n) = Z.pos (Pos.of_succ_nat n)) by reflexivity.
  assert (E' : N.of_nat (S n) = N.pos (Pos.of_succ_nat n)) by reflexivity.
  rewrite E, E' in *. cbn [numberToString]. unfold pos_toString, shortest.
  rewrite (shortest_from_small _ Hn).
  destruct (N.ltb_spec (N.pos (Pos.of_succ_nat n)) (10 ^ 21)) as [|Hge]; [reflexivity|].
  assert (2 ^ 53 < 10 ^ 21) by (vm_compute; reflexivity). lia.
Qed.

(** The search for the leading digit starts at the leading digit. *)
Lemma top_exp_spec (fuel j : nat) (v : N) :
  10 ^ N.of_nat j <= v -> (N.to_nat (N.log2 v) < j + fuel)%nat ->
  10 ^ N.of_nat (top_exp fuel j v) <= v < 10 ^ N.of_nat (S (top_exp fuel j v)).
Proof.
  revert j. induction fuel as [|fuel IH]; intros j Hj Hf; cbn [top_exp].
  - split; [exact Hj|].
    assert (H0 : 0 < v).
    { assert (0 < 10 ^ N.of_nat j) by (apply N.neq_0_lt_0, N.pow_nonzero; lia). lia. }
    destruct (N.log2_spec v H0) as [_ Hhi].
    assert (2 ^ N.succ (N.log2 v) <= 2 ^ N.of_nat (S j)) by (apply N.pow_le_mono_r; lia).
    assert (2 ^ N.of_nat (S j) <= 10 ^ N.of_nat (S j)) by (apply N.pow_le_mono_l; lia).
    lia.
  - destruct (N.ltb_spec v (10 ^ N.of_nat (S j))) as [Hlt|Hge]; [split; assumption|].
    apply IH; [exact Hge | lia].
Qed.

Lemma shortest_starts_at_leading_digit (v : N) :
  0 < v ->
  let j := top_exp (S (N.to_nat (N.log2 v))) 0 v in
  10 ^ N.of_nat j <= v < 10 ^ N.of_nat (S j).
Proof. intros Hv. apply top_exp_spec; [simpl; lia | lia]. Qed.

Lemma read_digits_units_then (u : Decimal.uint) (x : N) (rest : jsstring) :
  is_digit x = false -> read_digits (uint_units u ++ x :: rest) = u.
Proof. intros Hx. induction u; simpl; rewrite ?IHu, ?Hx; reflexivity. Qed.

Lemma parseInt_dec_then (c x : N) (rest : jsstring) :
  is_digit x = false -> parseInt (dec c ++ x :: rest) = Some (to_number false c).
Proof.
  intros Hx. unfold parseInt, dec.
  pose proof (to_uint_nonnil c) as Hn. pose proof (uint_units_digits (N.to_uint c)) as Hd.
  pose proof (@read_digits_units_then (N.to_uint c) x rest Hx) as Hr.
  destruct (uint_units (N.to_uint c)) as [|y s] eqn:Eu.
  - destruct (N.to_uint c); simpl in Eu; congruence.
  - inversion Hd as [|? ? Hy _]; subst.
    cbn [app trimStart] in *. rewrite (digit_visible Hy).
    destruct (N.eqb_spec y 45); [lia|]. destruct (N.eqb_spec y 43); [lia|].
    cbn -[to_number N.of_uint read_digits uint_units N.to_uint].
    rewrite Hr.
    destruct (N.to_uint c) eqn:E; [congruence|..];
      (rewrite <- E, DecimalN.Unsigned.of_to; reflexivity).
Qed.


End Numbers.

(** ** git-manager.ts: branch names of different slots *)

Section BranchNames.

Import Git.

(** Two agents with different slot numbers get different branches, whatever
    their tasks. *)
Lemma branchName_slot (t1 t2 : jsstring) (n1 n2 : nat) :
  (N.of_nat n1 < 2 ^ 53)%N -> (N.of_nat n2 < 2 ^ 53)%N ->
  branchName t1 (Num (Z.of_nat n1)) = branchName t2 (Num (Z.of_nat n2)) -> n1 = n2.
Proof.
  intros H1 H2. unfold branchName. rewrite !slot_toString by assumption.
  intros E. apply app_inv_head in E.
  assert (Hx : is_digit 45 = false) by reflexivity.
  change (js "-") with [45%N] in E. cbn [app] in E.
  pose proof (@parseInt_dec_then (N.of_nat n1) 45 (Utils.slugify t1) Hx) as P1.
  pose proof (@parseInt_dec_then (N.of_nat n2) 45 (Utils.slugify t2) Hx) as P2.
  rewrite E, P2 in P1. unfold to_number, round_double in P1.
  destruct (N.ltb_spec (N.of_nat n1) (2 ^ 53)%N); [|lia].
  destruct (N.ltb_spec (N.of_nat n2) (2 ^ 53)%N); [|lia].
  injection P1 as P1. lia.
Qed.

End BranchNames.

(** ** parallel-executor.ts: the branches of an ungrouped run *)

Section DistinctBranches.

Import Git Executor.

Context {Store : Type} {TS : TaskSource Store}.
Variable env : shell.
Variable directory worktreeBase : jsstring.

Local Abbreviation State := (@Executor.State Store).

Lemma runAgent_of_slot (config : Config) (t : jsstring) (k : nat) (st : State) :
  of_slot k (fst (runAgent env directory worktreeBase config t k st)).
Proof.
  unfold runAgent.
  match goal with |- context [lift ?m ?s] => destruct (lift m s) as [[w|] st1] eqn:E end.
  - right. exists t. simpl. revert E. unfold lift.
    match goal with |- context [createWorktree ?e ?a ?b ?c ?d ?h] =>
      destruct (createWorktree e a b c d h) as [o h1] eqn:Ew end.
    intros [= -> _]. exact (createWorktree_branch _ _ _ _ _ _ Ew).
  - left. reflexivity.
Qed.

Lemma run_agents_of_slot (config : Config) (agents : list (jsstring * nat)) (st : State) :
  Forall2 of_slot (List.map snd agents)
    (fst (run_agents env directory worktreeBase config agents st)).
Proof.
  revert st; induction agents as [|[t k] agents IH]; intros st; simpl; [constructor|].
  pose proof (runAgent_of_slot config t k st) as H1.
  destruct (runAgent env directory worktreeBase config t k st) as [r st1].
  specialize (IH st1).
  destruct (run_agents env directory worktreeBase config agents st1) as [rs st2].
  simpl in *. now constructor.
Qed.

Lemma show_results_results (rs : list AgentResult) (label : nat) (st : State) :
  results (show_results label rs st) = results st.
Proof. now destruct (show_results_quiet_step rs label st) as [_ [_ [_ R]]]. Qed.

(** The results added by the loop from index [i] belong to slots above [i],
    in ascending order, none above the number of tasks. *)
Lemma runBatches_loop_slots (config : Config) (tasks : list jsstring) :
  forall (fuel i batchNum : nat) (st st' : State),
    runBatches_loop env directory worktreeBase config fuel tasks i batchNum st = Some st' ->
    exists ks rs,
      results st' = results st ++ rs
      /\ Forall2 of_slot ks rs
      /\ StronglySorted lt ks
      /\ Forall (fun k => i < k <= List.length tasks) ks.
Proof.
  induction fuel as [|fuel IH]; intros i batchNum st st'; simpl.
  - destruct (Nat.ltb_spec i (List.length tasks)); [discriminate|].
    intros [= <-]. exists [], []. rewrite app_nil_r. repeat constructor.
  - destruct (Nat.ltb_spec i (List.length tasks)) as [Hi|Hi].
    2:{ intros [= <-]. exists [], []. rewrite app_nil_r. repeat constructor. }
    set (batch := slice i (i + maxParallel config) tasks).
    set (agents := combine batch (seq (i + 1) (List.length batch))).
    set (st1 := say (BatchSpawning (S batchNum) (List.length batch)) st).
    pose proof (run_agents_of_slot config agents st1) as Hs.
    destruct (run_agents_step env directory worktreeBase config agents st1) as [_ [_ [R2 _]]].
    destruct (run_agents env directory worktreeBase config agents st1) as [rs st2].
    simpl in Hs, R2.
    assert (Hk : List.map snd agents = seq (i + 1) (List.length batch))
      by (unfold agents; apply map_snd_combine; now rewrite length_seq).
    rewrite Hk in Hs.
    assert (Hb : List.length batch <= List.length tasks - i).
    { unfold batch, slice. rewrite length_firstn, length_skipn. lia. }
    assert (Hb' : List.length batch <= maxParallel config).
    { unfold batch, slice. rewrite length_firstn. lia. }
    assert (Hseq : Forall (fun k => i < k <= i + List.length batch)
                     (seq (i + 1) (List.length batch))).
    { apply Forall_forall. intros k Hin. apply in_seq in Hin. lia. }
    match goal with |- context [show_results ?l rs ?s] =>
      set (st3 := s); set (label := l) end.
    assert (R3 : results (show_results label rs st3) = results st ++ rs).
    { rewrite show_results_results. unfold st3. simpl. rewrite R2. reflexivity. }
    destruct (_ && _)%bool.
    + intros [= <-]. exists (seq (i + 1) (List.length batch)), rs.
      split; [exact R3|]. split; [exact Hs|]. split.
      * apply seq_sorted.
      * eapply Forall_impl; [|exact Hseq]. simpl. intros k. lia.
    + intros Hloop. destruct (IH _ _ _ _ Hloop) as [ks [rs' [E [F2 [So Bo]]]]].
      exists (seq (i + 1) (List.length batch) ++ ks), (rs ++ rs').
      split; [rewrite E, R3, app_assoc; reflexivity|].
      split; [now apply Forall2_app|]. split.
      * apply sorted_app; [apply seq_sorted | exact So|].
        intros x y Hx Hy. rewrite Forall_forall in Hseq, Bo.
        specialize (Hseq x Hx). specialize (Bo y Hy). simpl in Bo. lia.
      * apply Forall_app. split.
        -- eapply Forall_impl; [|exact Hseq]. simpl. intros k. lia.
        -- eapply Forall_impl; [|exact Bo]. simpl. intros k. lia.
Qed.

Lemma successful_of_slot (ks : list nat) (rs : list AgentResult) (b : jsstring) :
  Forall2 of_slot ks rs -> In b (successfulBranches rs) ->
  exists k t, In k ks /\ b = branchName t (Num (Z.of_nat k)).
Proof.
  unfold successfulBranches. induction 1 as [|k r ks rs Hr _ IH]; simpl; [easy|].
  destruct (success r) eqn:Es; simpl.
  - destruct (nonempty (branch r)); simpl.
    + intros [<-|Hin].
      * destruct Hr as [Hr|[t Ht]]; [congruence|]. exists k, t. auto.
      * destruct (IH Hin) as [k' [t [Hk Hb]]]. exists k', t. auto.
    + intros Hin. destruct (IH Hin) as [k' [t [Hk Hb]]]. exists k', t. auto.
  - intros Hin. destruct (IH Hin) as [k' [t [Hk Hb]]]. exists k', t. auto.
Qed.

Lemma slots_distinct (ks : list nat) (rs : list AgentResult) :
  Forall2 of_slot ks rs -> StronglySorted lt ks ->
  Forall (fun k => (N.of_nat k < 2 ^ 53)%N) ks ->
  NoDup (successfulBranches rs).
Proof.
  induction 1 as [|k r ks rs Hr Hrs IH]; intros Hs Hb; [constructor|].
  apply StronglySorted_inv in Hs. destruct Hs as [Hs Hlt].
  inversion Hb as [|? ? Hk Hb']; subst.
  specialize (IH Hs Hb').
  unfold successfulBranches in *. simpl.
  destruct (success r) eqn:Es; simpl; [|exact IH].
  destruct (nonempty (branch r)); simpl; [|exact IH].
  constructor; [|exact IH].
  intros Hin. destruct (@successful_of_slot ks rs (branch r) Hrs Hin) as [k' [t' [Hk' E]]].
  destruct Hr as [Hr|[t Ht]]; [congruence|].
  rewrite Ht in E. apply branchName_slot in E; [|exact Hk|].
  - rewrite Forall_forall in Hlt. specialize (Hlt k' Hk'). lia.
  - rewrite Forall_forall in Hb'. exact (Hb' k' Hk').
Qed.

(** In an ungrouped run the successful branches are pairwise distinct: the
    reconciliation step then hands no branch to [mergeBranch] twice. *)
Lemma runBatches_distinct_branches (config : Config) (tasks : list jsstring) (st st' : State) :
  results st = [] -> (N.of_nat (List.length tasks) < 2 ^ 53)%N ->
  runBatches env directory worktreeBase config tasks st = Some st' ->
  NoDup (successfulBranches (results st')).
Proof.
  intros Hr Hm Hrun. unfold runBatches in Hrun.
  destruct (@runBatches_loop_slots config tasks _ _ _ _ _ Hrun) as [ks [rs [E [F2 [So Bo]]]]].
  rewrite E, Hr. simpl.
  apply (@slots_distinct ks rs F2 So).
  eapply Forall_impl; [|exact Bo]. simpl. intros k Hk. lia.
Qed.

End DistinctBranches.

(** ** task-sources/yaml.ts: serialise, then parse *)

Section StructuredRoundTrip.

Import Yaml.


Lemma trimStart_spaces (sp s : jsstring) :
  forallb is_whitespace sp = true -> trimStart (sp ++ s) = trimStart s.
Proof.
  induction sp as [|x sp IH]; simpl; [reflexivity|].
  rewrite andb_true_iff. intros [-> H]. auto.
Qed.

Lemma trimEnd_visible (a b : jsstring) : visible b -> trimEnd (a ++ b) = a ++ b.
Proof.
  intros [Hne Hall]. destruct (exists_last Hne) as [b' [d ->]].
  apply Forall_app in Hall. destruct Hall as [_ Hd]. inversion Hd as [|? ? Hw _]; subst.
  unfold trimEnd. rewrite app_assoc, rev_app_distr. simpl. rewrite Hw. simpl.
  now rewrite rev_involutive.
Qed.

Lemma trim_framed (sp mid tail : jsstring) (c : N) :
  forallb is_whitespace sp = true -> is_whitespace c = false -> visible tail ->
  trim (sp ++ c :: mid ++ tail) = c :: mid ++ tail.
Proof.
  intros Hsp Hc Ht. unfold trim. rewrite trimStart_spaces by exact Hsp. simpl. rewrite Hc.
  change (c :: mid ++ tail) with ((c :: mid) ++ tail). now apply trimEnd_visible.
Qed.

Lemma visible_quote : visible [quote].
Proof. split; [discriminate | repeat constructor]. Qed.

Ltac eval_js :=
  repeat match goal with
         | |- context [js ?s] =>
             let v := eval vm_compute in (js s) in change (js s) with v
         | H : context [js ?s] |- _ =>
             let v := eval vm_compute in (js s) in change (js s) with v in H
         end.

Lemma parseValue_quoted (T : jsstring) :
  parseValue (32%N :: quote :: T ++ [quote]) = T.
Proof.
  unfold parseValue.
  pose proof (@trim_framed [32%N] T [quote] quote eq_refl eq_refl visible_quote) as Ht.
  cbn [app] in Ht. rewrite Ht.
  assert (He : endsWith [quote] (quote :: T ++ [quote]) = true).
  { unfold endsWith. change (quote :: T ++ [quote]) with ((quote :: T) ++ [quote]).
    rewrite rev_app_distr. reflexivity. }
  rewrite He. cbn [startsWith N.eqb Pos.eqb quote andb orb].
  unfold slice_1_m1. cbn [tl]. apply removelast_last.
Qed.

Lemma step_title (st : pstate) (T : jsstring) :
  inTasks st = true ->
  step st (js "  - title: " ++ [quote] ++ T ++ [quote])
  = mkPstate (Some (mkYamlTask T false None)) true (push_current st).
Proof.
  intros Hin. unfold step.
  pose proof (@trim_framed [32%N; 32%N] (js " title: " ++ [quote] ++ T) [quote] 45%N
                eq_refl eq_refl visible_quote) as H1.
  pose proof (@trim_framed [] (js "itle: " ++ [quote] ++ T) [quote] 116%N
                eq_refl eq_refl visible_quote) as H2.
  eval_js. cbn [app] in H1, H2 |- *.
  rewrite H1.
  cbn -[trim parseValue push_current]. rewrite Hin.
  cbn -[trim parseValue push_current].
  rewrite H2.
  cbn -[trim parseValue push_current].
  now rewrite parseValue_quoted.
Qed.

Lemma step_completed (st : pstate) (t : YamlTask) (b : bool) :
  inTasks st = true -> currentTask st = Some t ->
  step st (js "    completed: " ++ (if b then js "true" else js "false"))
  = mkPstate (Some (mkYamlTask (title t) b (parallel_group t))) true (tasks st).
Proof.
  destruct st as [cur inT ts], t as [T c g]. simpl. intros -> ->.
  destruct b; vm_compute; reflexivity.
Qed.

Lemma trim_visible_id (s : jsstring) : visible s -> trim (32%N :: s) = s.
Proof.
  intros Hv. unfold trim. cbn [trimStart is_whitespace].
  change (is_whitespace 32) with true. cbv iota.
  destruct Hv as [Hne Hall]. destruct s as [|x s]; [congruence|].
  inversion Hall as [|? ? Hx _]; subst. cbn [trimStart]. rewrite Hx.
  apply (trimEnd_visible []). now split.
Qed.

Lemma step_group (st : pstate) (t : YamlTask) (numstr : jsstring) :
  inTasks st = true -> currentTask st = Some t -> visible numstr ->
  step st (js "    parallel_group: " ++ numstr)
  = mkPstate
      (Some (mkYamlTask (title t) (completed t) (Some (or_zero (parseInt numstr)))))
      true (tasks st).
Proof.
  intros Hin Hcur Hv. unfold step.
  pose proof (@trim_framed [32%N; 32%N; 32%N; 32%N] (js "arallel_group: ") numstr 112%N
                eq_refl eq_refl Hv) as H1.
  eval_js. cbn [app] in H1 |- *. rewrite H1.
  cbn -[trim parseInt]. rewrite Hin, Hcur.
  cbn -[trim parseInt]. rewrite (trim_visible_id Hv). reflexivity.
Qed.

Lemma split_cons_line (l rest : jsstring) :
  ~ In LF l -> split LF (l ++ LF :: rest) = l :: split LF rest.
Proof.
  induction l as [|x l IH]; intros Hn; simpl.
  - reflexivity.
  - destruct (N.eqb_spec x LF) as [->|Hx]; [exfalso; apply Hn; now left|].
    rewrite IH by (intros H; apply Hn; now right). reflexivity.
Qed.

Lemma visible_no_LF (s : jsstring) : visible s -> ~ In LF s.
Proof.
  intros [_ Hall] Hin. rewrite Forall_forall in Hall. specialize (Hall _ Hin). discriminate.
Qed.

Lemma render_lines (t : YamlTask) (rest : jsstring) :
  render t ++ rest
  = (js "  - title: " ++ [quote] ++ title t ++ [quote])
    ++ LF :: (js "    completed: " ++ (if completed t then js "true" else js "false"))
    ++ LF :: match parallel_group t with
             | Some g => (js "    parallel_group: " ++ numberToString g) ++ LF :: rest
             | None => rest
             end.
Proof.
  unfold render. destruct (parallel_group t);
    repeat (rewrite <- ?app_assoc; cbn [app]); reflexivity.
Qed.

Lemma fold_task (t : YamlTask) (st : pstate) (rest : jsstring) :
  inTasks st = true -> task_ok t -> task_plain t ->
  fold_left step (split LF (render t ++ rest)) st
  = fold_left step (split LF rest) (mkPstate (Some t) true (push_current st)).
Proof.
  intros Hin [Hne [Hlf Hdbl]] Hplain. rewrite render_lines.
  destruct t as [T b g]. cbn [title completed parallel_group] in *.
  set (L1 := js "  - title: " ++ [quote] ++ T ++ [quote]).
  set (L2 := js "    completed: " ++ (if b then js "true" else js "false")).
  assert (H1 : ~ In LF L1).
  { unfold L1. rewrite !in_app_iff. intros [H|[H|[H|H]]]; try (now apply Hlf).
    - vm_compute in H. intuition discriminate.
    - destruct H as [H|[]]. discriminate.
    - destruct H as [H|[]]. discriminate. }
  assert (H2 : ~ In LF L2).
  { unfold L2. destruct b; vm_compute; intuition discriminate. }
  rewrite (@split_cons_line L1 _ H1). cbn [fold_left]. unfold L1. rewrite (@step_title st T Hin).
  rewrite (@split_cons_line L2 _ H2). cbn [fold_left]. unfold L2.
  rewrite (@step_completed (mkPstate (Some (mkYamlTask T false None)) true (push_current st))
             (mkYamlTask T false None) b eq_refl eq_refl).
  cbn [title parallel_group tasks].
  destruct g as [g|]; [|reflexivity].
  destruct (number_round_trip (Hdbl g eq_refl) (Hplain g eq_refl)) as [Hrt Hvis].
  rewrite split_cons_line.
  - cbn [fold_left].
    rewrite (@step_group (mkPstate (Some (mkYamlTask T b None)) true (push_current st))
               (mkYamlTask T b None) _ eq_refl eq_refl Hvis).
    cbn [title completed tasks]. now rewrite Hrt.
  - rewrite in_app_iff. intros [H|H]; [|exact (visible_no_LF Hvis H)].
    vm_compute in H. intuition discriminate.
Qed.

Lemma fold_tasks (data : list YamlTask) (st : pstate) :
  inTasks st = true -> Forall task_ok data -> Forall task_plain data ->
  push_current (fold_left step (split LF (flat_map render data)) st)
  = push_current st ++ data.
Proof.
  revert st; induction data as [|t data IH]; intros st Hin Hok Hpl.
  - simpl. unfold step. simpl. now rewrite app_nil_r.
  - inversion Hok as [|? ? Ht Hok']; inversion Hpl as [|? ? Hp Hpl']; subst.
    cbn [flat_map]. rewrite (@fold_task t st _ Hin Ht Hp).
    rewrite IH by auto.
    assert (Hpush : push_current (mkPstate (Some t) true (push_current st))
                    = push_current st ++ [t]).
    { unfold push_current at 1. cbn [currentTask tasks].
      destruct Ht as [Hne _]. now destruct (title t). }
    rewrite Hpush, <- app_assoc. reflexivity.
Qed.

Lemma stringify_parse (data : list YamlTask) :
  Forall task_ok data -> Forall task_plain data ->
  parseSimpleYaml (stringifyYaml data) = data.
Proof.
  intros Hok Hpl. unfold parseSimpleYaml, stringifyYaml.
  cbn [app].
  rewrite split_cons_line by (vm_compute; intuition discriminate).
  cbn [fold_left].
  replace (step (mkPstate None false []) (js "tasks:")) with (mkPstate None true [])
    by (vm_compute; reflexivity).
  now rewrite fold_tasks.
Qed.

Lemma trimStart_incl (s : jsstring) : incl (trimStart s) s.
Proof.
  induction s as [|x s IH]; simpl; [apply incl_refl|].
  destruct (is_whitespace x); [now apply incl_tl | apply incl_refl].
Qed.

Lemma trim_incl (s : jsstring) : incl (trim s) s.
Proof.
  unfold trim, trimEnd. intros x Hx. apply in_rev in Hx. apply trimStart_incl in Hx.
  apply in_rev in Hx. now apply trimStart_incl.
Qed.

Lemma skipn_incl {A} (n : nat) (l : list A) : incl (skipn n l) l.
Proof. intros x Hx. rewrite <- (firstn_skipn n l), in_app_iff. now right. Qed.

Lemma firstn_incl {A} (n : nat) (l : list A) : incl (firstn n l) l.
Proof. intros x Hx. rewrite <- (firstn_skipn n l), in_app_iff. now left. Qed.

Lemma removelast_incl {A} (l : list A) : incl (removelast l) l.
Proof.
  induction l as [|x l IH]; [apply incl_refl|]. simpl. destruct l; [easy|].
  intros y [->|Hy]; [now left | right; now apply IH].
Qed.

Lemma parseValue_incl (v : jsstring) : incl (parseValue v) v.
Proof.
  unfold parseValue, slice_1_m1.
  destruct (_ || _)%bool; [|apply trim_incl].
  intros x Hx. apply removelast_incl in Hx. apply trim_incl.
  destruct (trim v); [easy | now right].
Qed.

Lemma split_no_sep (sep : N) (s l : jsstring) : In l (split sep s) -> ~ In sep l.
Proof.
  revert l; induction s as [|c s IH]; intros l; simpl.
  - intros [<-|[]]. easy.
  - destruct (N.eqb_spec c sep) as [->|Hc].
    + intros [<-|H]; [easy | now apply IH].
    + destruct (split sep s) as [|l0 ls] eqn:E.
      * intros [<-|[]]. intros [H|[]]. congruence.
      * intros [<-|H]; [|apply IH; now right].
        intros [H|H]; [congruence|]. apply (IH l0); [now left | exact H].
Qed.

Lemma push_current_ok (st : pstate) : state_ok st -> Forall task_ok (push_current st).
Proof.
  intros [Hts Hcur]. unfold push_current.
  destruct (currentTask st) as [t|] eqn:E; [|exact Hts].
  destruct (title t) eqn:Et; [exact Hts|].
  apply Forall_app. split; [exact Hts|]. constructor; [|constructor].
  destruct (Hcur t E) as [Hlf Hd]. split; [congruence|]. split; assumption.
Qed.

Lemma step_ok (st : pstate) (line : jsstring) :
  ~ In LF line -> state_ok st -> state_ok (step st line).
Proof.
  intros Hline Hst. unfold step.
  assert (Htrim : ~ In LF (trim line)) by (intros H; apply Hline; now apply trim_incl).
  set (trimmed := trim line) in *.
  destruct (_ || _)%bool; [exact Hst|].
  destruct (JS.eqb trimmed (js "tasks:")); [exact Hst|].
  destruct (negb (inTasks st)); [exact Hst|].
  destruct (startsWith (js "- ") trimmed).
  - split; [now apply push_current_ok|].
    intros t [= <-]. cbn [title parallel_group]. split; [|discriminate].
    match goal with |- context [if ?b then parseValue _ else _] => destruct b end; [|easy].
    intros H. apply Htrim. apply parseValue_incl in H.
    apply (@skipn_incl _ 6 _ LF) in H. apply trim_incl in H.
    exact (@skipn_incl _ 2 _ LF H).
  - destruct (currentTask st) as [t|] eqn:Ecur; [|exact Hst].
    destruct (indexOf colon trimmed) as [i|]; [|exact Hst].
    destruct Hst as [Hts Hcur]. destruct (Hcur t Ecur) as [Hlf Hd].
    split; [exact Hts|]. intros t' [= <-]. unfold set_property.
    repeat match goal with |- context [if ?b then _ else _] => destruct b end;
      cbn [title parallel_group]; (split; [|try exact Hd]); try exact Hlf.
    + intros H. apply Htrim. apply parseValue_incl, trim_incl in H.
      exact (@skipn_incl _ (S i) trimmed LF H).
    + intros g [= <-]. apply parsed_double.
Qed.

Lemma parse_ok (content : jsstring) : Forall task_ok (parseSimpleYaml content).
Proof.
  unfold parseSimpleYaml. apply push_current_ok.
  assert (Hlines : Forall (fun l => ~ In LF l) (split LF content))
    by (apply Forall_forall; intros l; apply split_no_sep).
  assert (H0 : state_ok (mkPstate None false [])) by (split; [constructor | easy]).
  revert H0. generalize (mkPstate None false []).
  induction Hlines as [|l ls Hl _ IH]; intros st Hst; [exact Hst|].
  simpl. apply IH. now apply step_ok.
Qed.

Lemma parseFile_ok (f : Utils.file) : Forall task_ok (parseFile f).
Proof.
  unfold parseFile. destruct (Utils.readFile f) as [|c content]; [constructor|].
  apply parse_ok.
Qed.

Lemma parseFile_written (data : list YamlTask) :
  parseFile (Utils.writeFile (stringifyYaml data)) = parseSimpleYaml (stringifyYaml data).
Proof. reflexivity. Qed.

Lemma complete_first_unknown (task : jsstring) (data : list YamlTask) :
  (forall t, In t data -> title t <> task) -> complete_first task data = data.
Proof.
  induction data as [|t data IH]; intros H; simpl; [reflexivity|].
  destruct (JS.eqb (title t) task) eqn:E.
  - apply eqb_eq in E. exfalso. exact (H t (or_introl eq_refl) E).
  - rewrite IH; [reflexivity|]. intros u Hu. apply H. now right.
Qed.

(** C5, as the code has it: parse, serialise, parse gives the task list of
    the first parse (titles, completed flags and groups), for every document
    whose parsed groups are below 10^21 in magnitude. *)
Theorem yaml_round_trip (content : jsstring)
    (Hplain : Forall task_plain (parseSimpleYaml content)) :
  parseSimpleYaml (stringifyYaml (parseSimpleYaml content)) = parseSimpleYaml content.
Proof. apply stringify_parse; [apply parse_ok | exact Hplain]. Qed.

(** C10, as the code has it: when no parsed task has the given title and
    the parsed groups are below 10^21 in magnitude, [markComplete] rewrites
    the document and a new parse gives the same tasks as before. *)
Theorem markComplete_unknown_title (f : Utils.file) (task : jsstring)
    (Hunknown : forall t, In t (parseFile f) -> title t <> task)
    (Hplain : Forall task_plain (parseFile f)) :
  parseFile (markComplete task f) = parseFile f.
Proof.
  unfold markComplete. rewrite (complete_first_unknown _ Hunknown), parseFile_written.
  apply stringify_parse; [apply parseFile_ok | exact Hplain].
Qed.

End StructuredRoundTrip.

(** ** Sample documents *)

Section Samples.

Import Yaml.

Lemma yaml_round_trip_witness :
  parseSimpleYaml (stringifyYaml (parseSimpleYaml Executor.two_groups))
  = parseSimpleYaml Executor.two_groups.
Proof.
  apply yaml_round_trip.
  assert (E : parseSimpleYaml Executor.two_groups
              = [mkYamlTask (js "Fix bug") false (Some (Num 1));
                 mkYamlTask (js "fix bug") false (Some (Num 2))])
    by (vm_compute; reflexivity).
  rewrite E.
  repeat constructor; intros g [= <-]; eexists; (split; [reflexivity | reflexivity]).
Defined.

(** The round trip is not the identity on every document: the group 10^21
    is serialised as [1e+21], which [parseInt] reads back as 1. *)
Lemma round_trip_changes_large_group :
  List.map parallel_group (parseSimpleYaml large_group) = [Some (Num (10 ^ 21))]
  /\ stringifyYaml (parseSimpleYaml large_group)
     = js "tasks:" ++ [LF] ++ js "  - title: " ++ [quote] ++ js "A" ++ [quote; LF]
       ++ js "    completed: false" ++ [LF] ++ js "    parallel_group: 1e+21" ++ [LF]
  /\ List.map parallel_group (parseSimpleYaml (stringifyYaml (parseSimpleYaml large_group)))
     = [Some (Num 1)].
Proof. repeat split; vm_compute; reflexivity. Qed.

Lemma markComplete_unknown_title_witness :
  parseFile (markComplete (js "Write docs") (Some Executor.two_groups))
  = parseFile (Some Executor.two_groups).
Proof.
  assert (E : parseFile (Some Executor.two_groups)
              = [mkYamlTask (js "Fix bug") false (Some (Num 1));
                 mkYamlTask (js "fix bug") false (Some (Num 2))])
    by (vm_compute; reflexivity).
  apply markComplete_unknown_title; rewrite E.
  - intros t [<-|[<-|[]]]; vm_compute; discriminate.
  - repeat constructor; intros g [= <-]; eexists; (split; [reflexivity | reflexivity]).
Defined.

(** A rewrite for an unknown title can change a group: no task of
    [large_group] is titled "B", and after [markComplete("B")] the group of
    its task is 1 instead of 10^21. *)
Lemma unknown_title_rewrite_changes_group :
  List.map title (parseFile (Some large_group)) = [js "A"]
  /\ List.map parallel_group (parseFile (Some large_group)) = [Some (Num (10 ^ 21))]
  /\ List.map parallel_group (parseFile (markComplete (js "B") (Some large_group)))
     = [Some (Num 1)].
Proof. repeat split; vm_compute; reflexivity. Qed.

(** The example of the specification: groups 1 and 2. *)
Example groups_of_two_tasks :
  let doc := Some (js "tasks:" ++ [LF]
                   ++ js "  - title: A" ++ [LF] ++ js "    completed: false" ++ [LF]
                   ++ js "    parallel_group: 1" ++ [LF]
                   ++ js "  - title: B" ++ [LF] ++ js "    completed: false" ++ [LF]
                   ++ js "    parallel_group: 2" ++ [LF]) in
  getParallelGroups doc = [Num 1; Num 2] /\ getTasksByGroup (Num 2) doc = [js "B"].
Proof. split; vm_compute; reflexivity. Qed.

Import Markdown.

Lemma markComplete_removes_task_witness :
  getRemainingTasks (markComplete (js "two") (Some three_pending_one_done))
  = [js "one"] ++ [js "four"]
  /\ ~ In (js "two") (getRemainingTasks (markComplete (js "two") (Some three_pending_one_done)))
  /\ countCompleted (markComplete (js "two") (Some three_pending_one_done))
     = S (countCompleted (Some three_pending_one_done)).
Proof.
  apply (@markComplete_removes_task (Some three_pending_one_done) (js "two")
           [js "one"] [js "four"]).
  - vm_compute. reflexivity.
  - intros u [<-|[]]. vm_compute. reflexivity.
  - vm_compute. intros [H|[]]. discriminate.
  - vm_compute. reflexivity.
Defined.

(** Where [markComplete] misses.  "Add" occurs once among the pending tasks
    of [prefix_checklist], after "Add tests": [markComplete("Add")] marks
    "Add tests" and "Add" stays pending.  The task of [pattern_checklist]
    occurs once, and marking it raises [countCompleted] from 1 to 3.  A task
    that occurs twice stays pending once. *)
Lemma markComplete_misses_or_overcounts :
  (getRemainingTasks (Some prefix_checklist) = [js "Add tests"; js "Add"]
   /\ getRemainingTasks (markComplete (js "Add") (Some prefix_checklist)) = [js "Add"])
  /\ (getRemainingTasks (Some pattern_checklist) = [js "a$'"]
      /\ countCompleted (Some pattern_checklist) = 1
      /\ countCompleted (markComplete (js "a$'") (Some pattern_checklist)) = 3)
  /\ getRemainingTasks (markComplete (js "A") (Some twice_checklist)) = [js "A"].
Proof. repeat split; vm_compute; reflexivity. Qed.

(** The example of the specification: three pending tasks and one done. *)
Example three_pending_one_done_counts :
  countRemaining (Some three_pending_one_done) = 3
  /\ countCompleted (Some three_pending_one_done) = 1
  /\ countRemaining (markComplete (js "two") (Some three_pending_one_done)) = 2
  /\ countCompleted (markComplete (js "two") (Some three_pending_one_done)) = 2.
Proof. repeat split; vm_compute; reflexivity. Qed.

End Samples.

(** ** Number::toString and parseInt on sample values *)

Section NumberSamples.

Example numberToString_1e21 : numberToString (Num (10 ^ 21)) = js "1e+21".
Proof. vm_compute. reflexivity. Qed.

Example numberToString_below_1e21 :
  numberToString (Num (10 ^ 21 - 131072)) = js "999999999999999900000".
Proof. vm_compute. reflexivity. Qed.

Example numberToString_2p60 : numberToString (Num (2 ^ 60)) = js "1152921504606847000".
Proof. vm_compute. reflexivity. Qed.

Example numberToString_shortest :
  numberToString (Num 123456789012345685803008) = js "1.2345678901234569e+23".
Proof. vm_compute. reflexivity. Qed.

Example parseInt_rounds :
  parseInt (js "123456789012345678901234") = Some (Num 123456789012345685803008).
Proof. vm_compute. reflexivity. Qed.

Example parseInt_exponent : parseInt (js "1e+21") = Some (Num 1).
Proof. vm_compute. reflexivity. Qed.

End NumberSamples.

(** ** config.ts: what [parseArgs] can produce *)

Section Arguments.

Import RalphyConfig.

Lemma or_default_nonzero (x : option number) (d : number) :
  d <> Num 0 -> or_default x d <> Num 0.
Proof. intros Hd. destruct x as [[[| |]| |]|]; simpl; congruence. Qed.

Lemma str_or_nonempty (t d : jsstring) : d <> [] -> str_or t d <> [].
Proof. intros Hd. destruct t; simpl; congruence. Qed.

Lemma set_same (k : key) (v : value) (config : Partial) : set k v config k = Some v.
Proof. unfold set. destruct (key_eq_dec k k); congruence. Qed.

Lemma set_other (k k' : key) (v : value) (config : Partial) :
  k <> k' -> set k v config k' = config k'.
Proof. intros H. unfold set. destruct (key_eq_dec k k'); congruence. Qed.

Lemma set_entries (k : key) (v : value) (config : Partial) :
  ok_entry k v -> (forall k' v', config k' = Some v' -> ok_entry k' v') ->
  forall k' v', set k v config k' = Some v' -> ok_entry k' v'.
Proof.
  intros Hv Hc k' v'. unfold set. destruct (key_eq_dec k k') as [<-|]; [|apply Hc].
  now intros [= <-].
Qed.

Lemma set_well_formed (k : key) (v : value) (config : Partial) :
  k <> prdSource -> ok_entry k v -> well_formed config -> well_formed (set k v config).
Proof.
  intros Hk Hv [He Hs]. split; [now apply set_entries|].
  unfold sourced in *. rewrite (set_other v config Hk).
  intros H. specialize (Hs H). unfold set. destruct (key_eq_dec k prdFile); congruence.
Qed.

Lemma set_source_well_formed (src : source) (k : key) (f : jsstring) (config : Partial) :
  (k = prdFile /\ f <> []) \/ (k = githubRepo /\ src = github) ->
  well_formed config ->
  well_formed (set k (Str f) (set prdSource (Source src) config)).
Proof.
  intros Hk [He Hs]. split.
  - apply set_entries; [destruct Hk as [[-> Hf]|[-> _]]; simpl; eauto|].
    apply set_entries; [simpl; eauto | exact He].
  - unfold sourced. destruct Hk as [[-> Hf]|[-> ->]].
    + intros _. rewrite set_same. discriminate.
    + rewrite set_other, set_same by discriminate. intros [H|H]; discriminate.
Qed.

Lemma parse_parts_well_formed (parts : list jsstring) :
  forall config, well_formed config -> well_formed (parse_parts parts config).
Proof.
  assert (H : forall n parts, List.length parts <= n ->
              forall config, well_formed config -> well_formed (parse_parts parts config)).
  { induction n as [|n IH]; intros [|arg rest] Hlen config Hc; simpl in *;
      try exact Hc; try lia.
    assert (IH1 : forall c, well_formed c -> well_formed (parse_parts rest c))
      by (apply IH; lia).
    assert (IH2 : forall v rest', rest = v :: rest' ->
                    forall c, well_formed c -> well_formed (parse_parts rest' c))
      by (intros v rest' -> c; apply IH; simpl in *; lia).
    assert (N3 : Num 3 <> Num 0) by discriminate.
    assert (N5 : Num 5 <> Num 0) by discriminate.
    repeat match goal with
           | |- context [if ?b then _ else _] => destruct b
           end;
      try (destruct rest as [|v rest']; [|apply (IH2 v rest' eq_refl)]);
      try apply IH1;
      try exact Hc;
      repeat (first [ apply set_source_well_formed;
                      [first [ left; split; [reflexivity|];
                               first [discriminate | apply str_or_nonempty; discriminate]
                             | right; split; reflexivity ]|]
                    | apply set_well_formed; [discriminate | |] ]);
      try exact Hc;
      simpl; eauto using or_default_nonzero. }
  intros config. apply (H (List.length parts)). lia.
Qed.

Lemma parseArgs_well_formed (args : jsstring) : well_formed (parseArgs args).
Proof. apply parse_parts_well_formed. split; [discriminate | intros [H|H]; discriminate]. Qed.

(** X1: [parseArgs] never switches a flag off: a boolean option it sets is
    set to [true], so a flag that is on in the configuration is still on
    after [Object.assign(config, parseArgs(args))], whatever the arguments. *)
Theorem parseArgs_only_switches_on (config : Full) (args : jsstring) (k : key)
    (Hflag : is_flag k = true) :
  (forall v, parseArgs args k = Some v -> v = Bool true)
  /\ (config k = Bool true -> assign config (parseArgs args) k = Bool true).
Proof.
  destruct (parseArgs_well_formed args) as [He _].
  assert (H : forall v, parseArgs args k = Some v -> v = Bool true).
  { intros v Hv. specialize (He k v Hv). destruct k; simpl in *; try discriminate; exact He. }
  split; [exact H|].
  intros Hon. unfold assign. destruct (parseArgs args k) as [v|] eqn:E; [now apply H | exact Hon].
Qed.

Lemma parseArgs_only_switches_on_witness :
  assign (assign defaultConfig (parseArgs (js "--parallel --fast")))
    (parseArgs (js "--max-parallel 2 --dry-run")) parallel = Bool true.
Proof.
  exact (proj2 (parseArgs_only_switches_on
                  (assign defaultConfig (parseArgs (js "--parallel --fast")))
                  (js "--max-parallel 2 --dry-run") parallel eq_refl) eq_refl).
Defined.





End Arguments.

(** ** utils.ts: slugs, escaped patterns, truncated texts and durations *)

Section Texts.

Import Utils.

Lemma no_double_hyphen_app (a b : jsstring) :
  no_double_hyphen (a ++ b) = true -> no_double_hyphen a = true /\ no_double_hyphen b = true.
Proof.
  induction a as [|x a IH]; [simpl; auto|].
  destruct a as [|y a].
  - simpl. destruct b as [|z b]; [auto|]. rewrite andb_true_iff. tauto.
  - change ((x :: y :: a) ++ b) with (x :: y :: (a ++ b)).
    change (no_double_hyphen (x :: y :: a ++ b))
      with (negb (N.eqb x 45 && N.eqb y 45) && no_double_hyphen ((y :: a) ++ b))%bool.
    change (no_double_hyphen (x :: y :: a))
      with (negb (N.eqb x 45 && N.eqb y 45) && no_double_hyphen (y :: a))%bool.
    rewrite !andb_true_iff. intros [H1 H2]. destruct (IH H2). auto.
Qed.

Lemma collapse_runs_single (b : bool) (s : jsstring) :
  no_double_hyphen (collapse_runs b s) = true.
Proof.
  revert b; induction s as [|c s IH]; intros b; [reflexivity|].
  cbn [collapse_runs]. destruct (is_slug_unit c) eqn:Hc.
  - apply is_slug_unit_spec in Hc. destruct Hc as [_ Hc].
    specialize (IH false). destruct (collapse_runs false s) as [|y r]; [reflexivity|].
    change (no_double_hyphen (c :: y :: r))
      with (negb (N.eqb c 45 && N.eqb y 45) && no_double_hyphen (y :: r))%bool.
    rewrite IH. destruct (N.eqb_spec c 45); [congruence | reflexivity].
  - destruct b; [apply IH|].
    pose proof (collapse_runs_in_run_head s) as Hh. specialize (IH true).
    destruct (collapse_runs true s) as [|y r]; [reflexivity|].
    change (no_double_hyphen (45%N :: y :: r))
      with (negb (N.eqb 45 45 && N.eqb y 45) && no_double_hyphen (y :: r))%bool.
    rewrite IH. simpl in Hh. destruct (N.eqb_spec y 45); [congruence | reflexivity].
Qed.

Lemma strip_leading_suffix (s : jsstring) : exists a, s = a ++ strip_leading s.
Proof.
  destruct s as [|c s]; [now exists []|]. simpl.
  destruct (N.eqb c 45); [now exists [c] | now exists []].
Qed.

Lemma strip_trailing_prefix (s : jsstring) : exists b, s = strip_trailing s ++ b.
Proof.
  unfold strip_trailing. destruct (rev s) as [|c r] eqn:E.
  - exists s. reflexivity.
  - destruct (N.eqb c 45); [|exists []; now rewrite app_nil_r].
    exists [c]. apply (f_equal (@rev N)) in E. now rewrite rev_involutive in E.
Qed.

Lemma has_slug_unit_collapse (b : bool) (s : jsstring) :
  existsb is_slug_unit (collapse_runs b s) = existsb is_slug_unit s.
Proof.
  revert b; induction s as [|c s IH]; intros b; [reflexivity|].
  cbn [collapse_runs existsb]. destruct (is_slug_unit c) eqn:Hc.
  - cbn [existsb]. now rewrite Hc.
  - destruct b; cbn [existsb]; rewrite ?IH; reflexivity.
Qed.

Lemma has_slug_unit_strip_leading (s : jsstring) :
  existsb is_slug_unit (strip_leading s) = existsb is_slug_unit s.
Proof.
  destruct s as [|c s]; [reflexivity|]. simpl.
  destruct (N.eqb_spec c 45) as [->|]; reflexivity.
Qed.

Lemma has_slug_unit_strip_trailing (s : jsstring) :
  existsb is_slug_unit (strip_trailing s) = existsb is_slug_unit s.
Proof.
  unfold strip_trailing. destruct (rev s) as [|c r] eqn:E.
  - apply (f_equal (@rev N)) in E. rewrite rev_involutive in E. now subst.
  - destruct (N.eqb_spec c 45) as [->|]; [|reflexivity].
    apply (f_equal (@rev N)) in E. rewrite rev_involutive in E. subst s.
    simpl. rewrite existsb_app. simpl. now rewrite !orb_false_r.
Qed.

Lemma only_hyphens (s : jsstring) :
  Forall slug_unit s -> existsb is_slug_unit s = false -> hd_error s <> Some 45%N -> s = [].
Proof.
  destruct s as [|c s]; [reflexivity|]. intros Hu He Hh. exfalso.
  inversion Hu as [|? ? Hc _]; subst. simpl in He. apply orb_false_iff in He.
  destruct He as [He _]. apply Hh. simpl. f_equal.
  unfold is_slug_unit in He. unfold slug_unit in Hc.
  rewrite orb_false_iff, !andb_false_iff, !N.leb_gt in He. lia.
Qed.

(** X4: a slug never has two hyphens next to each other, and it is empty
    exactly when the lowered text holds no unit of [a-z0-9]. *)
Theorem slugify_hyphens_and_emptiness (lower : jsstring -> jsstring) (text : jsstring) :
  no_double_hyphen (slugify_with lower text) = true
  /\ (slugify_with lower text = [] <-> existsb is_slug_unit (lower text) = false).
Proof.
  unfold slugify_with.
  set (c := collapse_runs false (lower text)).
  set (x := strip_trailing (strip_leading c)).
  assert (Hx : no_double_hyphen x = true).
  { pose proof (collapse_runs_single false (lower text)) as H. fold c in H.
    destruct (strip_leading_suffix c) as [a Ea]. rewrite Ea in H.
    apply no_double_hyphen_app in H. destruct H as [_ H].
    destruct (strip_trailing_prefix (strip_leading c)) as [b Eb]. rewrite Eb in H.
    apply no_double_hyphen_app in H. tauto. }
  split.
  - rewrite <- (firstn_skipn 50 x) in Hx. apply no_double_hyphen_app in Hx. tauto.
  - assert (He : existsb is_slug_unit x = existsb is_slug_unit (lower text)).
    { unfold x, c.
      now rewrite has_slug_unit_strip_trailing, has_slug_unit_strip_leading,
        has_slug_unit_collapse. }
    rewrite <- He. split.
    + intros E. destruct x; [reflexivity | discriminate].
    + intros Hn. replace x with (@nil N); [reflexivity|]. symmetry.
      apply only_hyphens; [| exact Hn |].
      * apply strip_trailing_units, strip_leading_units, collapse_runs_units.
      * apply strip_trailing_head, strip_leading_head.
Qed.

Lemma special_is_syntax (c : N) : is_regex_special c = is_syntax_character c.
Proof.
  apply eq_true_iff_eq. unfold is_regex_special, is_syntax_character.
  rewrite !existsb_exists. split; intros [x [Hin Hx]]; exists x; (split; [|exact Hx]);
    simpl in *; repeat destruct Hin as [Hin|Hin]; auto 20.
Qed.

Lemma literal_pattern_escape (text : jsstring) :
  literal_pattern (escapeRegex text) = Some text.
Proof.
  induction text as [|c text IH]; [reflexivity|].
  unfold escapeRegex in *. cbn [flat_map].
  destruct (is_regex_special c) eqn:Hc.
  - cbn [app literal_pattern]. rewrite N.eqb_refl, <- special_is_syntax, Hc, IH. reflexivity.
  - cbn [app literal_pattern].
    destruct (N.eqb_spec c 92) as [->|_]; [discriminate Hc|].
    rewrite <- special_is_syntax, Hc, IH. reflexivity.
Qed.

(** X5: a pattern made by [escapeRegex] holds literal atoms only and
    matches the text it was made from, unit by unit; so does the pattern of
    the checklist's [markComplete], which matches the pending marker
    followed by the task. *)
Theorem escapeRegex_matches_literally (text : jsstring) :
  literal_pattern (escapeRegex text) = Some text
  /\ literal_pattern (js "- \[ \] " ++ escapeRegex text)
     = Some (Markdown.pending_marker ++ text).
Proof.
  split; [apply literal_pattern_escape|].
  change (js "- \[ \] ") with [45; 32; 92; 91; 32; 92; 93; 32]%N.
  cbn [app]. cbn -[escapeRegex]. rewrite literal_pattern_escape. reflexivity.
Qed.

(** X6: with a limit of at least 3, [truncate] gives a text within the
    limit that keeps the first [limit - 3] units of the original, and
    truncating again changes nothing. *)
Theorem truncate_within_limit (text : jsstring) (len : nat) (Hlen : 3 <= len) :
  List.length (truncate text len) = Nat.min (List.length text) len
  /\ firstn (len - 3) (truncate text len) = firstn (len - 3) text
  /\ truncate (truncate text len) len = truncate text len.
Proof.
  assert (Hfix : forall t, List.length t <= len -> truncate t len = t).
  { intros t Ht. unfold truncate. destruct (Nat.leb_spec (List.length t) len); [reflexivity | lia]. }
  destruct (Nat.le_gt_cases (List.length text) len) as [Hfit|Hcut].
  - rewrite !(Hfix text Hfit). split; [lia | auto].
  - assert (E : truncate text len = firstn (len - 3) text ++ js "...").
    { unfold truncate. destruct (Nat.leb_spec (List.length text) len); [lia|].
      destruct (Nat.leb_spec 3 len); [reflexivity | lia]. }
    assert (Hl : List.length (firstn (len - 3) text ++ js "...") = len).
    { rewrite length_app, length_firstn. simpl. lia. }
    rewrite E. split; [rewrite Hl; lia|]. split.
    + rewrite firstn_app, length_firstn.
      replace (len - 3 - Nat.min (len - 3) (List.length text)) with 0 by lia.
      rewrite firstn_firstn. simpl. rewrite app_nil_r. f_equal. lia.
    + apply Hfix. lia.
Qed.

Lemma truncate_within_limit_witness :
  List.length (truncate (js "Implement the login page") 10) = 10
  /\ truncate (js "Implement the login page") 10 = js "Impleme...".
Proof.
  split; [|reflexivity].
  exact (proj1 (truncate_within_limit (js "Implement the login page") (len := 10)
                  ltac:(lia))).
Defined.

(** With a limit below 3 the end of the slice counts from the end of the
    text, and the result is longer than the limit. *)
Example truncate_small_limit : truncate (js "abcdef") 2 = js "abcde...".
Proof. reflexivity. Qed.

End Texts.

(** ** utils.ts: durations *)

Section Durations.

Import Utils.

Local Open Scope Z_scope.

Lemma plain_toString (z : Z) : 0 <= z < 2 ^ 53 -> numberToString (Num z) = dec (Z.to_N z).
Proof.
  intros Hz. destruct z as [|p|p]; [reflexivity | | lia].
  cbn [numberToString Z.to_N]. unfold pos_toString, shortest.
  assert (Hp : (N.pos p < 2 ^ 53)%N) by lia.
  rewrite (shortest_from_small _ Hp).
  destruct (N.ltb_spec (N.pos p) (10 ^ 21)) as [|Hge]; [reflexivity|].
  assert (2 ^ 53 < 10 ^ 21)%N by (vm_compute; reflexivity). lia.
Qed.

(** X7: for a duration of 0 to 2^53 milliseconds [formatDuration] splits
    the whole seconds into minutes and fewer than 60 seconds without losing
    any, prints both in plain decimal digits, and leaves the minutes out
    when there are none. *)
Theorem formatDuration_splits_seconds (ms : Z) (Hms : 0 <= ms < 2 ^ 53) :
  exists m s,
    0 <= s < 60 /\ 0 <= m /\ 60 * m + s = ms / 1000
    /\ formatDuration ms
       = if 0 <? m then dec (Z.to_N m) ++ js "m " ++ dec (Z.to_N s) ++ js "s"
         else dec (Z.to_N s) ++ js "s".
Proof.
  set (seconds := ms / 1000).
  assert (Hs : 0 <= seconds < 2 ^ 53).
  { unfold seconds. split; [apply Z.div_pos; lia|].
    apply Z.div_lt_upper_bound; lia. }
  exists (seconds / 60), (Z.rem seconds 60).
  assert (Hrem : Z.rem seconds 60 = seconds mod 60) by (apply Z.rem_mod_nonneg; lia).
  assert (Hmod := Z.mod_pos_bound seconds 60 ltac:(lia)).
  assert (Hdiv := Z.div_mod seconds 60 ltac:(lia)).
  assert (Hm : 0 <= seconds / 60 < 2 ^ 53).
  { split; [apply Z.div_pos; lia|]. apply Z.div_lt_upper_bound; lia. }
  split; [lia|]. split; [lia|]. split; [lia|].
  unfold formatDuration. fold seconds.
  destruct (Z.ltb_spec 0 (seconds / 60)) as [Hpos|Hzero].
  - rewrite !plain_toString by lia. reflexivity.
  - rewrite plain_toString by lia. do 2 f_equal.
    assert (seconds / 60 = 0) by lia. lia.
Qed.

Lemma formatDuration_splits_seconds_witness :
  formatDuration 125900 = js "2m 5s"
  /\ exists m s,
       0 <= s < 60 /\ 0 <= m /\ 60 * m + s = 125900 / 1000
       /\ formatDuration 125900
          = if 0 <? m then dec (Z.to_N m) ++ js "m " ++ dec (Z.to_N s) ++ js "s"
            else dec (Z.to_N s) ++ js "s".
Proof.
  split; [vm_compute; reflexivity|].
  apply (formatDuration_splits_seconds (ms := 125900)). lia.
Defined.

End Durations.

(** ** task-sources/markdown.ts: counts and the rewrite of one line *)

Section ChecklistCounts.

Import Markdown.

Local Abbreviation pending_count :=
  (fun ls => List.length (filter (startsWith pending_box) ls)).
Local Abbreviation done_count := (fun ls => List.length (filter (startsWith done_box) ls)).

Lemma startsWith_prefix (a b s : jsstring) :
  startsWith (a ++ b) s = true -> startsWith a s = true.
Proof.
  intros H. apply startsWith_iff in H. destruct H as [r ->].
  rewrite <- app_assoc. apply startsWith_app.
Qed.

Lemma title_after_counted (box marker tail : jsstring) (ls : list jsstring) :
  marker = box ++ tail ->
  List.length (flat_map (title_after marker) ls)
  <= List.length (filter (startsWith box) ls).
Proof.
  intros ->. induction ls as [|l ls IH]; [reflexivity|].
  cbn [flat_map filter]. rewrite length_app. unfold title_after at 1.
  destruct (startsWith (box ++ tail) l) eqn:Hm.
  - rewrite (startsWith_prefix _ _ _ Hm).
    destruct (Nat.ltb _ _); simpl; lia.
  - simpl. destruct (startsWith box l); simpl; lia.
Qed.

(** X8: the checklist counts lines by their box alone, and lists a task
    only when a title follows the box: there are never more remaining tasks
    than [countRemaining] says, never more tasks than the two counts
    together, and when [countRemaining] is 0 there is no next task; a listed
    task is never empty and never holds a line terminator. *)
Theorem checklist_counts_bound_tasks (f : Utils.file) :
  List.length (getRemainingTasks f) <= countRemaining f
  /\ List.length (getAllTasks f) <= countRemaining f + countCompleted f
  /\ (countRemaining f = 0 -> getNextTask f = None)
  /\ Forall (fun t => t <> [] /\ no_terminator t) (getRemainingTasks f).
Proof.
  assert (Hlisted : Forall (fun t => t <> [] /\ no_terminator t) (getRemainingTasks f)).
  { apply Forall_forall. intros t Ht. unfold getRemainingTasks in Ht.
    apply in_flat_map in Ht. destruct Ht as [line [Hline Ht]].
    apply pend_units in Ht. destruct Ht as [Hne Hnt]. split; [exact Hne|]. apply Hnt.
    pose proof (split_lines_wf (Utils.readFile f)) as Hwf. unfold line_texts in Hline.
    destruct (split_lines (Utils.readFile f)) as [l r]. destruct Hwf as [Hl Hr].
    destruct Hline as [<-|Hline]; [exact Hl|].
    apply in_map_iff in Hline. destruct Hline as [[c x] [<- Hx]].
    rewrite Forall_forall in Hr. exact (proj2 (Hr _ Hx)). }
  cut (List.length (getRemainingTasks f) <= countRemaining f
       /\ List.length (getAllTasks f) <= countRemaining f + countCompleted f
       /\ (countRemaining f = 0 -> getNextTask f = None)); [tauto|].
  assert (H1 : List.length (getRemainingTasks f) <= countRemaining f)
    by (apply (@title_after_counted pending_box pending_marker [32%N]); reflexivity).
  assert (H2 : List.length (flat_map (title_after done_marker)
                              (line_texts (Utils.readFile f))) <= countCompleted f)
    by (apply (@title_after_counted done_box done_marker [32%N]); reflexivity).
  split; [exact H1|]. split.
  - unfold getAllTasks. rewrite length_app, !length_map.
    unfold getRemainingTasks in H1. lia.
  - intros H0. unfold getNextTask.
    destruct (getRemainingTasks f); [reflexivity | simpl in H1; lia].
Qed.

(** A pending line without a title is counted and not listed. *)
Example box_without_title :
  countRemaining (Some (js "- [ ]")) = 1 /\ getNextTask (Some (js "- [ ]")) = None.
Proof. split; reflexivity. Qed.

Lemma find_lines_none (pat l : jsstring) (r : list (N * jsstring)) :
  existsb (startsWith pat) (l :: List.map snd r) = false -> find_lines pat l r = None.
Proof.
  revert l; induction r as [|[c l1] r IH]; intros l; cbn [existsb List.map snd find_lines];
    rewrite orb_false_iff; intros [-> H]; [reflexivity|].
  now rewrite (IH l1 H).
Qed.

Lemma mark_lines_counts (t : jsstring) (r : list (N * jsstring)) :
  forall l,
    existsb (startsWith (pending_marker ++ t)) (l :: List.map snd r) = true ->
    exists l' r',
      mark_lines (pending_marker ++ t) (done_marker ++ t) l r = Some (l', r')
      /\ pending_count (l :: List.map snd r) = S (pending_count (l' :: List.map snd r'))
      /\ done_count (l' :: List.map snd r') = S (done_count (l :: List.map snd r))
      /\ (lines_wf (l, r) -> no_terminator t -> lines_wf (l', r')).
Proof.
  assert (Hhere : forall l (r0 : list (N * jsstring)),
             startsWith (pending_marker ++ t) l = true ->
             let l' := (done_marker ++ t) ++ skipn (List.length (pending_marker ++ t)) l in
             pending_count (l :: List.map snd r0) = S (pending_count (l' :: List.map snd r0))
             /\ done_count (l' :: List.map snd r0) = S (done_count (l :: List.map snd r0))
             /\ (lines_wf (l, r0) -> no_terminator t -> lines_wf (l', r0))).
  { intros l r0 Hs l'. apply startsWith_iff in Hs. destruct Hs as [rest ->].
    unfold l'. rewrite skipn_app, skipn_all, Nat.sub_diag. cbn [skipn app].
    rewrite <- !app_assoc. split; [reflexivity|]. split; [reflexivity|].
    unfold lines_wf. cbn [fst snd]. intros [Hl Hr] Hnt. split; [|exact Hr].
    apply no_terminator_app in Hl. destruct Hl as [_ Hl].
    apply (no_terminator_app done_marker (t ++ rest)). split; [reflexivity | exact Hl]. }
  induction r as [|[c l1] r IH]; intros l; cbn [existsb List.map snd mark_lines];
    destruct (startsWith (pending_marker ++ t) l) eqn:Hs; cbn [orb].
  - intros _. destruct (Hhere l [] Hs) as [H1 [H2 H3]]. eauto 10.
  - discriminate.
  - intros _. destruct (Hhere l ((c, l1) :: r) Hs) as [H1 [H2 H3]]. eauto 10.
  - intros He. destruct (IH l1 He) as [l1' [r' [Hm [Hp [Hd Hwf]]]]].
    rewrite Hm. exists l, ((c, l1') :: r'). split; [reflexivity|].
    cbn [List.map snd filter] in *.
    split; [destruct (startsWith pending_box l); cbn [List.length]; lia|].
    split; [destruct (startsWith done_box l); cbn [List.length]; lia|].
    unfold lines_wf. cbn [fst snd]. intros [Hl Hr] Hnt.
    inversion Hr as [|? ? Hc1 Hr']; subst.
    destruct (Hwf (conj (proj2 Hc1) Hr') Hnt) as [Hl1' Hr''].
    split; [exact Hl|]. constructor; [split; [exact (proj1 Hc1) | exact Hl1'] | exact Hr''].
Qed.

(** X9: for a task without line terminators and without the replacement
    patterns [$$], [$&], [$`], [$'], the checklist's [markComplete] either
    finds a pending line that begins with the task and moves exactly one
    line from pending to completed, or finds none and writes the text back
    as it read it. *)
Theorem checklist_markComplete_moves_one_line (f : Utils.file) (t : jsstring)
    (Hline : no_terminator t) (Hplain : no_substitution t = true) :
  if existsb (startsWith (pending_marker ++ t)) (line_texts (Utils.readFile f))
  then countRemaining f = S (countRemaining (markComplete t f))
       /\ countCompleted (markComplete t f) = S (countCompleted f)
  else markComplete t f = Some (Utils.readFile f).
Proof.
  unfold countRemaining, countCompleted, count_lines, markComplete, Utils.writeFile.
  cbn [Utils.readFile]. set (content := Utils.readFile f).
  pose proof (split_lines_wf content) as Hwf.
  pose proof (join_split content) as Hjoin.
  assert (Hpat : no_terminator (pending_marker ++ t))
    by (apply (no_terminator_app pending_marker t); split; [reflexivity | exact Hline]).
  assert (Hfind : find_at_line_start (pending_marker ++ t) true content
                  = find_lines (pending_marker ++ t) (fst (split_lines content))
                      (snd (split_lines content))).
  { rewrite <- Hjoin at 1. apply find_as_lines; [exact Hpat | discriminate | exact Hwf]. }
  assert (Hlt : line_texts content
                = fst (split_lines content) :: List.map snd (snd (split_lines content)))
    by (unfold line_texts; now destruct (split_lines content)).
  destruct (split_lines content) as [l r]. cbn [fst snd] in Hfind, Hlt.
  rewrite !Hlt.
  destruct (existsb _ (l :: List.map snd r)) eqn:He.
  - destruct (mark_lines_counts t r l He) as [l' [r' [Hm [Hp [Hd Hwf']]]]].
    specialize (Hwf' Hwf Hline).
    assert (Hrep : replace_first_at_line_start (pending_marker ++ t) (done_marker ++ t) content
                   = join_lines (l', r')).
    { unfold replace_first_at_line_start. rewrite Hfind.
      pose proof (mark_as_lines (pending_marker ++ t) (done_marker ++ t) l r) as Hma.
      rewrite Hm in Hma. rewrite <- Hma.
      destruct (find_lines (pending_marker ++ t) l r) as [[b a]|]; [|now rewrite <- Hjoin].
      f_equal. f_equal. cbn [app done_marker GetSubstitution N.eqb Pos.eqb].
      now rewrite GetSubstitution_plain. }
    rewrite Hrep, !(line_texts_join Hwf'). cbn [fst snd]. split; [exact Hp | exact Hd].
  - unfold replace_first_at_line_start. rewrite Hfind, (find_lines_none _ _ _ He). reflexivity.
Qed.

Lemma checklist_markComplete_moves_one_line_witness :
  countRemaining (Some three_pending_one_done)
  = S (countRemaining (markComplete (js "two") (Some three_pending_one_done)))
  /\ countCompleted (markComplete (js "two") (Some three_pending_one_done))
     = S (countCompleted (Some three_pending_one_done)).
Proof.
  exact (checklist_markComplete_moves_one_line (Some three_pending_one_done) (t := js "two")
           eq_refl eq_refl).
Defined.

End ChecklistCounts.

(** ** task-sources/yaml.ts: counts, groups and the rewrite of the file *)

Section StructuredBacklog.

Import Yaml.

Lemma filter_split_length {A} (p : A -> bool) (l : list A) :
  List.length (filter (fun x => negb (p x)) l) + List.length (filter p l) = List.length l.
Proof. induction l as [|x l IH]; simpl; [reflexivity|]. destruct (p x); simpl; lia. Qed.

(** X10: in the structured backlog the counts agree with the lists: there
    are [countRemaining] remaining tasks, the two counts add up to the
    number of tasks, and no listed title is empty or holds a line feed. *)
Theorem yaml_counts_agree_with_lists (f : Utils.file) :
  countRemaining f = List.length (getRemainingTasks f)
  /\ countRemaining f + countCompleted f = List.length (getAllTasks f)
  /\ Forall (fun t => task_title t <> [] /\ ~ In LF (task_title t)) (getAllTasks f).
Proof.
  unfold countRemaining, countCompleted, getRemainingTasks, getAllTasks.
  rewrite !length_map. split; [reflexivity|]. split; [apply filter_split_length|].
  apply Forall_map. eapply Forall_impl; [|apply parseFile_ok].
  intros t [H1 [H2 _]]. simpl. auto.
Qed.

Lemma filter_both {A} (p q : A -> bool) (l : list A) :
  filter (fun x => (p x && q x)%bool) l = filter q (filter p l).
Proof.
  induction l as [|x l IH]; simpl; [reflexivity|].
  destruct (p x); simpl; [|exact IH]. destruct (q x); now rewrite IH.
Qed.

Lemma flat_map_app_perm {A B} (f g : A -> list B) (l : list A) :
  Permutation (flat_map (fun x => f x ++ g x) l) (flat_map f l ++ flat_map g l).
Proof.
  induction l as [|x l IH]; simpl; [constructor|].
  rewrite <- !app_assoc. apply Permutation_app_head.
  rewrite IH, !app_assoc. apply Permutation_app_tail, Permutation_app_comm.
Qed.

Lemma flat_map_single {A} (x : A) (k : number) (ks : list number) :
  NoDup ks -> In k ks ->
  flat_map (fun g => if number_eqb k g then [x] else []) ks = [x].
Proof.
  induction 1 as [|g ks Hn Hd IH]; [easy|]. simpl.
  destruct (number_eqb k g) eqn:E.
  - apply number_eqb_eq in E. subst g. intros _. simpl. f_equal.
    clear IH Hd. induction ks as [|h ks IHk]; [reflexivity|]. simpl.
    destruct (number_eqb k h) eqn:E'.
    + apply number_eqb_eq in E'. subst h. exfalso. apply Hn. now left.
    + apply IHk. intros H. apply Hn. now right.
  - intros [->|Hin]; [|now apply IH].
    assert (number_eqb k k = true) by now apply number_eqb_eq. congruence.
Qed.

Lemma partition_by_group {A} (key : A -> number) (ks : list number) (l : list A) :
  NoDup ks -> (forall x, In x l -> In (key x) ks) ->
  Permutation (flat_map (fun g => filter (fun x => number_eqb (key x) g) l) ks) l.
Proof.
  intros Hn. induction l as [|x l IH]; intros Hin.
  - clear. induction ks as [|k ks IHk]; simpl; [constructor | exact IHk].
  - simpl.
    assert (E : forall g, (if number_eqb (key x) g
                           then x :: filter (fun y => number_eqb (key y) g) l
                           else filter (fun y => number_eqb (key y) g) l)
                          = (if number_eqb (key x) g then [x] else [])
                            ++ filter (fun y => number_eqb (key y) g) l)
      by (intros g; destruct (number_eqb (key x) g); reflexivity).
    rewrite (flat_map_ext _ _ E), flat_map_app_perm.
    rewrite flat_map_single; [|exact Hn | apply Hin; now left].
    simpl. constructor. apply IH. intros y Hy. apply Hin. now right.
Qed.

(** X11: the parallel groups split the remaining tasks: every group that
    [getParallelGroups] returns has a task, and the tasks of all the groups
    together are the remaining tasks, each once. *)
Theorem groups_partition_remaining_tasks (f : Utils.file) :
  Permutation (flat_map (fun g => getTasksByGroup g f) (getParallelGroups f))
    (getRemainingTasks f)
  /\ Forall (fun g => getTasksByGroup g f <> []) (getParallelGroups f).
Proof.
  unfold getParallelGroups, getTasksByGroup, getRemainingTasks.
  destruct (collect_groups (parseFile f) (NoDup_nil _)) as [Hn Hin].
  set (groups := sort_numbers (fold_left collect (parseFile f) [])).
  assert (Hnd : NoDup groups) by (apply strictly_sorted_NoDup, sort_numbers_sorted, Hn).
  assert (Hg : forall g, In g groups <->
                 exists t, In t (parseFile f) /\ completed t = false /\ group_of t = g).
  { intros g. unfold groups. rewrite sort_numbers_In, Hin. simpl. tauto. }
  set (pending := filter (fun t => negb (completed t)) (parseFile f)).
  assert (E : forall g, List.map title
                (filter (fun t => (negb (completed t) && number_eqb (group_of t) g)%bool)
                   (parseFile f))
              = List.map title (filter (fun t => number_eqb (group_of t) g) pending)).
  { intros g. unfold pending. now rewrite filter_both. }
  split.
  - rewrite (flat_map_ext _ _ E).
    assert (Hmap : forall ks,
               flat_map (fun g => List.map title
                                    (filter (fun t => number_eqb (group_of t) g) pending)) ks
               = List.map title
                   (flat_map (fun g => filter (fun t => number_eqb (group_of t) g) pending) ks)).
    { induction ks as [|k ks IH]; simpl; [reflexivity|]. now rewrite IH, map_app. }
    rewrite Hmap. apply Permutation_map, partition_by_group; [exact Hnd|].
    intros t Ht. unfold pending in Ht. apply filter_In in Ht. destruct Ht as [Ht Hc].
    apply Hg. exists t. split; [exact Ht|]. split; [|reflexivity].
    now destruct (completed t).
  - apply Forall_forall. intros g Hgin. apply Hg in Hgin.
    destruct Hgin as [t [Ht [Hc Hgt]]]. rewrite E.
    assert (Hp : In t (filter (fun t => number_eqb (group_of t) g) pending)).
    { apply filter_In. split; [|now apply number_eqb_eq].
      unfold pending. apply filter_In. split; [exact Ht | now rewrite Hc]. }
    intros Hnil. apply (in_map title) in Hp. rewrite Hnil in Hp. exact Hp.
Qed.

Lemma complete_first_Forall (P : YamlTask -> Prop) (task : jsstring) (data : list YamlTask) :
  (forall t, P t -> P (mkYamlTask (title t) true (parallel_group t))) ->
  Forall P data -> Forall P (complete_first task data).
Proof.
  intros HP. induction 1 as [|t data Ht Hd IH]; simpl; [constructor|].
  destruct (JS.eqb (title t) task); constructor; auto.
Qed.

Lemma complete_first_twice (task : jsstring) (data : list YamlTask) :
  complete_first task (complete_first task data) = complete_first task data.
Proof.
  induction data as [|t data IH]; simpl; [reflexivity|].
  destruct (JS.eqb (title t) task) eqn:E; simpl; rewrite E; [reflexivity | now rewrite IH].
Qed.

(** X12: when the groups of the parsed tasks are below 10^21 in magnitude,
    reading the file again after the structured backlog's [markComplete]
    gives the tasks of before with the first task of that title completed
    and nothing else changed, and marking the same task a second time
    writes the same file. *)
Theorem yaml_markComplete_completes_first (f : Utils.file) (task : jsstring)
    (Hplain : Forall task_plain (parseFile f)) :
  parseFile (markComplete task f) = complete_first task (parseFile f)
  /\ markComplete task (markComplete task f) = markComplete task f.
Proof.
  assert (H : parseFile (markComplete task f) = complete_first task (parseFile f)).
  { unfold markComplete. rewrite parseFile_written.
    apply stringify_parse.
    - apply complete_first_Forall; [|apply parseFile_ok].
      intros t [H1 [H2 H3]]. repeat split; assumption.
    - apply complete_first_Forall; [|exact Hplain]. intros t Ht. exact Ht. }
  split; [exact H|].
  unfold markComplete at 1. rewrite H, complete_first_twice. reflexivity.
Qed.

(** X13: [stringifyYaml] followed by [parseSimpleYaml] gives back the task
    list, for tasks whose titles are not empty and hold no line feed and
    whose groups are doubles below 10^21 in magnitude. *)
Theorem stringifyYaml_reads_back (data : list YamlTask)
    (Hok : Forall task_ok data) (Hplain : Forall task_plain data) :
  parseSimpleYaml (stringifyYaml data) = data.
Proof. exact (stringify_parse Hok Hplain). Qed.

Lemma yaml_markComplete_completes_first_witness :
  parseFile (markComplete (js "fix bug") (Some Executor.two_groups))
  = [mkYamlTask (js "Fix bug") false (Some (Num 1));
     mkYamlTask (js "fix bug") true (Some (Num 2))].
Proof.
  assert (E : parseFile (Some Executor.two_groups)
              = [mkYamlTask (js "Fix bug") false (Some (Num 1));
                 mkYamlTask (js "fix bug") false (Some (Num 2))])
    by (vm_compute; reflexivity).
  assert (Hplain : Forall task_plain (parseFile (Some Executor.two_groups))).
  { rewrite E.
    repeat constructor; intros g [= <-]; eexists; (split; [reflexivity | reflexivity]). }
  rewrite (proj1 (@yaml_markComplete_completes_first (Some Executor.two_groups)
                    (js "fix bug") Hplain)), E.
  reflexivity.
Defined.

Lemma stringifyYaml_reads_back_witness :
  parseSimpleYaml
    (stringifyYaml [mkYamlTask (js "Add search") true (Some (Num 2));
                    mkYamlTask (js "Write docs") false None])
  = [mkYamlTask (js "Add search") true (Some (Num 2));
     mkYamlTask (js "Write docs") false None].
Proof.
  apply stringifyYaml_reads_back.
  - repeat constructor; try discriminate;
      try (intros H; simpl in H; unfold LF in H; intuition discriminate);
      intros g [= <-]; reflexivity.
  - repeat constructor; intros g [= <-]; eexists; (split; [reflexivity | reflexivity]).
Defined.

End StructuredBacklog.

(** ** git-manager.ts: what the commands of a call depend on *)

Section GitCommands.

Import Git.

(** X14: [mergeBranch] deletes a branch only after it has checked out the
    base branch and merged that branch successfully, and it reports success
    exactly when the deletion succeeded as well. *)
Theorem mergeBranch_deletes_only_merged
    (env : shell) (b base : jsstring) (h : list event) :
  let tr := issued (mergeBranch env b base) h in
  let h1 := h ++ [MergeBranchCall b] in
  let h2 := h1 ++ [Shell (GitCheckout base)] in
  let h3 := h2 ++ [Shell (GitMerge b)] in
  (forall x, In (Shell (GitBranchDelete x)) tr ->
     x = b /\ (exists t1, env h1 (GitCheckout base) = Ok t1)
     /\ exists t2, env h2 (GitMerge b) = Ok t2)
  /\ (fst (mergeBranch env b base h) = true <->
      In (Shell (GitBranchDelete b)) tr /\ exists t3, env h3 (GitBranchDelete b) = Ok t3).
Proof.
  cbv zeta. unfold mergeBranch. unfold issued, bind, emit, sh, ret. cbn [fst snd].
  destruct (env (h ++ [MergeBranchCall b]) (GitCheckout base)) as [|t1] eqn:E1;
    cbn [fst snd].
  - rewrite <- !app_assoc, skipn_app, skipn_all, Nat.sub_diag. cbn [app skipn].
    split.
    + intros x [H|[H|[H|[]]]]; discriminate.
    + split; [discriminate|]. intros [[H|[H|[H|[]]]] _]; discriminate.
  - destruct (env ((h ++ [MergeBranchCall b]) ++ [Shell (GitCheckout base)]) (GitMerge b))
      as [|t2] eqn:E2; cbn [fst snd].
    + rewrite <- !app_assoc, skipn_app, skipn_all, Nat.sub_diag. cbn [app skipn].
      split.
      * intros x [H|[H|[H|[H|[]]]]]; discriminate.
      * split; [discriminate|]. intros [[H|[H|[H|[H|[]]]]] _]; discriminate.
    + destruct (env (((h ++ [MergeBranchCall b]) ++ [Shell (GitCheckout base)])
                       ++ [Shell (GitMerge b)]) (GitBranchDelete b)) as [|t3] eqn:E3;
        cbn [fst snd]; rewrite <- !app_assoc, skipn_app, skipn_all, Nat.sub_diag;
        cbn [app skipn].
      * split.
        -- intros x [H|[H|[H|[H|[H|[]]]]]]; try discriminate.
           injection H as <-. eauto.
        -- split; [discriminate|]. intros [_ [t3 H]]. discriminate.
      * split.
        -- intros x [H|[H|[H|[H|[H|[]]]]]]; try discriminate.
           injection H as <-. eauto.
        -- split; [|reflexivity]. intros _. split; [|eauto]. simpl. auto 10.
Qed.

(** X15: [getConflictedFiles] never lists an empty name or a name with a
    line feed, and it lists nothing when the command fails. *)
Theorem getConflictedFiles_names (env : shell) (h : list event) :
  Forall (fun name => name <> [] /\ ~ In 10%N name) (fst (getConflictedFiles env h))
  /\ (env (h ++ [ConflictedFilesCall]) GitDiffConflicted = Fails ->
      fst (getConflictedFiles env h) = []).
Proof.
  unfold getConflictedFiles, bind, emit, sh, ret. cbn [fst snd].
  destruct (env (h ++ [ConflictedFilesCall]) GitDiffConflicted) as [|output].
  - split; [constructor | reflexivity].
  - split; [|discriminate]. apply Forall_forall. intros name Hin.
    apply filter_In in Hin. destruct Hin as [Hin Hne]. split.
    + destruct name; [discriminate | discriminate].
    + exact (split_no_sep _ _ _ Hin).
Qed.

Lemma dec_injective (a b : N) : dec a = dec b -> a = b.
Proof.
  unfold dec. intros E. apply (f_equal read_digits) in E.
  rewrite !read_digits_units in E.
  rewrite <- (DecimalN.Unsigned.of_to a), <- (DecimalN.Unsigned.of_to b). now rewrite E.
Qed.

(** X16: agents with different slot numbers never share a branch or a
    worktree directory, whatever their tasks (slot numbers below 2^53). *)
Theorem slots_do_not_share (base t1 t2 : jsstring) (n1 n2 : nat)
    (H1 : (N.of_nat n1 < 2 ^ 53)%N) (H2 : (N.of_nat n2 < 2 ^ 53)%N)
    (Hslots : n1 <> n2) :
  branchName t1 (Num (Z.of_nat n1)) <> branchName t2 (Num (Z.of_nat n2))
  /\ worktreeDir base (Num (Z.of_nat n1)) <> worktreeDir base (Num (Z.of_nat n2)).
Proof.
  split.
  - intros E. apply Hslots. exact (branchName_slot _ _ H1 H2 E).
  - unfold worktreeDir. rewrite !slot_toString by assumption.
    intros E. apply app_inv_head, app_inv_head, dec_injective in E. lia.
Qed.

Lemma slots_do_not_share_witness :
  branchName (js "Fix bug") (Num 1) <> branchName (js "fix bug") (Num 2)
  /\ worktreeDir (js "/tmp/ralphy-1") (Num 1) <> worktreeDir (js "/tmp/ralphy-1") (Num 2).
Proof.
  apply (@slots_do_not_share (js "/tmp/ralphy-1") (js "Fix bug") (js "fix bug") 1 2);
    [reflexivity | reflexivity | lia].
Defined.

End GitCommands.

(** ** git-manager.ts: a branch per task *)

Section TaskBranches.

Import TaskBranch.

(** X17: [createTaskBranch] returns the empty string or "ralphy/" followed
    by the slug of the task; it pops the stash exactly when it returns the
    branch, and reports the failure on the console exactly when it returns
    the empty string, so the changes it stashed stay stashed after a
    failure. *)
Theorem createTaskBranch_pops_stash_on_success
    (env : shell) (task base : jsstring) (h : list event) :
  let b := fst (createTaskBranch env task base h) in
  let tr := issued (createTaskBranch env task base) h in
  (b = [] \/ b = js "ralphy/" ++ Utils.slugify task)
  /\ (In (Run GitStashPop) tr <-> b <> [])
  /\ (In FailedToCreateTaskBranch tr <-> b = [])
  /\ hd_error tr = Some (Run GitStashPush).
Proof.
  cbv zeta. unfold createTaskBranch, failed, issued, bind, emit, run, ret. cbn [fst snd].
  repeat match goal with
         | |- context [match ?e ?hh ?c with Git.Fails => _ | Git.Ok _ => _ end] =>
             destruct (e hh c); cbn [fst snd]
         end;
    rewrite <- ?app_assoc; cbn [app];
    rewrite skipn_app, skipn_all, Nat.sub_diag; cbn [skipn app hd_error];
    (split; [auto|]); (split; [|split; [|reflexivity]]);
    split; intros H; simpl in *; try discriminate; try congruence;
    intuition (try discriminate; try congruence).
Qed.

End TaskBranches.

(** ** parallel-executor.ts: what a run records *)

Section Records.

Import Git Executor.

Context {Store : Type} {TS : TaskSource Store}.
Variable env : shell.
Variable directory worktreeBase : jsstring.

Local Abbreviation State := (@Executor.State Store).

(** [st'] has the backlog, the results and the tracker of [st]. *)
Local Abbreviation same_books st st' :=
  (store st' = store st /\ results st' = results st
   /\ completedBranches st' = completedBranches st).





Lemma branchName_nonempty (t : jsstring) (n : number) : nonempty (branchName t n) = true.
Proof. reflexivity. Qed.












End Records.

Section RecordSamples.

Import Git Executor.



(** With two slots and a cap of three, five tasks give four results. *)
Example cap_of_three_runs_four :
  option_map (fun st => List.map task (results st))
    (runBatches (TS := Markdown.source) calm (js "/repo") (js "/tmp/ralphy-1") capped_config
       [js "a"; js "b"; js "c"; js "d"; js "e"] (fresh None))
  = Some [js "a"; js "b"; js "c"; js "d"].
Proof. vm_compute. reflexivity. Qed.


End RecordSamples.

(** ** task-sources/github.ts: closing the issue of a task *)

Section Issues.

Import Github.

Variable gh : list jsstring -> spawned.
Variable repo : jsstring.

Lemma before_first_colon (prefix rest : jsstring) :
  ~ In 58%N prefix -> before_first 58 (prefix ++ 58%N :: rest) = prefix.
Proof.
  induction prefix as [|c prefix IH]; intros H; simpl; [reflexivity|].
  destruct (N.eqb_spec c 58) as [->|_]; [exfalso; apply H; now left|].
  rewrite IH; [reflexivity|]. intros Hin. apply H. now right.
Qed.

Lemma strip_zeros_incl (r : jsstring) : incl (strip_zeros r) r.
Proof.
  induction r as [|c r IH]; simpl; [apply incl_refl|].
  destruct (N.eqb c 48); [now apply incl_tl | apply incl_refl].
Qed.

Lemma dec_no_colon (n : N) : ~ In 58%N (dec n).
Proof.
  intros H. pose proof (uint_units_digits (N.to_uint n)) as Hd.
  rewrite Forall_forall in Hd. specialize (Hd _ H). lia.
Qed.

Lemma pos_toString_units (v : N) :
  pos_toString v <> [] /\ ~ In 58%N (pos_toString v).
Proof.
  unfold pos_toString. set (c := shortest v).
  assert (Hne : dec c <> []) by apply dec_visible.
  destruct (N.ltb c (10 ^ 21)); [split; [exact Hne | apply dec_no_colon]|].
  set (sig := rev (strip_zeros (rev (dec c)))).
  assert (Hsig : forall x, In x sig -> In x (dec c)).
  { intros x Hx. unfold sig in Hx. apply in_rev in Hx. apply strip_zeros_incl in Hx.
    now apply in_rev in Hx. }
  assert (He : ~ In 58%N (js "e+" ++ dec (N.of_nat (List.length (dec c) - 1)))).
  { intros H. apply in_app_or in H. destruct H as [H|H]; [|exact (dec_no_colon _ H)].
    simpl in H. intuition discriminate. }
  destruct sig as [|d [|d' more]]; [split; [exact Hne | apply dec_no_colon]| |].
  - split; [discriminate|]. intros [H|H]; [|exact (He H)].
    apply (dec_no_colon c). apply Hsig. left. congruence.
  - split; [discriminate|]. intros [H|[H|H]]; [| discriminate |].
    + apply (dec_no_colon c), Hsig. left. congruence.
    + change (In 58%N ((d' :: more) ++ js "e+" ++ dec (N.of_nat (List.length (dec c) - 1))))
        in H.
      apply in_app_or in H. destruct H as [H|H]; [|exact (He H)].
      apply (dec_no_colon c), Hsig. now right.
Qed.

Lemma numberToString_units (g : number) :
  numberToString g <> [] /\ ~ In 58%N (numberToString g).
Proof.
  destruct g as [[|p|p]| |]; cbn [numberToString].
  - split; [discriminate | simpl; intuition discriminate].
  - apply pos_toString_units.
  - destruct (pos_toString_units (N.pos p)) as [_ H]. split; [discriminate|].
    intros [E|Hin]; [discriminate | exact (H Hin)].
  - split; [discriminate | simpl; intuition discriminate].
  - split; [discriminate | simpl; intuition discriminate].
Qed.

(** X22: for a task ["<number>:<title>"] as the issue source lists them,
    [markComplete] runs one [gh] command, which closes the issue of that
    number in the repository of the source, whatever the title holds
    (colons included); it throws only when [gh] cannot be started. *)
Theorem github_markComplete_closes_numbered_issue (number : JS.number) (title : jsstring) :
  let args := [js "issue"; js "close"; numberToString number; js "--repo"; repo] in
  markComplete gh repo (numberToString number ++ js ":" ++ title)
  = ([args], match gh args with SpawnFails => Thrown | Exited _ => Returned tt end).
Proof.
  cbv zeta. unfold markComplete. cbn [app js List.map list_ascii_of_string].
  change (N_of_ascii ":") with 58%N.
  destruct (numberToString_units number) as [Hne Hc].
  rewrite (@before_first_colon (numberToString number) title Hc).
  destruct (numberToString number) as [|c r] eqn:E; [congruence|].
  unfold runGhCommand. destruct (gh _); reflexivity.
Qed.

(** A task that begins with a colon has no issue number: no command runs. *)
Example github_markComplete_without_number :
  markComplete gh repo (js ":title") = ([], Returned tt).
Proof. reflexivity. Qed.

End Issues.

(** ** prompt-builder.ts: the numbered steps *)

Section Prompts.

Import PromptBuilder.

Local Abbreviation no_feed := (forallb (fun c => negb (N.eqb c 10))).

Lemma dec_feed (n : N) : no_feed (dec n) = true.
Proof.
  apply forallb_forall. intros c Hc.
  pose proof (uint_units_digits (N.to_uint n)) as Hd.
  rewrite Forall_forall in Hd. specialize (Hd _ Hc).
  destruct (N.eqb_spec c 10); [lia | reflexivity].
Qed.

Lemma pos_toString_feed (v : N) : no_feed (pos_toString v) = true.
Proof.
  unfold pos_toString. set (c := shortest v).
  destruct (N.ltb c (10 ^ 21)); [apply dec_feed|].
  set (sig := rev (strip_zeros (rev (dec c)))).
  assert (Hsig : no_feed sig = true).
  { apply forallb_forall. intros x Hx. unfold sig in Hx. apply in_rev in Hx.
    apply strip_zeros_incl in Hx. apply in_rev in Hx.
    pose proof (dec_feed c) as Hd. rewrite forallb_forall in Hd. exact (Hd x Hx). }
  destruct sig as [|d [|d' more]]; [apply dec_feed| |].
  - cbn [forallb] in *. rewrite andb_true_iff in Hsig. destruct Hsig as [-> _].
    cbn [andb]. change (no_feed (js "e+" ++ dec (N.of_nat (List.length (dec c) - 1))) = true).
    rewrite forallb_app, dec_feed. reflexivity.
  - change (no_feed ((d :: [46%N]) ++ (d' :: more)
                     ++ js "e+" ++ dec (N.of_nat (List.length (dec c) - 1))) = true).
    change (no_feed ([d] ++ d' :: more) = true) in Hsig.
    rewrite forallb_app in Hsig. apply andb_true_iff in Hsig. destruct Hsig as [H1 H2].
    rewrite !forallb_app, H2, dec_feed. cbn [forallb] in *.
    rewrite andb_true_iff in H1. destruct H1 as [-> _]. reflexivity.
Qed.

Lemma split_join_parts (parts : list jsstring) :
  parts <> [] -> Forall (fun part => no_feed part = true) parts ->
  split 10 (join 10 parts) = parts.
Proof.
  assert (Hone : forall part, no_feed part = true -> split 10 part = [part]).
  { induction part as [|c part IH]; simpl; [reflexivity|].
    rewrite andb_true_iff, negb_true_iff. intros [-> H]. now rewrite (IH H). }
  assert (Hcons : forall part rest, no_feed part = true ->
                    split 10 (part ++ 10%N :: rest) = part :: split 10 rest).
  { induction part as [|c part IH]; intros rest; simpl; [reflexivity|].
    rewrite andb_true_iff, negb_true_iff. intros [-> H]. now rewrite (IH rest H). }
  induction parts as [|part parts IH]; [congruence|]. intros _ Hall.
  inversion Hall as [|? ? Hp Hrest]; subst.
  destruct parts as [|next parts]; [exact (Hone part Hp)|].
  change (join 10 (part :: next :: parts)) with (part ++ 10%N :: join 10 (next :: parts)).
  rewrite (Hcons _ _ Hp), IH; [reflexivity | discriminate | exact Hrest].
Qed.

(** X23: the numbered steps of [buildPrompt] are numbered 1, 2, 3, ...
    without a gap, whatever the source and the options: seven steps when
    nothing is skipped, two fewer when the tests are skipped and one fewer
    when linting is skipped, so never fewer than four (for a task and a file
    name without line feeds). *)
Theorem buildPrompt_steps_consecutive (task : jsstring) (config : Options)
    (Htask : no_feed task = true) (Hfile : no_feed (prdFile config) = true) :
  step_numbers (buildPrompt task config)
  = List.map N.of_nat
      (seq 1 (4 + (if skipTests config then 0 else 2) + (if skipLint config then 0 else 1))).
Proof.
  unfold step_numbers, buildPrompt.
  rewrite split_join_parts.
  - destruct config as [src file tests lint]. cbn [prdFile skipTests skipLint] in *.
    destruct src, tests, lint; vm_compute; reflexivity.
  - destruct config as [src file tests lint]. destruct src, tests, lint; discriminate.
  - assert (Hpush : forall text acc,
               no_feed text = true -> Forall (fun part => no_feed part = true) (fst acc) ->
               Forall (fun part => no_feed part = true) (fst (push text acc))).
    { intros text acc Ht Hacc. unfold push. cbn [fst].
      apply Forall_app. split; [exact Hacc | now constructor]. }
    assert (Hstep : forall text acc,
               no_feed text = true -> Forall (fun part => no_feed part = true) (fst acc) ->
               Forall (fun part => no_feed part = true) (fst (push_step text acc))).
    { intros text acc Ht Hacc. unfold push_step. cbn [fst].
      apply Forall_app. split; [exact Hacc|]. constructor; [|constructor].
      rewrite !forallb_app, Ht, andb_true_r. unfold numberToString.
      match goal with |- context [Z.of_nat ?n] =>
        destruct (Z.of_nat n) as [|q|q] eqn:E; [reflexivity | | lia] end.
      exact (pos_toString_feed (N.pos q)). }
    destruct config as [src file tests lint]. cbn [prdFile] in Hfile.
    cbv beta iota zeta delta [buildPrompt_parts prdSource prdFile skipTests skipLint].
    destruct src, tests, lint;
      repeat first [ apply Hpush | apply Hstep ];
      rewrite ?forallb_app, ?Htask, ?Hfile; try reflexivity;
      cbn [fst]; repeat constructor; rewrite ?forallb_app, ?Htask, ?Hfile; reflexivity.
Qed.

Lemma buildPrompt_steps_consecutive_witness :
  step_numbers
    (buildPrompt (js "Add a search box")
       (mkOptions RalphyConfig.markdown (js "PRD.md") false true))
  = [1; 2; 3; 4; 5; 6]%N.
Proof.
  exact (buildPrompt_steps_consecutive (js "Add a search box")
           (mkOptions RalphyConfig.markdown (js "PRD.md") false true) eq_refl eq_refl).
Defined.

End Prompts.

(** ** git-manager.ts and parallel-executor.ts: commands that depend on
    earlier ones *)

Section Dependencies.

Import Git Executor.

Variable env : shell.

Ltac tail_of_history :=
  rewrite <- ?app_assoc; cbn [app]; rewrite skipn_app, skipn_all, Nat.sub_diag;
  cbn [skipn app].

(** X24: [createWorktree] returns a worktree exactly when pruning, creating
    the branch and adding the worktree succeed, whatever the forced deletion
    of the branch and the removal of the directory do; it reports the
    failure on the console exactly when it returns [null]. *)
Theorem createWorktree_succeeds_iff
    (task : jsstring) (n : number) (worktreeBase baseBranch : jsstring) (h : list event) :
  let b := branchName task n in
  let d := worktreeDir worktreeBase n in
  let h2 := h ++ [Shell GitWorktreePrune; Shell (GitBranchForceDelete b)] in
  let h4 := h2 ++ [Shell (GitBranchCreate b baseBranch); Shell (RmRf d)] in
  let r := fst (createWorktree env task n worktreeBase baseBranch h) in
  let tr := issued (createWorktree env task n worktreeBase baseBranch) h in
  (r = Some (mkWorktree d b) <->
   (exists t1, env h GitWorktreePrune = Ok t1)
   /\ (exists t2, env h2 (GitBranchCreate b baseBranch) = Ok t2)
   /\ (exists t3, env h4 (GitWorktreeAdd d b) = Ok t3))
  /\ (r = None <-> In (Console FailedToCreateWorktree) tr)
  /\ (r = None \/ r = Some (mkWorktree d b)).
Proof.
  cbv zeta. unfold createWorktree, issued, bind, emit, sh, ret. cbn [fst snd].
  destruct (env h GitWorktreePrune) as [|t1]; cbn [fst snd].
  - tail_of_history.
    split; [split; [discriminate | intros [[t H] _]; discriminate]|].
    split; [|auto]. split; [simpl; auto | reflexivity].
  - rewrite <- !app_assoc. cbn [app].
    destruct (env (h ++ [Shell GitWorktreePrune;
                         Shell (GitBranchForceDelete (branchName task n))])
                (GitBranchCreate (branchName task n) baseBranch)) as [|t2]; cbn [fst snd].
    + tail_of_history.
      split; [split; [discriminate | intros [_ [[t H] _]]; discriminate]|].
      split; [|auto]. split; [simpl; auto 10 | reflexivity].
    + rewrite <- !app_assoc. cbn [app].
      destruct (env (h ++ [Shell GitWorktreePrune;
                           Shell (GitBranchForceDelete (branchName task n));
                           Shell (GitBranchCreate (branchName task n) baseBranch);
                           Shell (RmRf (worktreeDir worktreeBase n))])
                  (GitWorktreeAdd (worktreeDir worktreeBase n) (branchName task n)))
        as [|t3]; cbn [fst snd].
      * tail_of_history.
        split; [split; [discriminate | intros [_ [_ [t H]]]; discriminate]|].
        split; [|auto]. split; [simpl; auto 10 | reflexivity].
      * tail_of_history.
        split; [split; [eauto 10 | reflexivity]|].
        split; [|auto]. split; [discriminate|].
        simpl. intuition discriminate.
Qed.

(** X25: [createPullRequest] asks for the pull request only after the push
    has succeeded; it returns the trimmed output of that command, or [null]
    after reporting the failure on the console when one of the two commands
    fails. *)
Theorem createPullRequest_pushes_first
    (b prTitle body base : jsstring) (draft : bool) (h : list event) :
  let r := fst (createPullRequest env b prTitle body base draft h) in
  let tr := issued (createPullRequest env b prTitle body base draft) h in
  let h1 := h ++ [Shell (GitPush b)] in
  (forall c, In (Shell c) tr -> c <> GitPush b -> exists t, env h (GitPush b) = Ok t)
  /\ (r = None <-> In (Console FailedToCreatePr) tr)
  /\ (forall url, r = Some url ->
        exists text, env h1 (GhPrCreate base b prTitle body draft) = Ok text
                     /\ url = trim text).
Proof.
  cbv zeta. unfold createPullRequest, issued, bind, emit, sh, ret. cbn [fst snd].
  destruct (env h (GitPush b)) as [|t1]; cbn [fst snd].
  - tail_of_history.
    split; [intros c [H|[H|[]]] Hc; [congruence | discriminate]|].
    split; [split; [simpl; auto | reflexivity] | discriminate].
  - destruct (env (h ++ [Shell (GitPush b)]) (GhPrCreate base b prTitle body draft))
      as [|text]; cbn [fst snd]; tail_of_history.
    + split; [eauto|]. split; [split; [simpl; auto | reflexivity] | discriminate].
    + split; [eauto|]. split.
      * split; [discriminate | simpl; intuition discriminate].
      * intros url [= <-]. eauto.
Qed.

(** X26: the reconciliation step hands every branch of a successful result
    to [mergeBranch] once, in the order of the results, and hands over none
    when pull requests were asked for. *)
Theorem handleCompletedBranches_merge_calls
    (config : Config) (rs : list AgentResult) (h : list event) :
  merge_calls (issued (handleCompletedBranches env config rs) h)
  = if createPr config then [] else successfulBranches rs.
Proof.
  unfold handleCompletedBranches.
  destruct (successfulBranches rs) as [|b bs] eqn:Eb.
  - rewrite (issued_app (ret tt) h [] (a := tt)) by (unfold ret; now rewrite app_nil_r).
    now destruct (createPr config).
  - destruct (createPr config).
    + rewrite (issued_app _ h _ (say_all_trace _ h)).
      now destruct (created_report (b :: bs)) as [C _].
    + destruct (merge_all_trace env config (b :: bs) h) as [failed [e1 [E1 [S1 _]]]].
      unfold summary in S1. injection S1 as C1 F1 U1 R1.
      destruct failed as [|x failed].
      * rewrite (issued_app _ h (e1 ++ [Console AllMerged]) (a := tt))
          by (unfold bind, emit; rewrite E1; now rewrite app_assoc).
        rewrite merge_calls_app, C1. cbn [merge_calls]. apply app_nil_r.
      * destruct (resolve_all_trace env (x :: failed) (h ++ e1)) as [e2 [E2 [C2 _]]].
        destruct (unresolved_report (x :: failed)) as [C3 _].
        set (report := List.map Console (List.map Unresolved (x :: failed))) in *.
        rewrite (issued_app _ h (e1 ++ e2 ++ report) (a := tt)).
        -- rewrite !merge_calls_app, C1, C2, C3, !app_nil_r. reflexivity.
        -- unfold bind. rewrite E1, E2, say_all_trace, <- !app_assoc. reflexivity.
Qed.

End Dependencies.

(** ** task-sources/yaml.ts: a file without the [tasks:] line *)

Section Header.

Import Yaml.

Lemma step_before_header (line : jsstring) :
  JS.eqb (trim line) (js "tasks:") = false ->
  step (mkPstate None false []) line = mkPstate None false [].
Proof.
  intros H. unfold step. rewrite H. cbn [inTasks negb].
  now destruct (negb (nonempty (trim line)) || startsWith (js "#") (trim line))%bool.
Qed.

(** X27: a structured backlog in which no line is the [tasks:] line has no
    tasks, and [markComplete] replaces its whole text by the empty task
    list. *)
Theorem yaml_without_header_is_empty (content task : jsstring)
    (Hlines : Forall (fun line => JS.eqb (trim line) (js "tasks:") = false)
                (split LF content)) :
  parseSimpleYaml content = []
  /\ getRemainingTasks (Some content) = []
  /\ markComplete task (Some content) = Some (js "tasks:" ++ [LF]).
Proof.
  assert (H : parseSimpleYaml content = []).
  { unfold parseSimpleYaml.
    induction Hlines as [|line lines Hl _ IH]; [reflexivity|].
    cbn [fold_left]. now rewrite (step_before_header _ Hl). }
  assert (Hf : parseFile (Some content) = []).
  { unfold parseFile. cbn [Utils.readFile]. destruct content; [reflexivity | exact H]. }
  split; [exact H|]. split.
  - unfold getRemainingTasks. now rewrite Hf.
  - unfold markComplete. now rewrite Hf.
Qed.

Lemma yaml_without_header_is_empty_witness :
  getRemainingTasks (Some (js "- title: A" ++ [LF] ++ js "  completed: false")) = []
  /\ markComplete (js "A") (Some (js "- title: A" ++ [LF] ++ js "  completed: false"))
     = Some (js "tasks:" ++ [LF]).
Proof.
  refine (proj2 (@yaml_without_header_is_empty
                   (js "- title: A" ++ [LF] ++ js "  completed: false") (js "A") _)).
  repeat constructor.
Defined.

End Header.

(** ** parallel-executor.ts: the order of the groups, the base of the
    branches and the preserved worktrees *)

Section Orders.

Import Git Executor.

Lemma plainly_ret {A} base under (a : A) : plainly base under (ret a).
Proof. intros h. exists []. now rewrite app_nil_r. Qed.

Lemma plainly_emit base under (e : event) :
  plain base under e = true -> plainly base under (emit e).
Proof. intros He h. exists [e]. cbn [forallb]. rewrite He. auto. Qed.

Lemma plainly_sh base under (env : shell) (c : cmd) :
  plain base under (Shell c) = true -> plainly base under (sh env c).
Proof. intros Hc h. exists [Shell c]. cbn [forallb]. rewrite Hc. auto. Qed.

Lemma plainly_bind {A B} base under (m : M A) (k : A -> M B) :
  plainly base under m -> (forall a, plainly base under (k a)) -> plainly base under (bind m k).
Proof.
  intros Hm Hk h. unfold bind. destruct (Hm h) as [e1 [E1 Q1]].
  destruct (m h) as [a h1]. simpl in E1. subst h1.
  destruct (Hk a (h ++ e1)) as [e2 [E2 Q2]].
  exists (e1 ++ e2). rewrite E2, app_assoc, forallb_app, Q1, Q2. auto.
Qed.

Ltac plain_steps :=
  repeat first
    [ apply plainly_ret
    | apply plainly_sh; first [reflexivity | apply eqb_refl]
    | apply plainly_emit; first [reflexivity | assumption]
    | apply plainly_bind; [|intros ?]
    | match goal with
      | |- plainly _ _ (match ?x with _ => _ end) => destruct x
      | |- plainly _ _ (if ?x then _ else _) => destruct x
      end ].

Variable env : shell.

Lemma createWorktree_plain base under t num wb :
  plainly base under (createWorktree env t num wb base).
Proof. unfold createWorktree. plain_steps. Qed.

Lemma cleanupWorktree_plain base under d :
  under d = true -> plainly base under (cleanupWorktree env d).
Proof. intros Hd. unfold cleanupWorktree. plain_steps. Qed.

Lemma createPullRequest_plain base under b t body target draft :
  plainly base under (createPullRequest env b t body target draft).
Proof. unfold createPullRequest. plain_steps. Qed.

Lemma getCurrentBranch_plain base under : plainly base under (getCurrentBranch env).
Proof. unfold getCurrentBranch. plain_steps. Qed.

Lemma mergeBranch_plain base under b target : plainly base under (mergeBranch env b target).
Proof. unfold mergeBranch. plain_steps. Qed.

Lemma getConflictedFiles_plain base under : plainly base under (getConflictedFiles env).
Proof. unfold getConflictedFiles. plain_steps. Qed.

Lemma abortMerge_plain base under : plainly base under (abortMerge env).
Proof. unfold abortMerge. plain_steps. Qed.

Lemma say_all_plain base under (ms : list message) :
  (forall g n, ~ In (ProcessingGroup g n) ms) ->
  (forall d, ~ In (PreservingDirtyWorktree d) ms) ->
  plainly base under (say_all ms).
Proof.
  induction ms as [|m ms IH]; intros H H'; simpl; [apply plainly_ret|].
  apply plainly_bind;
    [|intros _; apply IH; [intros g n Hin; apply (H g n) | intros d Hin; apply (H' d)];
      now right].
  apply plainly_emit.
  destruct m; try reflexivity; exfalso; [eapply H | eapply H']; left; reflexivity.
Qed.

Lemma merge_all_plain base under config (bs : list jsstring) :
  plainly base under (merge_all env config bs).
Proof.
  induction bs as [|b bs IH]; simpl; [apply plainly_ret|].
  apply plainly_bind; [apply plainly_emit; reflexivity | intros _].
  apply plainly_bind; [apply mergeBranch_plain | intros ok].
  apply plainly_bind; [destruct ok; apply plainly_emit; reflexivity | intros _].
  apply plainly_bind; [exact IH | intros failed; apply plainly_ret].
Qed.

Lemma resolve_all_plain base under (failed : list jsstring) :
  plainly base under (resolve_all env failed).
Proof.
  induction failed as [|b failed IH]; simpl; [apply plainly_ret|].
  apply plainly_bind; [apply getConflictedFiles_plain | intros conflicts].
  apply plainly_bind;
    [destruct conflicts; [apply plainly_ret | apply plainly_emit; reflexivity] | intros _].
  apply plainly_bind; [apply abortMerge_plain | intros _; exact IH].
Qed.

Lemma handleCompletedBranches_plain base under config (rs : list AgentResult) :
  plainly base under (handleCompletedBranches env config rs).
Proof.
  unfold handleCompletedBranches.
  destruct (successfulBranches rs) as [|b bs]; [apply plainly_ret|].
  destruct (createPr config).
  - apply say_all_plain; intros; intros Hin; apply in_map_iff in Hin;
      destruct Hin as [x [Hx _]]; discriminate.
  - apply plainly_bind; [apply merge_all_plain | intros failed].
    destruct failed as [|x failed]; [apply plainly_emit; reflexivity|].
    apply plainly_bind; [apply resolve_all_plain | intros _].
    apply say_all_plain; intros; intros Hin; apply in_map_iff in Hin;
      destruct Hin as [y [Hy _]]; discriminate.
Qed.

Context {Store : Type} {TS : TaskSource Store}.
Variable directory worktreeBase : jsstring.

Local Abbreviation State := (@Executor.State Store).

(** [st'] continues [st] with plain events. *)
Local Abbreviation plain_step base under st st' :=
  (exists evs, history st' = history st ++ evs /\ forallb (plain base under) evs = true).

Lemma plain_step_refl base under (st : State) : plain_step base under st st.
Proof. exists []. now rewrite app_nil_r. Qed.

Lemma plain_step_trans base under (a b c : State) :
  plain_step base under a b -> plain_step base under b c -> plain_step base under a c.
Proof.
  intros [e1 [H1 Q1]] [e2 [H2 Q2]]. exists (e1 ++ e2).
  rewrite H2, H1, app_assoc, forallb_app, Q1, Q2. auto.
Qed.

Lemma lift_plain_step {A} base under (m : M A) (st : State) :
  plainly base under m -> plain_step base under st (snd (lift m st)).
Proof.
  intros Hm. unfold lift. destruct (Hm (history st)) as [evs [E Q]].
  destruct (m (history st)) as [a h]. simpl in *. exists evs. auto.
Qed.

Lemma say_plain_step base under (m : message) (st : State) :
  plain base under (Console m) = true -> plain_step base under st (say m st).
Proof. intros H. apply lift_plain_step, plainly_emit, H. Qed.

Lemma show_results_plain_step base under (rs : list AgentResult) (label : nat) (st : State) :
  plain_step base under st (show_results label rs st).
Proof.
  revert label st; induction rs as [|r rs IH]; intros label st; simpl.
  - apply plain_step_refl.
  - eapply plain_step_trans; [|apply IH]. now apply say_plain_step.
Qed.

Lemma requestPr_plain_step base under config t num w (st : State) :
  plain_step base under st (requestPr env config t num w st).
Proof.
  unfold requestPr. destruct (createPr config); [|apply plain_step_refl].
  match goal with |- context [lift ?m st] =>
    pose proof (@lift_plain_step _ base under m st ltac:(apply createPullRequest_plain)) as H
  end.
  destruct (lift _ st) as [[[|c u]|] st']; simpl in H; auto.
  eapply plain_step_trans; [exact H|]. now apply say_plain_step.
Qed.

Lemma createWorktree_dir
    (task : jsstring) (n : number) (wb baseBranch : jsstring) (h h' : list event)
    (w : Worktree) :
  createWorktree env task n wb baseBranch h = (Some w, h') -> dir w = worktreeDir wb n.
Proof.
  unfold createWorktree, bind, sh, emit, ret.
  destruct (env h GitWorktreePrune); [easy|].
  destruct (env _ (GitBranchCreate _ _)); [easy|].
  destruct (env _ (GitWorktreeAdd _ _)); [easy|].
  intros [= <- _]. reflexivity.
Qed.

Lemma runAgent_plain_step (config : Config) (t : jsstring) (k : nat) (st : State) :
  plain_step (baseBranch config) (agent_dirs worktreeBase) st
    (snd (runAgent env directory worktreeBase config t k st)).
Proof.
  unfold runAgent.
  set (st1 := say (AgentStarts k t) (snd (lift (emit (Dispatch t k)) st))).
  assert (H1 : plain_step (baseBranch config) (agent_dirs worktreeBase) st st1).
  { eapply plain_step_trans; [|now apply say_plain_step].
    apply lift_plain_step, plainly_emit. reflexivity. }
  pose proof (@lift_plain_step _ (baseBranch config) (agent_dirs worktreeBase) _ st1
                (createWorktree_plain (baseBranch config) (agent_dirs worktreeBase) t
                   (Num (Z.of_nat k)) worktreeBase))
    as H2.
  destruct (lift (createWorktree env t (Num (Z.of_nat k)) worktreeBase (baseBranch config)) st1)
    as [[w|] st2] eqn:E; cbn [snd] in *.
  - assert (Hd : agent_dirs worktreeBase (dir w) = true).
    { revert E. unfold lift.
      match goal with |- context [createWorktree ?e ?a ?b ?c ?d ?h] =>
        destruct (createWorktree e a b c d h) as [o h1] eqn:Ew end.
      intros [= -> _]. rewrite (createWorktree_dir _ _ _ _ _ Ew).
      unfold agent_dirs, worktreeDir. rewrite app_assoc. apply startsWith_app. }
    eapply plain_step_trans; [|apply lift_plain_step, cleanupWorktree_plain, Hd].
    eapply plain_step_trans; [|exists []; cbn [recordSuccess history]; now rewrite app_nil_r].
    eapply plain_step_trans; [|apply requestPr_plain_step].
    eapply plain_step_trans; [|now apply say_plain_step].
    eapply plain_step_trans; [|apply lift_plain_step; unfold copyFiles; plain_steps].
    eapply plain_step_trans; [exact H1 | exact H2].
  - eapply plain_step_trans; [exact H1 | exact H2].
Qed.

Lemma run_agents_plain_step (config : Config) (agents : list (jsstring * nat)) (st : State) :
  plain_step (baseBranch config) (agent_dirs worktreeBase) st
    (snd (run_agents env directory worktreeBase config agents st)).
Proof.
  revert st; induction agents as [|[t k] agents IH]; intros st; simpl.
  - apply plain_step_refl.
  - pose proof (runAgent_plain_step config t k st) as H1.
    destruct (runAgent env directory worktreeBase config t k st) as [r st1].
    specialize (IH st1).
    destruct (run_agents env directory worktreeBase config agents st1) as [rs st2].
    cbn [snd] in *. eapply plain_step_trans; eauto.
Qed.

Lemma runBatches_loop_plain_step (config : Config) (tasks : list jsstring) :
  forall (fuel i batchNum : nat) (st st' : State),
    runBatches_loop env directory worktreeBase config fuel tasks i batchNum st = Some st' ->
    plain_step (baseBranch config) (agent_dirs worktreeBase) st st'.
Proof.
  induction fuel as [|fuel IH]; intros i batchNum st st'; simpl.
  - destruct (Nat.ltb i (List.length tasks)); [discriminate|].
    intros [= <-]. apply plain_step_refl.
  - destruct (Nat.ltb i (List.length tasks)); [|intros [= <-]; apply plain_step_refl].
    set (batch := slice i (i + maxParallel config) tasks).
    set (agents := combine batch (seq (i + 1) (List.length batch))).
    set (st1 := say (BatchSpawning (S batchNum) (List.length batch)) st).
    assert (H1 : plain_step (baseBranch config) (agent_dirs worktreeBase) st st1)
      by now apply say_plain_step.
    pose proof (run_agents_plain_step config agents st1) as H2.
    destruct (run_agents env directory worktreeBase config agents st1) as [rs st2].
    cbn [snd] in H2.
    match goal with |- context [show_results ?l rs ?s] =>
      set (st3 := s); set (label := l) end.
    assert (H3 : plain_step (baseBranch config) (agent_dirs worktreeBase) st2 st3)
      by (exists []; unfold st3; cbn [history]; now rewrite app_nil_r).
    pose proof (show_results_plain_step (baseBranch config) (agent_dirs worktreeBase) rs label
                  st3) as H4.
    assert (H14 : plain_step (baseBranch config) (agent_dirs worktreeBase) st
                    (show_results label rs st3)).
    { eapply plain_step_trans; [|exact H4]. eapply plain_step_trans; [|exact H3].
      eapply plain_step_trans; eauto. }
    destruct (_ && _)%bool.
    + intros [= <-]. eapply plain_step_trans; [exact H14|]. now apply say_plain_step.
    + intros Hloop. eapply plain_step_trans; [exact H14|]. exact (IH _ _ _ _ Hloop).
Qed.

Lemma announced_app (e1 e2 : list event) :
  announced (e1 ++ e2) = announced e1 ++ announced e2.
Proof.
  induction e1 as [|e e1 IH]; simpl; [reflexivity|].
  destruct e as [| | | | | |m]; try exact IH. destruct m; simpl; now rewrite ?IH.
Qed.

Lemma bases_app (e1 e2 : list event) : bases (e1 ++ e2) = bases e1 ++ bases e2.
Proof.
  induction e1 as [|e e1 IH]; simpl; [reflexivity|].
  destruct e as [c| | | | | |]; try exact IH. destruct c; simpl; now rewrite ?IH.
Qed.

Lemma preserved_app (e1 e2 : list event) :
  preserved (e1 ++ e2) = preserved e1 ++ preserved e2.
Proof.
  induction e1 as [|e e1 IH]; simpl; [reflexivity|].
  destruct e as [| | | | | |m]; try exact IH. destruct m; simpl; now rewrite ?IH.
Qed.

Lemma plain_log base under (evs : list event) :
  forallb (plain base under) evs = true ->
  announced evs = []
  /\ (forall b, In b (bases evs) -> b = base)
  /\ (forall d, In d (preserved evs) -> under d = true).
Proof.
  induction evs as [|e evs IH]; simpl; [easy|].
  rewrite andb_true_iff. intros [He Hq]. destruct (IH Hq) as [Ha [Hb Hp]].
  destruct e as [c| | | | | |m]; auto.
  - destruct c; auto. simpl in He. apply eqb_eq in He. subst base0.
    split; [exact Ha|]. split; [|exact Hp]. intros b [<-|Hin]; auto.
  - destruct m; auto; [discriminate|].
    split; [exact Ha|]. split; [exact Hb|]. intros d [<-|Hin]; auto.
Qed.

Lemma plain_log_none base (evs : list event) :
  forallb (plain base (fun _ => false)) evs = true -> preserved evs = [].
Proof.
  intros Q. destruct (plain_log _ _ _ Q) as [_ [_ Hp]].
  destruct (preserved evs) as [|d l]; [reflexivity|].
  specialize (Hp d (or_introl eq_refl)). discriminate.
Qed.

(** The groups of [run_groups]: the log continues with plain events and the
    announcements of some of the groups, in their order. *)
Lemma run_groups_log (config : Config) (g : Grouping Store) :
  forall (groups : list number) (st st' : State),
    run_groups env directory worktreeBase config g groups st = Some st' ->
    exists evs,
      history st' = history st ++ evs
      /\ (forall b, In b (bases evs) -> b = baseBranch config)
      /\ (forall d, In d (preserved evs) -> agent_dirs worktreeBase d = true)
      /\ incl (announced evs) groups
      /\ (StronglySorted number_lt groups -> StronglySorted number_lt (announced evs)).
Proof.
  induction groups as [|group rest IH]; intros st st'; cbn [run_groups].
  - intros [= <-]. exists []. rewrite app_nil_r. simpl.
    split; [reflexivity|]. split; [easy|]. split; [easy|].
    split; [easy | intros _; constructor].
  - assert (Hrest : forall st0 : State,
               run_groups env directory worktreeBase config g rest st0 = Some st' ->
               forall e0, history st0 = history st ++ e0 ->
               (forall b, In b (bases e0) -> b = baseBranch config) ->
               (forall d, In d (preserved e0) -> agent_dirs worktreeBase d = true) ->
               announced e0 = [] \/ announced e0 = [group] ->
               exists evs,
                 history st' = history st ++ evs
                 /\ (forall b, In b (bases evs) -> b = baseBranch config)
                 /\ (forall d, In d (preserved evs) -> agent_dirs worktreeBase d = true)
                 /\ incl (announced evs) (group :: rest)
                 /\ (StronglySorted number_lt (group :: rest) ->
                     StronglySorted number_lt (announced evs))).
    { intros st0 Hrun e0 He0 Hb0 Hp0 Ha0.
      destruct (IH st0 st' Hrun) as [evs [E [Hb [Hp [Hi Hs]]]]].
      exists (e0 ++ evs). rewrite E, He0, app_assoc. split; [reflexivity|].
      rewrite bases_app, preserved_app, announced_app. split.
      - intros b Hin. apply in_app_or in Hin. destruct Hin; auto.
      - split; [intros d Hin; apply in_app_or in Hin; destruct Hin; auto|]. split.
        + intros x Hx. apply in_app_or in Hx. destruct Hx as [Hx|Hx].
          * destruct Ha0 as [Ha0|Ha0]; rewrite Ha0 in Hx; [easy|].
            destruct Hx as [<-|[]]. now left.
          * right. now apply Hi.
        + intros Hsorted. apply StronglySorted_inv in Hsorted.
          destruct Hsorted as [Hsr Hall]. specialize (Hs Hsr).
          destruct Ha0 as [->| ->]; [exact Hs|]. simpl. constructor; [exact Hs|].
          apply Forall_forall. intros x Hx. rewrite Forall_forall in Hall.
          apply Hall, Hi, Hx. }
    destruct (Executor.getTasksByGroup g group (store st)) as [|t ts].
    + intros Hrun.
      apply (Hrest st Hrun []); [now rewrite app_nil_r | easy | easy | now left].
    + set (st0 := say (ProcessingGroup group (List.length (t :: ts))) st).
      destruct (runBatches env directory worktreeBase config (t :: ts) st0) as [st1|] eqn:Eb;
        [|discriminate].
      intros Hrun.
      destruct (runBatches_loop_plain_step _ _ _ _ _ _ Eb) as [e1 [E1 Q1]].
      destruct (plain_log _ _ _ Q1) as [A1 [B1 C1]].
      apply (Hrest st1 Hrun (Console (ProcessingGroup group (List.length (t :: ts))) :: e1)).
      * rewrite E1. unfold st0. cbn [say lift emit snd history]. now rewrite <- app_assoc.
      * simpl. exact B1.
      * simpl. exact C1.
      * right. simpl. now rewrite A1.
Qed.

Lemma getCurrentBranch_named (h : list event) : fst (getCurrentBranch env h) <> [].
Proof.
  unfold getCurrentBranch, bind, sh, ret. cbn [fst].
  destruct (env h GitRevParseHead) as [|text]; [discriminate|].
  destruct (trim text); discriminate.
Qed.

Lemma lift_store {A} (m : M A) (st : State) : store (snd (lift m st)) = store st.
Proof. unfold lift. now destruct (m (history st)). Qed.

(** The log of a run that returns. *)
Lemma run_log (config : Config) (grouping : option (Grouping Store)) (st st' : State) :
  run env directory worktreeBase config grouping st = Some (Returned st') ->
  exists evs base,
    history st' = history st ++ evs
    /\ base <> [] /\ (baseBranch config <> [] -> base = baseBranch config)
    /\ (forall b, In b (bases evs) -> b = base)
    /\ match grouping with
       | Some g =>
           incl (announced evs) (Executor.getParallelGroups g (store st))
           /\ (StronglySorted number_lt (Executor.getParallelGroups g (store st)) ->
               StronglySorted number_lt (announced evs))
       | None => announced evs = []
       end
    /\ (getRemainingTasks (store st) <> [] ->
        exists before after,
          evs = before ++ Shell (RmRf worktreeBase) :: after
          /\ (forall d, In d (preserved before) -> agent_dirs worktreeBase d = true)
          /\ preserved after = []).
Proof.
  unfold run. destruct (getRemainingTasks (store st)) as [|t ts].
  - intros [= <-].
    exists [Console NoTasksToRun], (match baseBranch config with [] => js "main" | b => b end).
    split; [reflexivity|]. split; [destruct (baseBranch config); discriminate|].
    split; [destruct (baseBranch config); [congruence | reflexivity]|].
    split; [intros b []|]. split; [|easy].
    destruct grouping; [split; [easy | intros _; constructor] | reflexivity].
  - set (st1 := say (RunningAgents (maxParallel config))
                  (say (FoundTasks (List.length (t :: ts))) st)).
    assert (P1 : forall base under, plain_step base under st st1).
    { intros base under. eapply plain_step_trans; now apply say_plain_step. }
    assert (S1 : store st1 = store st) by reflexivity.
    assert (Hconf : exists config2 st2,
               match baseBranch config with
               | [] =>
                   let '(b, st0) := lift (getCurrentBranch env) st1 in
                   (mkConfig (maxParallel config) (maxIterations config) (createPr config)
                      (draftPr config) b (prdFile config), st0)
               | _ :: _ => (config, st1)
               end = (config2, st2)
               /\ baseBranch config2 <> []
               /\ (baseBranch config <> [] -> baseBranch config2 = baseBranch config)
               /\ store st2 = store st1
               /\ forall base under, plain_step base under st1 st2).
    { destruct (baseBranch config) as [|c b0] eqn:Eb.
      - pose proof (fun base under =>
                      @lift_plain_step _ base under _ st1 (getCurrentBranch_plain base under))
          as Hp.
        pose proof (lift_store (getCurrentBranch env) st1) as Hs.
        pose proof (getCurrentBranch_named (history st1)) as Hn.
        unfold lift in *.
        destruct (getCurrentBranch env (history st1)) as [b h1]. cbn [fst snd] in *.
        eexists. eexists. split; [reflexivity|]. cbn [baseBranch].
        split; [exact Hn|]. split; [congruence|]. split; [exact Hs | exact Hp].
      - exists config, st1. split; [reflexivity|]. rewrite Eb.
        split; [discriminate|]. split; [reflexivity|]. split; [reflexivity|].
        intros base under. apply plain_step_refl. }
    destruct Hconf as [config2 [st2 [-> [Hbase [Hsame [S2 P2]]]]]].
    pose proof (fun base under =>
                  @lift_plain_step _ base under _ st2
                    (plainly_sh base under env (Mkdir worktreeBase) eq_refl)) as P3.
    pose proof (lift_store (sh env (Mkdir worktreeBase)) st2) as S3.
    destruct (lift (sh env (Mkdir worktreeBase)) st2) as [made st3]. cbn [snd] in P3, S3.
    destruct made as [|text]; [discriminate|].
    set (base := baseBranch config2) in *.
    assert (P03 : plain_step base (fun _ => false) st st3).
    { eapply plain_step_trans; [|apply P3]. eapply plain_step_trans; [apply P1 | apply P2]. }
    assert (Hmid : forall st4,
               match grouping with
               | Some g => runWithGroups env directory worktreeBase config2 g st3
               | None => runBatches env directory worktreeBase config2 (t :: ts) st3
               end = Some st4 ->
               exists e,
                 history st4 = history st3 ++ e
                 /\ (forall b, In b (bases e) -> b = base)
                 /\ (forall d, In d (preserved e) -> agent_dirs worktreeBase d = true)
                 /\ match grouping with
                    | Some g =>
                        incl (announced e) (Executor.getParallelGroups g (store st))
                        /\ (StronglySorted number_lt (Executor.getParallelGroups g (store st)) ->
                            StronglySorted number_lt (announced e))
                    | None => announced e = []
                    end).
    { intros st4. destruct grouping as [g|].
      - unfold runWithGroups. rewrite S3, S2, S1. intros Hrun.
        destruct (run_groups_log _ _ _ _ Hrun) as [e [E [B [C [I O]]]]].
        exists e. auto.
      - intros Hrun. destruct (runBatches_loop_plain_step _ _ _ _ _ _ Hrun) as [e [E Q]].
        destruct (plain_log _ _ _ Q) as [A [B C]]. exists e. auto. }
    destruct (match grouping with
              | Some g => runWithGroups env directory worktreeBase config2 g st3
              | None => runBatches env directory worktreeBase config2 (t :: ts) st3
              end) as [st4|]; [|discriminate].
    destruct (Hmid st4 eq_refl) as [e2 [E2 [B2 [C2 A2]]]].
    intros [= <-].
    match goal with |- context [lift (handleCompletedBranches env ?c ?r) ?s] =>
      pose proof (@lift_plain_step _ base (fun _ => false) _ s
                    (handleCompletedBranches_plain base (fun _ => false) c r)) as P5;
      set (st5 := s) in * end.
    assert (P4 : exists e4,
               history st5 = history st4 ++ Shell (RmRf worktreeBase) :: e4
               /\ forallb (plain base (fun _ => false)) e4 = true).
    { unfold st5, lift, bind, sh, emit, ret. cbn [fst snd history].
      destruct (env (history st4) (RmRf worktreeBase)); cbn [fst snd history].
      - exists [Console WorktreeBasePreserved]. now rewrite <- app_assoc.
      - exists []. auto. }
    destruct P03 as [e1 [E1 Q1]], P4 as [e4 [E4 Q4]], P5 as [e5 [E5 Q5]].
    destruct (plain_log _ _ _ Q1) as [A1 [B1 _]], (plain_log _ _ _ Q4) as [A4 [B4 _]],
      (plain_log _ _ _ Q5) as [A5 [B5 _]].
    pose proof (plain_log_none _ _ Q1) as C1. pose proof (plain_log_none _ _ Q4) as C4.
    pose proof (plain_log_none _ _ Q5) as C5.
    exists ((e1 ++ e2) ++ Shell (RmRf worktreeBase) :: e4 ++ e5), base.
    split; [rewrite E5, E4, E2, E1, <- !app_assoc; reflexivity|].
    split; [exact Hbase|]. split; [exact Hsame|].
    split; [|split].
    + rewrite !bases_app. cbn [bases]. rewrite bases_app.
      intros b Hin. repeat (apply in_app_or in Hin; destruct Hin as [Hin|Hin]); auto.
    + rewrite !announced_app. cbn [announced]. rewrite announced_app, A1, A4, A5, app_nil_r.
      exact A2.
    + intros _. exists (e1 ++ e2), (e4 ++ e5). split; [reflexivity|].
      rewrite !preserved_app, C1, C4, C5. split; [exact C2 | reflexivity].
Qed.


(** X30: in a returning run that found tasks, every worktree reported as
    preserved for its uncommitted changes is an agent directory below the
    worktree base, and the report precedes the [rm -rf] that the run issues
    on the worktree base; nothing is reported as preserved after it. *)
Theorem run_removes_base_after_preserving
    (config : Config) (grouping : option (Grouping Store)) (st st' : State)
    (Hrun : run env directory worktreeBase config grouping st = Some (Returned st'))
    (Htasks : getRemainingTasks (store st) <> []) :
  exists before after,
    history st' = history st ++ before ++ Shell (RmRf worktreeBase) :: after
    /\ (forall d, In d (preserved before) -> agent_dirs worktreeBase d = true)
    /\ preserved after = [].
Proof.
  destruct (run_log _ _ _ Hrun) as [evs [base [E [_ [_ [_ [_ Hsplit]]]]]]].
  destruct (Hsplit Htasks) as [before [after [-> [Hp Ha]]]].
  exists before, after. auto.
Qed.

End Orders.

Section GroupOrder.

Import Git Executor.

(** X29: a grouped run over the structured backlog announces parallel
    groups in strictly ascending order, each once at most, and only groups
    that [getParallelGroups] returned at the start of the run. *)
Theorem run_announces_groups_in_order
    (env : shell) (directory worktreeBase : jsstring) (config : Config)
    (st st' : @State Utils.file)
    (Hrun : run (TS := Yaml.source) env directory worktreeBase config (Some yamlGrouping) st
            = Some (Returned st')) :
  exists evs,
    history st' = history st ++ evs
    /\ StronglySorted number_lt (announced evs)
    /\ incl (announced evs) (Yaml.getParallelGroups (store st)).
Proof.
  destruct (run_log _ _ _ _ _ _ Hrun) as [evs [base [E [_ [_ [_ [[Hi Hs] _]]]]]]].
  exists evs. split; [exact E|]. split; [|exact Hi].
  apply Hs. cbn [Executor.getParallelGroups yamlGrouping].
  unfold Yaml.getParallelGroups.
  destruct (collect_groups (Yaml.parseFile (store st)) (NoDup_nil _)) as [Hn _].
  exact (sort_numbers_sorted Hn).
Qed.

Lemma run_announces_groups_in_order_witness :
  exists st' evs,
    run (TS := Yaml.source) calm (js "/repo") (js "/tmp/ralphy-1") sample_config
      (Some yamlGrouping) (fresh (Some two_groups)) = Some (Returned st')
    /\ history st' = [] ++ evs
    /\ StronglySorted number_lt (announced evs)
    /\ announced evs = [Num 1; Num 2].
Proof.
  assert (Hrun : exists st',
             run (TS := Yaml.source) calm (js "/repo") (js "/tmp/ralphy-1") sample_config
               (Some yamlGrouping) (fresh (Some two_groups)) = Some (Returned st')
             /\ announced (history st') = [Num 1; Num 2])
    by (eexists; split; vm_compute; reflexivity).
  destruct Hrun as [st' [Hrun Ha]].
  destruct (@run_announces_groups_in_order _ _ _ _ _ _ Hrun) as [evs [E [Hs _]]].
  exists st', evs. split; [exact Hrun|]. split; [exact E|]. split; [exact Hs|].
  simpl in E. rewrite <- E. exact Ha.
Defined.


Lemma run_removes_base_after_preserving_witness :
  exists st' before after,
    run (TS := Markdown.source) dirty (js "/repo") (js "/tmp/ralphy-1") sample_config None
      (fresh (Some Markdown.three_pending_one_done)) = Some (Returned st')
    /\ history st' = [] ++ before ++ Shell (RmRf (js "/tmp/ralphy-1")) :: after
    /\ preserved before
       = [js "/tmp/ralphy-1/agent-1"; js "/tmp/ralphy-1/agent-2"; js "/tmp/ralphy-1/agent-3"]
    /\ preserved after = [].
Proof.
  assert (Hrun : exists st',
             run (TS := Markdown.source) dirty (js "/repo") (js "/tmp/ralphy-1") sample_config
               None (fresh (Some Markdown.three_pending_one_done)) = Some (Returned st')
             /\ preserved (history st')
                = [js "/tmp/ralphy-1/agent-1"; js "/tmp/ralphy-1/agent-2";
                   js "/tmp/ralphy-1/agent-3"])
    by (eexists; split; vm_compute; reflexivity).
  destruct Hrun as [st' [Hrun Hp]].
  destruct (@run_removes_base_after_preserving _ _ _ _ _ _ _ _ _ Hrun)
    as [before [after [E [_ Ha]]]]; [vm_compute; discriminate|].
  cbn [history fresh app] in E.
  exists st', before, after. split; [exact Hrun|]. split; [exact E|]. split; [|exact Ha].
  rewrite E, preserved_app in Hp.
  change (preserved (Shell (RmRf (js "/tmp/ralphy-1")) :: after)) with (preserved after) in Hp.
  rewrite Ha, app_nil_r in Hp. exact Hp.
Defined.

End GroupOrder.
